(** * Pack planner: the pack data model and the packing strategies

    A shallow embedding of the C++ packing engine:
    - [pack] with [add_item], [add_partial_item], [is_full], [is_empty],
      [set_pack_number] and the two remaining capacities (the pack header),
    - [parallel_pack_strategy] with its constructor, [pack_items] (sequential
      branch and chunked branch) and [worker_thread]
      (include/parallel_pack_strategy.h), and
    - of the C# port (PackPlanner/ParallelPackStrategy.cs), in the module
      [CSharp]: the constructor, [PackItemsSequential] and [WorkerThread],
      over an interface for its class [Pack].

    C++ [int] values are integers of [Z] with the 32-bit two's complement
    wrap-around written out.  C++ [double] values are kept behind the
    interface [Double].  Its instance [binary64] is the arithmetic of the
    program: the IEEE 754 double precision numbers of the machine, whose
    operations the standard library specifies bit by bit ([SpecFloat]).
    Every definition of the engine is written once, over the interface;
    what does not depend on the arithmetic is proved for every instance,
    what does is proved for [binary64], from the specification of its
    operations.  A second instance, [exact], computes with the same
    constants on rational numbers, without rounding; it is not the
    arithmetic of the program and nothing is concluded from it alone: it
    is evaluated next to [binary64] to tell what rounding is responsible
    for from what it is not.

    The conversion of a [double] to [int] is the one of x86-64; the threads
    of the chunked branch are run under a [schedule], which stands for the
    order of their atomic steps.  The item header and the sequential
    (blocking) strategy are not among the sources; what is needed of them is
    modelled from the specification and marked so. *)

From Stdlib Require Import ZArith QArith Qround Qpower Floats List Bool Lia Lqa.
Import ListNotations.

Set Warnings "-inexact-float".
#[local] Open Scope Z_scope.

(** ** The type [int] *)

Module Int.

Definition INT_MIN : Z := -2147483648.
Definition INT_MAX : Z := 2147483647.

Definition in_range (z : Z) : Prop := INT_MIN <= z <= INT_MAX.
Definition in_rangeb (z : Z) : bool := (INT_MIN <=? z) && (z <=? INT_MAX).

(** Two's complement wrap-around of a mathematical result into [int]. *)
Definition wrap (z : Z) : Z := (z + 2147483648) mod 4294967296 - 2147483648.

Definition add (a b : Z) : Z := wrap (a + b).
Definition sub (a b : Z) : Z := wrap (a - b).

(** Conversion of [int] to [unsigned int]: reduction modulo 2^32. *)
Definition to_unsigned (z : Z) : Z := z mod 4294967296.

End Int.

(** ** The type [double] *)

(** The operations the engine applies to [double] values.  [d_trunc] is the
    integral part (rounding toward zero) used by the conversion to [int],
    [d_floor] the floor used by the specification's formulas; both are
    undefined ([None]) on infinities and NaN. *)
Class Double (D : Type) : Type := {
  d_zero : D;
  d_tenth : D;
  d_epsilon : D;
  d_of_int : Z -> D;
  d_add : D -> D -> D;
  d_sub : D -> D -> D;
  d_mul : D -> D -> D;
  d_div : D -> D -> D;
  d_ltb : D -> D -> bool;
  d_leb : D -> D -> bool;
  d_eqb : D -> D -> bool;
  d_trunc : D -> option Z;
  d_floor : D -> option Z
}.

Module Binary64.

#[local] Open Scope float_scope.

Definition of_int (z : Z) : float :=
  if (z <? 0)%Z then - PrimFloat.of_uint63 (Uint63.of_Z (- z))
  else PrimFloat.of_uint63 (Uint63.of_Z z).

(** Magnitude [m * 2^e] of a finite number, cut or rounded up to an integer. *)
Definition mag_down (m : positive) (e : Z) : Z :=
  (if 0 <=? e then Z.pos m * 2 ^ e else Z.pos m / 2 ^ (- e))%Z.
Definition mag_up (m : positive) (e : Z) : Z :=
  (if 0 <=? e then Z.pos m * 2 ^ e else - ((- Z.pos m) / 2 ^ (- e)))%Z.

Definition trunc (x : float) : option Z :=
  match Prim2SF x with
  | S754_zero _ => Some 0%Z
  | S754_finite s m e => Some (if s then (- mag_down m e)%Z else mag_down m e)
  | S754_infinity _ | S754_nan => None
  end.

Definition floor (x : float) : option Z :=
  match Prim2SF x with
  | S754_zero _ => Some 0%Z
  | S754_finite s m e => Some (if s then (- mag_up m e)%Z else mag_down m e)
  | S754_infinity _ | S754_nan => None
  end.

#[export] Instance binary64 : Double float := {|
  d_zero := 0;
  d_tenth := 0.1;
  d_epsilon := 1e-9;
  d_of_int := of_int;
  d_add := PrimFloat.add;
  d_sub := PrimFloat.sub;
  d_mul := PrimFloat.mul;
  d_div := PrimFloat.div;
  d_ltb := PrimFloat.ltb;
  d_leb := PrimFloat.leb;
  d_eqb := PrimFloat.eqb;
  d_trunc := trunc;
  d_floor := floor
|}.

End Binary64.

Module Exact.

Definition trunc (q : Q) : option Z := Some (Z.quot (Qnum q) (Z.pos (Qden q))).
Definition floor (q : Q) : option Z := Some (Qfloor q).

(** Rational arithmetic on the values of the doubles: no rounding, no
    infinities, no NaN.  The constants are the exact values of the doubles
    the literals [0.1] and [1e-9] denote.  The engine divides only by a
    weight it has tested to be non-zero. *)
#[export] Instance exact : Double Q := {|
  d_zero := 0%Q;
  d_tenth := (3602879701896397 # 36028797018963968)%Q;
  d_epsilon := (4835703278458517 # 4835703278458516698824704)%Q;
  d_of_int := inject_Z;
  d_add := Qplus;
  d_sub := Qminus;
  d_mul := Qmult;
  d_div := Qdiv;
  d_ltb := fun a b => negb (Qle_bool b a);
  d_leb := Qle_bool;
  d_eqb := Qeq_bool;
  d_trunc := trunc;
  d_floor := floor
|}.

End Exact.

Export Binary64 Exact.

Section Engine.

Context {D : Type} {DD : Double D}.

(** [std::max] on doubles: [(a < b) ? b : a]. *)
Definition d_max (a b : D) : D := if d_ltb a b then b else a.

(** [static_cast<int>] of a double: the integral part when it is an [int].
    The C++ standard leaves the other cases (a value out of range, an
    infinity, NaN) undefined; the conversion instruction of x86-64
    ([cvttsd2si]) returns [INT_MIN] for them, which is what is modelled. *)
Definition static_cast_int (x : D) : Z :=
  match d_trunc x with
  | Some t => if Int.in_rangeb t then t else Int.INT_MIN
  | None => Int.INT_MIN
  end.

(** *** item *)

(** Modelled from the spec: the item header is not part of the sources at
    hand; an item is the immutable value (id, length, quantity, per-unit
    weight) of the data model, read through its getters, with the derived
    total weight [quantity * weight]. *)
Record item : Type := mk_item {
  get_id : Z;
  get_length : Z;
  get_quantity : Z;
  get_weight : D
}.

Definition get_total_weight (i : item) : D :=
  d_mul (d_of_int (get_quantity i)) (get_weight i).

(** *** pack *)

Record pack : Type := mk_pack {
  m_pack_number : Z;
  m_items : list item;
  m_total_items : Z;
  m_total_weight : D;
  m_max_length : Z
}.

(** [pack(int pack_number)] *)
Definition new_pack (pack_number : Z) : pack :=
  {| m_pack_number := pack_number; m_items := [];
     m_total_items := 0; m_total_weight := d_zero; m_max_length := 0 |}.

Definition add_item (p : pack) (i : item) (max_items : Z) (max_weight : D)
  : bool * pack :=
  let new_quantity := Int.add (m_total_items p) (get_quantity i) in
  let new_weight := d_add (m_total_weight p) (get_total_weight i) in
  if (new_quantity <=? max_items) && d_leb new_weight max_weight then
    (true,
     {| m_pack_number := m_pack_number p;
        m_items := m_items p ++ [i];
        m_total_items := new_quantity;
        m_total_weight := new_weight;
        m_max_length := Z.max (m_max_length p) (get_length i) |})
  else (false, p).

Definition add_partial_item (p : pack) (id length quantity : Z) (weight : D)
    (max_items : Z) (max_weight : D) : Z * pack :=
  if (quantity <=? 0) || (max_items <=? 0) || d_ltb max_weight d_zero then (0, p)
  else
    let length := Z.max 1 length in
    let weight := d_max d_zero weight in
    let max_by_items := Int.sub max_items (m_total_items p) in
    let weight_remaining := d_sub max_weight (m_total_weight p) in
    let max_by_weight :=
      if d_eqb weight d_zero then quantity
      else static_cast_int (d_div weight_remaining weight) in
    let safe_max_by_weight := Z.max 0 max_by_weight in
    let can_add := Z.min max_by_items (Z.min safe_max_by_weight quantity) in
    if 0 <? can_add then
      (can_add,
       {| m_pack_number := m_pack_number p;
          m_items := m_items p ++ [mk_item id length can_add weight];
          m_total_items := Int.add (m_total_items p) can_add;
          m_total_weight :=
            d_add (m_total_weight p) (d_mul (d_of_int can_add) weight);
          m_max_length := Z.max (m_max_length p) length |})
    else (can_add, p).

Definition is_full (p : pack) (max_items : Z) (max_weight : D) : bool :=
  (max_items <=? m_total_items p)
  || d_leb (d_sub max_weight d_epsilon) (m_total_weight p).

Definition is_empty (p : pack) : bool :=
  match m_items p with [] => true | _ :: _ => false end.

(** *** The fill loop

    [pack_items] (sequential branch) and [worker_thread] contain the same
    loop; they differ in the two ceilings and in where a new pack number
    comes from.  The loop is written once, over the ceilings and over a
    source of pack numbers: a state [S] and a function [next] that yields
    the next number. *)

Section Fill.

Variable S : Type.
Variable next : S -> Z * S.

(** The vector of packs is never empty inside the loop: it is kept as
    its last element [back] (the current pack) and the elements before
    it.  [ceiling_hit] is a ghost flag: it records that an iteration
    ceiling or a pack-count ceiling ended an item's loop. *)
Record fill_state : Type := mk_fill_state {
  front : list pack;
  back : pack;
  source : S;
  safety_counter : Z;
  ceiling_hit : bool
}.

Definition packs (st : fill_state) : list pack := front st ++ [back st].

Definition size (st : fill_state) : Z := Z.of_nat (List.length (packs st)).

Variables (max_items : Z) (max_weight : D).
Variables (max_iterations max_safe_reserve : Z).

(** [while (remaining_quantity > 0) { ... }] for one item.  [fuel] bounds
    the number of iterations; [iterations_left] is enough of it. *)
Fixpoint fill_while (fuel : nat) (i : item) (remaining_quantity : Z)
    (st : fill_state) : fill_state :=
  match fuel with
  | O => st
  | Datatypes.S fuel' =>
    if remaining_quantity <=? 0 then st
    else
      let counter := Int.add (safety_counter st) 1 in
      if max_iterations <? counter then
        mk_fill_state (front st) (back st) (source st) counter true
      else
        let '(added_quantity, current_pack) :=
          add_partial_item (back st) (get_id i) (get_length i)
            remaining_quantity (get_weight i) max_items max_weight in
        if 0 <? added_quantity then
          fill_while fuel' i (Int.sub remaining_quantity added_quantity)
            (mk_fill_state (front st) current_pack (source st) counter
               (ceiling_hit st))
        else if d_ltb max_weight (get_weight i) then
          mk_fill_state (front st) current_pack (source st) counter
            (ceiling_hit st)
        else if is_empty current_pack then
          mk_fill_state (front st) current_pack (source st) counter
            (ceiling_hit st)
        else if max_safe_reserve <=? size st then
          mk_fill_state (front st) current_pack (source st) counter true
        else
          let '(pack_number, src) := next (source st) in
          fill_while fuel' i remaining_quantity
            (mk_fill_state (front st ++ [current_pack])
               (new_pack pack_number) src counter (ceiling_hit st))
  end.

Definition iterations_left (st : fill_state) : nat :=
  Z.to_nat (max_iterations - Int.add (safety_counter st) 1) + 2.

(** The body of [for (const auto& i : items)]. *)
Definition fill_item (st : fill_state) (i : item) : fill_state :=
  if get_quantity i <=? 0 then st
  else fill_while (iterations_left st) i (get_quantity i) st.

Definition fill_items (items : list item) (st : fill_state) : fill_state :=
  fold_left fill_item items st.

End Fill.

(** *** parallel_pack_strategy *)

Record parallel_pack_strategy : Type := mk_strategy {
  m_num_threads : Z   (* unsigned int *)
}.

(** [parallel_pack_strategy(int thread_count = 4)]; [thread_count] is
    [None] when the argument is left out, [hardware_concurrency] is the
    value of [std::thread::hardware_concurrency()]. *)
Definition construct (thread_count : option Z) (hardware_concurrency : Z)
  : parallel_pack_strategy :=
  let thread_count := match thread_count with Some n => n | None => 4 end in
  let m_num_threads := Int.to_unsigned thread_count in
  if m_num_threads =? 0 then mk_strategy hardware_concurrency
  else mk_strategy m_num_threads.

(** [std::min(32u, std::max(1u, m_num_threads))] *)
Definition clamp_threads (m_num_threads : Z) : Z :=
  Z.min 32 (Z.max 1 m_num_threads).

(** [++pack_number] of the sequential branch. *)
Definition next_local (pack_number : Z) : Z * Z :=
  let pack_number := Int.add pack_number 1 in (pack_number, pack_number).

(** The sequential branch of [pack_items], from [std::vector<pack> packs]
    to the end of the [for] loop; the constraints are already normalized. *)
Definition sequential_fill (items : list item) (max_items : Z) (max_weight : D)
  : fill_state Z :=
  let n := Z.of_nat (List.length items) in
  let max_safe_reserve := Z.min 100000 (n / 10 + 1000) in
  let pack_number := 1 in
  fill_items Z next_local max_items max_weight 1000000 max_safe_reserve items
    (mk_fill_state Z [] (new_pack pack_number) pack_number 0 false).

(** What one worker sees of the shared atomic counter: the value returned
    by its k-th [fetch_add].  The values depend on how the workers
    interleave; a [schedule] fixes them, and the order in which the
    workers take the lock to merge.  In a run of the program every worker
    merges once and the numbers handed out are pairwise distinct; what is
    stated of [pack_items] for every schedule holds for every run, and a
    statement that needs one of the two says so. *)
Record schedule : Type := mk_schedule {
  fetch_add : nat -> nat -> Z;
  merge_order : list nat
}.

Definition next_shared (fetch : nat -> Z) (k : nat) : Z * nat :=
  (fetch k, Datatypes.S k).

(** [items[start_idx .. end_idx)] *)
Definition slice {A : Type} (items : list A) (start_idx end_idx : nat) : list A :=
  firstn (end_idx - start_idx) (skipn start_idx items).

(** The packs a worker builds for [items[start_idx .. end_idx)] before it
    takes the lock. *)
Definition local_packs (fetch : nat -> Z) (items : list item)
    (start_idx end_idx : nat) (max_items : Z) (max_weight : D) : list pack :=
  let max_items := Z.max 1 max_items in
  let max_weight := d_max d_tenth max_weight in
  let max_safe_reserve :=
    Z.min 20000 (Z.of_nat (end_idx - start_idx) / 10 + 500) in
  let pack_number := fetch 0%nat in
  let chunk := slice items start_idx end_idx in
  packs nat
    (fill_items nat (next_shared fetch) max_items max_weight 500000
       max_safe_reserve chunk
       (mk_fill_state nat [] (new_pack pack_number) 1%nat 0 false)).

(** The merge step of [worker_thread], under the lock. *)
Definition merge (items_size : Z) (result_packs local : list pack)
  : list pack :=
  let max_total_packs := Z.min 200000 (items_size / 5 + 10000) in
  let result_size := Z.of_nat (List.length result_packs) in
  if result_size <? max_total_packs then
    result_packs
      ++ firstn (Z.to_nat (Z.min (Z.of_nat (List.length local))
                             (max_total_packs - result_size))) local
  else result_packs.

Definition worker_thread (fetch : nat -> Z) (items : list item)
    (start_idx end_idx : nat) (max_items : Z) (max_weight : D)
    (result_packs : list pack) : list pack :=
  merge (Z.of_nat (List.length items)) result_packs
    (local_packs fetch items start_idx end_idx max_items max_weight).

(** The loop of [pack_items] that starts the threads: the index range
    [(start_idx, end_idx)] of thread [i], of thread [i + 1], ... *)
Fixpoint thread_ranges (chunk_size remainder : nat) (count i start_idx : nat)
  : list (nat * nat) :=
  match count with
  | O => []
  | Datatypes.S count' =>
    let thread_chunk_size :=
      (chunk_size + (if i <? remainder then 1 else 0))%nat in
    let end_idx := (start_idx + thread_chunk_size)%nat in
    (start_idx, end_idx)
      :: thread_ranges chunk_size remainder count' (Datatypes.S i) end_idx
  end.

(** Thread [i] runs to its end (its merge happens when the schedule says). *)
Definition run_thread (sch : schedule) (items : list item)
    (ranges : list (nat * nat)) (max_items : Z) (max_weight : D)
    (result_packs : list pack) (i : nat) : list pack :=
  match nth_error ranges i with
  | Some (start_idx, end_idx) =>
    worker_thread (fetch_add sch i) items start_idx end_idx
      max_items max_weight result_packs
  | None => result_packs
  end.

(** [pack_items]: the strategy after the call (its thread count is
    clamped in place) and the returned vector. *)
Definition pack_items (this : parallel_pack_strategy) (sch : schedule)
    (items : list item) (max_items : Z) (max_weight : D)
  : parallel_pack_strategy * list pack :=
  let max_items := Z.max 1 max_items in
  let max_weight := d_max d_tenth max_weight in
  let m_num_threads := clamp_threads (m_num_threads this) in
  let this := mk_strategy m_num_threads in
  let items_size := List.length items in
  if (Z.of_nat items_size <? 5000) || (m_num_threads =? 1) then
    (this, packs Z (sequential_fill items max_items max_weight))
  else
    let n := Z.to_nat m_num_threads in
    let chunk_size := (items_size / n)%nat in
    let remainder := (items_size mod n)%nat in
    let ranges := thread_ranges chunk_size remainder n 0 0 in
    (this,
     fold_left (run_thread sch items ranges max_items max_weight)
       (merge_order sch) []).

End Engine.

Arguments item D : clear implicits.
Arguments pack D : clear implicits.
Arguments fill_state D S : clear implicits.
Arguments packs {D S} st.
Arguments size {D S} st.
Arguments front {D S} f.
Arguments back {D S} f.
Arguments source {D S} f.
Arguments safety_counter {D S} f.
Arguments ceiling_hit {D S} f.
Arguments mk_fill_state {D S} front back source safety_counter ceiling_hit.
Arguments fill_while {D DD S} next max_items max_weight max_iterations
  max_safe_reserve fuel i remaining_quantity st.
Arguments iterations_left {D S} max_iterations st.
Arguments fill_item {D DD S} next max_items max_weight max_iterations
  max_safe_reserve st i.
Arguments fill_items {D DD S} next max_items max_weight max_iterations
  max_safe_reserve items st.

(** ** The words of the specification *)

Section Specification.

Context {D : Type} {DD : Double D}.

(** The pack after [can_add] units of an item were accepted: one record
    appended, the three aggregates updated. *)
Definition accepted (p : pack D) (id length can_add : Z) (weight : D) : pack D :=
  {| m_pack_number := m_pack_number p;
     m_items :=
       m_items p ++ [mk_item id (Z.max 1 length) can_add (d_max d_zero weight)];
     m_total_items := Int.add (m_total_items p) can_add;
     m_total_weight :=
       d_add (m_total_weight p) (d_mul (d_of_int can_add) (d_max d_zero weight));
     m_max_length := Z.max (m_max_length p) (Z.max 1 length) |}.

(** The guard of [add_partial_item] and the value of its [can_add]. *)
Definition guard (quantity max_items : Z) (max_weight : D) : bool :=
  (quantity <=? 0) || (max_items <=? 0) || d_ltb max_weight d_zero.

Definition can_add (p : pack D) (quantity : Z) (weight : D)
    (max_items : Z) (max_weight : D) : Z :=
  Z.min (Int.sub max_items (m_total_items p))
    (Z.min
       (Z.max 0
          (if d_eqb (d_max d_zero weight) d_zero then quantity
           else static_cast_int
                  (d_div (d_sub max_weight (m_total_weight p))
                     (d_max d_zero weight))))
       quantity).

(** Section 4.1 of the specification, the accepted quantity:
    [room_by_count = max_items - total_items]; [room_by_weight] is the
    requested quantity when the unit weight (floored to at least 0) is 0,
    otherwise [floor ((max_weight - total_weight) / unit_weight)] clamped to
    at least 0; the accepted quantity is the least of [room_by_count],
    [room_by_weight] and the requested quantity.  The floor is the
    mathematical one; it has no value on an infinity or NaN. *)
Definition room_by_count (p : pack D) (max_items : Z) : Z :=
  max_items - m_total_items p.

Definition room_by_weight (p : pack D) (requested_quantity : Z)
    (unit_weight max_weight : D) : option Z :=
  let unit_weight := d_max d_zero unit_weight in
  if d_eqb unit_weight d_zero then Some requested_quantity
  else
    match d_floor (d_div (d_sub max_weight (m_total_weight p)) unit_weight) with
    | Some f => Some (Z.max 0 f)
    | None => None
    end.

Definition accepted_quantity (p : pack D) (requested_quantity : Z)
    (unit_weight : D) (max_items : Z) (max_weight : D) : option Z :=
  match room_by_weight p requested_quantity unit_weight max_weight with
  | Some by_weight =>
    Some (Z.min (room_by_count p max_items) (Z.min by_weight requested_quantity))
  | None => None
  end.

(** The capacity bound on one pack, in the arithmetic of the code. *)
Definition within_count (max_items : Z) (p : pack D) : Prop :=
  0 <= m_total_items p <= max_items.

Definition within_weightb (max_weight : D) (p : pack D) : bool :=
  d_leb (m_total_weight p) (d_add max_weight d_epsilon).

(** The quantity of item [id] held by a list of records, by a list of packs,
    and asked for by a list of input items. *)
Definition quantity_of (id : Z) (records : list (item D)) : Z :=
  fold_right
    (fun r acc => if get_id r =? id then get_quantity r + acc else acc)
    0 records.

Definition packed_quantity (id : Z) (ps : list (pack D)) : Z :=
  fold_right (fun p acc => quantity_of id (m_items p) + acc) 0 ps.

(** The pack numbers 1, 2, ..., n. *)
Definition numbers_from_one (n : nat) : list Z := map Z.of_nat (seq 1 n).

(** Modelled from the spec: the sequential (blocking) strategy is not part
    of the sources at hand.  Section 4.2 of the specification: normalize the
    constraints; create pack 1 as the current pack; for each item in input
    order, skip it when its quantity is not positive, else set
    [remaining = quantity] and, while [remaining > 0], call accept on the
    current pack with [remaining]; when the accepted quantity is positive
    subtract it from [remaining]; when it is 0, drop the rest of an item
    whose unit weight exceeds [max_weight], drop it too when the current
    pack is empty, and otherwise open a new pack with the next sequential
    number and retry.  An iteration counter with ceiling 10^6 over the whole
    run ends the current item's loop when it is exceeded.  The result is the
    list of packs in creation order.  The accept operation is
    [add_partial_item] of the pack; the integers are those of the code
    ([int], with its wrap-around).

    Sections 4.3 and 7 name, among the safety ceilings, ceilings on the
    number of packs that are derived from the input size.  The sources show
    the one of the sequential strategy: the sequential path of both
    implementations says of its safety measures that they are the same
    fixes as in the blocking strategy (the sequential branch of
    [pack_items], and [PackItemsSequential] of the C# port), and both stop
    opening packs, and drop the rest of the item, once the list holds
    [min (100000, item_count / 10 + 1000)] packs.  The strategy is
    modelled with that ceiling, [pack_ceiling]. *)
Record sequential_state : Type := mk_sequential_state {
  closed : list (pack D);
  current : pack D;
  iterations : Z
}.

Definition iteration_ceiling : Z := 1000000.

Definition pack_ceiling (item_count : Z) : Z :=
  Z.min 100000 (item_count / 10 + 1000).

Fixpoint sequential_while (fuel : nat) (max_items : Z) (max_weight : D)
    (max_packs : Z) (i : item D) (remaining : Z) (s : sequential_state)
  : sequential_state :=
  match fuel with
  | O => s
  | Datatypes.S fuel' =>
    if remaining <=? 0 then s
    else
      let n := Int.add (iterations s) 1 in
      if iteration_ceiling <? n then mk_sequential_state (closed s) (current s) n
      else
        let '(accepted, p) :=
          add_partial_item (current s) (get_id i) (get_length i) remaining
            (get_weight i) max_items max_weight in
        if 0 <? accepted then
          sequential_while fuel' max_items max_weight max_packs i
            (Int.sub remaining accepted) (mk_sequential_state (closed s) p n)
        else if d_ltb max_weight (get_weight i) then
          mk_sequential_state (closed s) p n
        else if is_empty p then mk_sequential_state (closed s) p n
        else if max_packs <=? Z.of_nat (List.length (closed s)) + 1 then
          mk_sequential_state (closed s) p n
        else
          sequential_while fuel' max_items max_weight max_packs i remaining
            (mk_sequential_state (closed s ++ [p])
               (new_pack (Int.add (m_pack_number p) 1)) n)
  end.

Definition sequential_item (max_items : Z) (max_weight : D) (max_packs : Z)
    (s : sequential_state) (i : item D) : sequential_state :=
  if get_quantity i <=? 0 then s
  else
    sequential_while
      (Z.to_nat (iteration_ceiling - Int.add (iterations s) 1) + 2)
      max_items max_weight max_packs i (get_quantity i) s.

Definition sequential_strategy (items : list (item D)) (max_items : Z)
    (max_weight : D) : list (pack D) :=
  let max_items := Z.max 1 max_items in
  let max_weight := d_max d_tenth max_weight in
  let max_packs := pack_ceiling (Z.of_nat (List.length items)) in
  let s :=
    fold_left (sequential_item max_items max_weight max_packs) items
      (mk_sequential_state [] (new_pack 1) 0) in
  closed s ++ [current s].

End Specification.

(** The exact value of a finite binary64 number. *)
Definition value (x : float) : option Q :=
  match Prim2SF x with
  | S754_zero _ => Some 0%Q
  | S754_finite s m e =>
    let mag :=
      if 0 <=? e then inject_Z (Z.pos m * 2 ^ e)
      else (Z.pos m # Pos.pow 2 (Z.to_pos (- e)))%Q in
    Some (if s then (- mag)%Q else mag)
  | S754_infinity _ | S754_nan => None
  end.

(** A schedule for the examples: worker [w] is given the numbers
    [1000 w + 1, 1000 w + 2, ...] and the workers merge in index order. *)
Definition example_schedule : schedule :=
  mk_schedule (fun w k => Z.of_nat (1000 * w + k + 1)) (seq 0 32).

(** A pack without records is as it was created. *)
Definition untouched {D : Type} {DD : Double D} (p : pack D) : Prop :=
  m_items p = [] -> p = new_pack (m_pack_number p).

(** The number of iterations the loop of one item can still make: one when
    the next increment of the counter passes the ceiling, else what is left
    up to the ceiling, and the last one that passes it. *)
Definition needed {D S : Type} (max_iterations : Z) (st : fill_state D S) : Z :=
  if max_iterations <? Int.add (safety_counter st) 1 then 1
  else max_iterations - Int.add (safety_counter st) 1 + 2.

(** What the proofs use of the two integral parts: clamped to at least 0,
    the floor and the truncation toward zero agree. *)
Class Truncation (D : Type) {DD : Double D} : Prop := {
  floor_of_trunc :
    forall (x : D) (t : Z),
      d_trunc x = Some t ->
      exists f, d_floor x = Some f /\ Z.max 0 f = Z.max 0 t
}.

(** One item of 45 units of weight 22222222.222222224, to be packed under
    the weight limit 1e9. *)
Definition heavy_load : list (item float) :=
  [mk_item 1 100 45 22222222.222222224%float].

(** The items the in-range statements are about, under the normalized
    weight limit [W]: a positive [int] quantity, a unit weight that does
    not exceed [W] (by the test of the loop) and, where the weight is
    positive, a quotient [W / weight] whose integral part is a number of at
    most [INT_MAX]. *)
Definition packable {D : Type} {DD : Double D} (W : D) (i : item D) : Prop :=
  0 < get_quantity i <= Int.INT_MAX
  /\ d_ltb W (get_weight i) = false
  /\ (d_ltb d_zero (get_weight i) = true ->
      exists t, d_trunc (d_div W (get_weight i)) = Some t /\ t <= Int.INT_MAX).

(** The two items of the first scenario of the specification. *)
Definition two_items : list (item float) :=
  [mk_item 1 100 5 2.5%float; mk_item 2 200 3 4%float].

(** The aggregates of a pack as the data model defines them: the sum of the
    accepted quantities, the sum of quantity times weight (added in the
    order of the records), the greatest length; and every record holds a
    positive quantity and a length of at least 1. *)
Section AggregateDefinitions.

Context {D : Type} {DD : Double D}.

Definition sum_quantities (records : list (item D)) : Z :=
  fold_right (fun r acc => get_quantity r + acc) 0 records.

Definition max_lengths (records : list (item D)) : Z :=
  fold_right (fun r acc => Z.max (get_length r) acc) 0 records.

Definition sum_weights (records : list (item D)) : D :=
  fold_left (fun acc r => d_add acc (d_mul (d_of_int (get_quantity r)) (get_weight r)))
    records d_zero.

Definition consistent (p : pack D) : Prop :=
  m_total_items p = sum_quantities (m_items p)
  /\ m_total_weight p = sum_weights (m_items p)
  /\ m_max_length p = max_lengths (m_items p)
  /\ Forall (fun r => 0 < get_quantity r /\ 1 <= get_length r) (m_items p).

End AggregateDefinitions.

(** The number of items in the chunks of threads [i], [i + 1], ... *)
Fixpoint chunks_length (chunk_size remainder count i : nat) : nat :=
  match count with
  | O => 0
  | Datatypes.S count' =>
    (chunk_size + (if i <? remainder then 1 else 0)
     + chunks_length chunk_size remainder count' (Datatypes.S i))%nat
  end.

(** ** Other members of [pack] *)

Section Members.

Context {D : Type} {DD : Double D}.

(** [add_partial_item(const item&, int, double)]: the call with the item
    taken apart. *)
Definition add_partial_item_of (p : pack D) (i : item D) (max_items : Z)
    (max_weight : D) : Z * pack D :=
  add_partial_item p (get_id i) (get_length i) (get_quantity i) (get_weight i)
    max_items max_weight.

(** [set_pack_number(int)] *)
Definition set_pack_number (p : pack D) (pack_number : Z) : pack D :=
  {| m_pack_number := pack_number;
     m_items := m_items p;
     m_total_items := m_total_items p;
     m_total_weight := m_total_weight p;
     m_max_length := m_max_length p |}.

(** [get_remaining_weight_capacity(double)] and
    [get_remaining_item_capacity(int)]: the differences as the code takes
    them, in [double] and in [int]. *)
Definition get_remaining_weight_capacity (p : pack D) (max_weight : D) : D :=
  d_sub max_weight (m_total_weight p).

Definition get_remaining_item_capacity (p : pack D) (max_items : Z) : Z :=
  Int.sub max_items (m_total_items p).

End Members.

(** ** What the further properties speak about *)

(** The items the loop does not skip. *)
Definition asks {D : Type} (i : item D) : bool := 0 <? get_quantity i.

(** A record [r] made from the item [i]: its id, its length raised to at
    least 1, its weight raised to at least 0, and a positive quantity. *)
Definition recorded_from {D : Type} {DD : Double D} (i r : item D) : Prop :=
  get_id r = get_id i
  /\ get_length r = Z.max 1 (get_length i)
  /\ get_weight r = d_max d_zero (get_weight i)
  /\ 0 < get_quantity r.

(** The quantity the input asks for under [id]: the positive quantities of
    the items with that id. *)
Definition requested_quantity {D : Type} (id : Z) (items : list (item D)) : Z :=
  fold_right
    (fun i acc => if get_id i =? id then Z.max 0 (get_quantity i) + acc else acc)
    0 items.

(** The sum of [f] over a list of workers. *)
Definition sum_over (f : nat -> Z) (l : list nat) : Z :=
  fold_right (fun w acc => f w + acc) 0 l.

(** A schedule in which the counter is handed round: worker [w] of 32 is
    given the numbers [w + 1], [w + 33], [w + 65], ..., and the workers
    merge in index order. *)
Definition round_robin : schedule :=
  mk_schedule (fun w k => Z.of_nat (32 * k + w + 1)) (seq 0 32).

(** The fetches of an atomic counter: no value is handed out twice, to the
    same worker or to two of the workers that run. *)
Definition atomic (sch : schedule) : Prop :=
  forall w k w' k',
    In w (merge_order sch) -> In w' (merge_order sch) ->
    fetch_add sch w k = fetch_add sch w' k' -> w = w' /\ k = k'.

(** A pack without its number. *)
Definition unnumbered {D : Type} {DD : Double D} (p : pack D) : pack D :=
  set_pack_number p 0.

(** Two states of the fill loop that differ in pack numbers and in the
    source of the numbers only. *)
Definition similar {D : Type} {DD : Double D} {S S' : Type}
    (st : fill_state D S) (st' : fill_state D S') : Prop :=
  map unnumbered (front st) = map unnumbered (front st')
  /\ unnumbered (back st) = unnumbered (back st')
  /\ safety_counter st = safety_counter st'
  /\ ceiling_hit st = ceiling_hit st'.

(** The state in which a worker leaves its loop, before it takes the lock:
    [local_packs] is its list of packs. *)
Definition local_state {D : Type} {DD : Double D} (fetch : nat -> Z)
    (items : list (item D)) (start_idx end_idx : nat) (max_items : Z)
    (max_weight : D) : fill_state D nat :=
  fill_items (next_shared fetch) (Z.max 1 max_items) (d_max d_tenth max_weight)
    500000 (Z.min 20000 (Z.of_nat (end_idx - start_idx) / 10 + 500))
    (slice items start_idx end_idx)
    (mk_fill_state [] (new_pack (fetch 0%nat)) 1%nat 0 false).

(** 5000 items of one unit each, of weight 1. *)
Definition many_items : list (item float) :=
  repeat (mk_item 1 100 1 1%float) 5000.

(** The records of a list of packs, read pack by pack. *)
Definition records {D : Type} (ps : list (pack D)) : list (item D) :=
  concat (map m_items ps).

(** [follows items rs]: the records [rs] are made from the items in input
    order, each item giving zero or more consecutive records. *)
Inductive follows {D : Type} {DD : Double D}
  : list (item D) -> list (item D) -> Prop :=
| follows_nil : follows [] []
| follows_skip : forall i items rs,
    follows items rs -> follows (i :: items) rs
| follows_take : forall i items r rs,
    recorded_from i r -> follows (i :: items) rs -> follows (i :: items) (r :: rs).

(** The pack [p] has no room for one more unit of the record [r]:
    [add_partial_item] accepts nothing of it. *)
Definition no_room {D : Type} {DD : Double D} (max_items : Z) (max_weight : D)
    (p : pack D) (r : item D) : Prop :=
  fst (add_partial_item p (get_id r) (get_length r) 1 (get_weight r)
         max_items max_weight) <= 0.

(** Every pack that is followed by another one has no room for the first
    record of its successor. *)
Definition greedy {D : Type} {DD : Double D} (max_items : Z) (max_weight : D)
    (ps : list (pack D)) : Prop :=
  forall before p p' after r rs,
    ps = before ++ p :: p' :: after ->
    m_items p' = r :: rs ->
    no_room max_items max_weight p r.

(** ** The values of binary64 numbers

    What the statements about [binary64] are written with.  A finite
    number of the format is a sign, a mantissa [m] and an exponent [e]
    ([SpecFloat.spec_float]); its magnitude is the rational [m * 2^e]. *)

Definition pow2 (e : Z) : Q := Qpower 2 e.

Definition F2Q (m e : Z) : Q := (inject_Z m * pow2 e)%Q.

(** The exponent the format gives to a number of magnitude below [2^e]
    (53 bits of precision, least exponent -1074), and the pairs of a
    mantissa and an exponent that are numbers of the format. *)
Definition fexp64 (e : Z) : Z := Z.max (e - 53) (-1074).

Definition canonical64 (m e : Z) : Prop := 0 < m /\ e = fexp64 (Zdigits2 m + e).

(** Where a scaled real [y] lies with respect to the integer [m], as the
    rounding functions record it in a [location]: on [m], or strictly
    between [m] and [m + 1]. *)
Definition located (m : Z) (l : location) (y : Q) : Prop :=
  match l with
  | loc_Exact => (y == inject_Z m)%Q
  | loc_Inexact _ => (inject_Z m < y /\ y < inject_Z m + 1)%Q
  end.

(** Zeros, positive numbers and NaN; zeros, negative numbers and NaN. *)
Definition sf_not_negative (x : spec_float) : Prop :=
  match x with
  | S754_finite true _ _ | S754_infinity true => False
  | _ => True
  end.

Definition sf_not_positive (x : spec_float) : Prop :=
  match x with
  | S754_finite false _ _ | S754_infinity false => False
  | _ => True
  end.

(** ** The C# port of the strategy (PackPlanner/ParallelPackStrategy.cs) *)

Module CSharp.

(** [Math.Clamp(value, min, max)] on [int]. *)
Definition Math_Clamp (value min max : Z) : Z :=
  if value <? min then min else if max <? value then max else value.

Record ParallelPackStrategy : Type := mk_ParallelPackStrategy {
  _numThreads : Z
}.

(** [ParallelPackStrategy(int threadCount = 4)]; [ProcessorCount] is the
    value of [Environment.ProcessorCount]. *)
Definition construct (threadCount : option Z) (ProcessorCount : Z)
  : ParallelPackStrategy :=
  let threadCount := match threadCount with Some n => n | None => 4 end in
  let _numThreads := if threadCount =? 0 then ProcessorCount else threadCount in
  mk_ParallelPackStrategy (Math_Clamp _numThreads 1 32).

Section Strategy.

Context {D : Type} {DD : Double D}.

(** [Math.Max(double, double)]: a NaN operand is returned; operands that
    compare equal give the second one, or the first one when the second is
    negative (the sign of a zero, which [Math.Max] looks at in that case,
    is not told apart here: the strategy calls it with 0.1). *)
Definition Math_Max (val1 val2 : D) : D :=
  if negb (d_eqb val1 val2) then
    if d_eqb val1 val1 then (if d_ltb val2 val1 then val1 else val2)
    else val1
  else if d_ltb val2 d_zero then val1 else val2.

(** What the strategy uses of the class [Pack], which is not among the
    sources: the constructor, [AddPartialItem] (the pack it is called on
    is updated in place: it is returned with the quantity) and [IsEmpty]. *)
Class Pack (P : Type) : Type := {
  new_Pack : Z -> P;
  AddPartialItem : P -> Z -> Z -> Z -> D -> Z -> D -> Z * P;
  IsEmpty : P -> bool
}.

Context {P : Type} {PP : Pack P}.

Section Loop.

(** The source of pack numbers: [++packNumber] in [PackItemsSequential],
    [nextPackNumber++] under the lock in [WorkerThread]. *)
Variable S : Type.
Variable next : S -> Z * S.

(** The list of packs is never empty inside the loop: [packs[^1]] is kept
    apart from the packs before it. *)
Record state : Type := mk_state {
  before : list P;
  currentPack : P;
  packNumbers : S;
  safetyCounter : Z
}.

Definition Count (st : state) : Z :=
  Z.of_nat (List.length (before st ++ [currentPack st])).

Variables (maxItems : Z) (maxWeight : D).
Variables (maxIterations maxSafeReserve : Z).

(** [while (remainingQuantity > 0) { ... }] *)
Fixpoint while_loop (fuel : nat) (item : item D) (remainingQuantity : Z)
    (st : state) : state :=
  match fuel with
  | O => st
  | Datatypes.S fuel' =>
    if remainingQuantity <=? 0 then st
    else
      let counter := Int.add (safetyCounter st) 1 in
      if maxIterations <? counter then
        mk_state (before st) (currentPack st) (packNumbers st) counter
      else
        let '(addedQuantity, pack) :=
          AddPartialItem (currentPack st) (get_id item) (get_length item)
            remainingQuantity (get_weight item) maxItems maxWeight in
        if 0 <? addedQuantity then
          while_loop fuel' item (Int.sub remainingQuantity addedQuantity)
            (mk_state (before st) pack (packNumbers st) counter)
        else if d_ltb maxWeight (get_weight item) then
          mk_state (before st) pack (packNumbers st) counter
        else if IsEmpty pack then
          mk_state (before st) pack (packNumbers st) counter
        else if maxSafeReserve <=? Count st then
          mk_state (before st) pack (packNumbers st) counter
        else
          let '(packNumber, numbers) := next (packNumbers st) in
          while_loop fuel' item remainingQuantity
            (mk_state (before st ++ [pack]) (new_Pack packNumber) numbers
               counter)
  end.

(** The body of [foreach (var item in items)]. *)
Definition foreach_item (st : state) (item : item D) : state :=
  if get_quantity item <=? 0 then st
  else
    while_loop (Z.to_nat (maxIterations - Int.add (safetyCounter st) 1) + 2)
      item (get_quantity item) st.

End Loop.

(** [PackItemsSequential] *)
Definition PackItemsSequential (items : list (item D)) (maxItems : Z)
    (maxWeight : D) : list P :=
  let maxItems := Z.max 1 maxItems in
  let maxWeight := Math_Max d_tenth maxWeight in
  let maxSafeReserve :=
    Z.min 100000 (Z.quot (Z.of_nat (List.length items)) 10 + 1000) in
  let packNumber := 1 in
  let st :=
    fold_left
      (foreach_item Z next_local maxItems maxWeight 1000000 maxSafeReserve)
      items (mk_state Z [] (new_Pack packNumber) packNumber 0) in
  before Z st ++ [currentPack Z st].

(** The packs [WorkerThread] builds for [items[startIdx .. endIdx)]. *)
Definition localPacks (fetch : nat -> Z) (items : list (item D))
    (startIdx endIdx : nat) (maxItems : Z) (maxWeight : D) : list P :=
  let maxItems := Z.max 1 maxItems in
  let maxWeight := Math_Max d_tenth maxWeight in
  let maxSafeReserve :=
    Z.min 20000 (Z.quot (Z.of_nat endIdx - Z.of_nat startIdx) 10 + 500) in
  let st :=
    fold_left
      (foreach_item nat (next_shared fetch) maxItems maxWeight 500000
         maxSafeReserve)
      (slice items startIdx endIdx)
      (mk_state nat [] (new_Pack (fetch 0%nat)) 1%nat 0) in
  before nat st ++ [currentPack nat st].

(** [foreach (var pack in localPacks)] with its [break]; [resultPacks] is
    the bag, in the order in which the packs were added. *)
Fixpoint add_packs (maxTotalPacks : Z) (localPacks : list P) (packsToAdd : Z)
    (resultPacks : list P) : list P :=
  match localPacks with
  | [] => resultPacks
  | pack :: rest =>
    if maxTotalPacks <=? packsToAdd then resultPacks
    else add_packs maxTotalPacks rest (Int.add packsToAdd 1)
           (resultPacks ++ [pack])
  end.

(** [WorkerThread]: the bag after the worker has added its packs. *)
Definition WorkerThread (fetch : nat -> Z) (items : list (item D))
    (startIdx endIdx : nat) (maxItems : Z) (maxWeight : D)
    (resultPacks : list P) : list P :=
  let maxTotalPacks :=
    Z.min 200000 (Z.quot (Z.of_nat (List.length items)) 5 + 10000) in
  add_packs maxTotalPacks
    (localPacks fetch items startIdx endIdx maxItems maxWeight) 0 resultPacks.

End Strategy.

(** The C++ pack seen through the C# interface. *)
#[global] Instance pack_of_the_engine {D : Type} {DD : Double D}
  : Pack (D := D) (pack D) := {|
  new_Pack := new_pack;
  AddPartialItem := add_partial_item;
  IsEmpty := is_empty
|}.

End CSharp.

(** * Properties *)

(** ** [int] arithmetic *)

Lemma wrap_in_range (z : Z) : Int.in_range z -> Int.wrap z = z.
Proof.
  unfold Int.in_range, Int.INT_MIN, Int.INT_MAX, Int.wrap. intros H.
  rewrite Z.mod_small by lia. lia.
Qed.

Lemma wrap_range (z : Z) : Int.in_range (Int.wrap z).
Proof.
  unfold Int.in_range, Int.INT_MIN, Int.INT_MAX, Int.wrap.
  pose proof (Z.mod_pos_bound (z + 2147483648) 4294967296). lia.
Qed.

Lemma in_rangeb_spec (z : Z) : Int.in_rangeb z = true <-> Int.in_range z.
Proof.
  unfold Int.in_rangeb, Int.in_range.
  rewrite andb_true_iff, !Z.leb_le. tauto.
Qed.

Lemma add_in_range (a b : Z) : Int.in_range (a + b) -> Int.add a b = a + b.
Proof. apply wrap_in_range. Qed.

Lemma sub_in_range (a b : Z) : Int.in_range (a - b) -> Int.sub a b = a - b.
Proof. apply wrap_in_range. Qed.

(** ** The acceptance protocol of [pack] *)

Section Acceptance.

Context {D : Type} {DD : Double D}.

Lemma add_partial_item_unfold (p : pack D) id length quantity weight max_items
    max_weight :
  add_partial_item p id length quantity weight max_items max_weight =
    if guard quantity max_items max_weight then (0, p)
    else
      let n := can_add p quantity weight max_items max_weight in
      if 0 <? n then (n, accepted p id length n weight) else (n, p).
Proof. reflexivity. Qed.

(** Either nothing is accepted and the pack is the same, or a positive
    quantity is, and it is [can_add]. *)
Lemma add_partial_item_cases (p : pack D) id length quantity weight max_items
    max_weight :
  let r := add_partial_item p id length quantity weight max_items max_weight in
  (fst r <= 0 /\ snd r = p)
  \/ (0 < fst r
      /\ guard quantity max_items max_weight = false
      /\ fst r = can_add p quantity weight max_items max_weight
      /\ snd r = accepted p id length (fst r) weight).
Proof.
  cbv zeta. rewrite add_partial_item_unfold.
  destruct (guard quantity max_items max_weight) eqn:G.
  - left. simpl. split; [lia | reflexivity].
  - cbv zeta.
    destruct (0 <? can_add p quantity weight max_items max_weight) eqn:C.
    + right. apply Z.ltb_lt in C. simpl. auto.
    + left. apply Z.ltb_ge in C. simpl. auto.
Qed.

Lemma guard_true_iff quantity max_items (max_weight : D) :
  guard quantity max_items max_weight = true
  <-> quantity <= 0 \/ max_items <= 0 \/ d_ltb max_weight d_zero = true.
Proof.
  unfold guard. rewrite !orb_true_iff, !Z.leb_le. tauto.
Qed.

Lemma guard_false quantity max_items (max_weight : D) :
  guard quantity max_items max_weight = false ->
  0 < quantity /\ 0 < max_items /\ d_ltb max_weight d_zero = false.
Proof.
  unfold guard. rewrite !orb_false_iff, !Z.leb_gt. tauto.
Qed.

Lemma d_max_idempotent (a b : D) : d_max a (d_max a b) = d_max a b.
Proof.
  unfold d_max. destruct (d_ltb a b) eqn:E; [rewrite E; reflexivity|].
  destruct (d_ltb a a); reflexivity.
Qed.

(** C4.  [add_partial_item] is a total function (it cannot raise).  It
    returns 0 and the same pack when the requested quantity is not
    positive, when [max_items] is not positive and when [max_weight] is
    negative; and whenever it returns 0, for whatever reason, the pack it
    leaves is the pack it was given: no record appended, the three
    aggregates as before. *)
Theorem add_partial_item_defensive
    (p : pack D) (id length quantity : Z) (weight : D)
    (max_items : Z) (max_weight : D) :
  (quantity <= 0 \/ max_items <= 0 \/ d_ltb max_weight d_zero = true ->
     add_partial_item p id length quantity weight max_items max_weight = (0, p))
  /\ (fst (add_partial_item p id length quantity weight max_items max_weight) = 0 ->
      snd (add_partial_item p id length quantity weight max_items max_weight) = p).
Proof.
  split.
  - intros H. apply guard_true_iff in H.
    rewrite add_partial_item_unfold, H. reflexivity.
  - intros H.
    destruct (add_partial_item_cases p id length quantity weight max_items max_weight)
      as [[_ E] | [L _]]; [exact E | lia].
Qed.

End Acceptance.

(** C10.  [add_item] is not all or nothing where the count overflows.  A
    pack that holds 1 unit is given an item of 2147483647 units (of weight
    0) under [max_items = 10] and [max_weight = 25]: the sum of the two
    quantities, 2147483648, is above [max_items], the weight is within
    [max_weight], and [add_item] returns true.  The sum is computed in
    [int], where it wraps around to -2147483648, and that passes the test
    [new_quantity <= max_items]; the pack is left with the item appended
    and a total of -2147483648 items. *)
Theorem add_item_accepts_past_int_overflow :
  let p := snd (add_partial_item (new_pack 1) 1 100 1 1%float 10 25%float) in
  let i := mk_item 2 100 2147483647 0%float in
  m_total_items p = 1
  /\ 10 < m_total_items p + get_quantity i
  /\ d_leb (d_add (m_total_weight p) (get_total_weight i)) 25%float = true
  /\ fst (add_item p i 10 25%float) = true
  /\ m_total_items (snd (add_item p i 10 25%float)) = -2147483648
  /\ m_items (snd (add_item p i 10 25%float)) = m_items p ++ [i].
Proof. cbv zeta. repeat split; vm_compute; reflexivity. Qed.

(** ** Invariants of the fill loop *)

(** One turn of the loop. *)
Lemma fill_while_unfold {D : Type} {DD : Double D} {S : Type}
    (next : S -> Z * S) (max_items : Z) (max_weight : D)
    (max_iterations max_safe_reserve : Z) (fuel : nat) (i : item D) (q : Z)
    (st : fill_state D S) :
  fill_while next max_items max_weight max_iterations max_safe_reserve
    (Datatypes.S fuel) i q st
  = if q <=? 0 then st
    else
      let counter := Int.add (safety_counter st) 1 in
      if max_iterations <? counter then
        mk_fill_state (front st) (back st) (source st) counter true
      else
        let '(added_quantity, current_pack) :=
          add_partial_item (back st) (get_id i) (get_length i) q
            (get_weight i) max_items max_weight in
        if 0 <? added_quantity then
          fill_while next max_items max_weight max_iterations max_safe_reserve
            fuel i (Int.sub q added_quantity)
            (mk_fill_state (front st) current_pack (source st) counter
               (ceiling_hit st))
        else if d_ltb max_weight (get_weight i) then
          mk_fill_state (front st) current_pack (source st) counter
            (ceiling_hit st)
        else if is_empty current_pack then
          mk_fill_state (front st) current_pack (source st) counter
            (ceiling_hit st)
        else if max_safe_reserve <=? size st then
          mk_fill_state (front st) current_pack (source st) counter true
        else
          let '(pack_number, src) := next (source st) in
          fill_while next max_items max_weight max_iterations max_safe_reserve
            fuel i q
            (mk_fill_state (front st ++ [current_pack])
               (new_pack pack_number) src counter (ceiling_hit st)).
Proof. reflexivity. Qed.

Section FillInvariant.

Context {D : Type} {DD : Double D} {S : Type}.
Variable next : S -> Z * S.
Variables (max_items : Z) (max_weight : D).
Variables (max_iterations max_safe_reserve : Z).

(** A property [P] of the packs before the current one, the current pack
    and the number source; [ok] singles out the items the run is given. *)
Variable P : list (pack D) -> pack D -> S -> Prop.
Variable ok : item D -> Prop.

Hypothesis P_accept :
  forall i fr p src q,
    ok i -> P fr p src -> 0 < q ->
    0 < fst (add_partial_item p (get_id i) (get_length i) q (get_weight i)
               max_items max_weight) ->
    P fr
      (snd (add_partial_item p (get_id i) (get_length i) q (get_weight i)
              max_items max_weight))
      src.

Hypothesis P_new_pack :
  forall fr p src,
    P fr p src ->
    Z.of_nat (List.length (fr ++ [p])) < max_safe_reserve ->
    is_empty p = false ->
    P (fr ++ [p]) (new_pack (fst (next src))) (snd (next src)).

#[local] Abbreviation holds st := (P (front st) (back st) (source st)).

Lemma fill_while_invariant (i : item D) :
  ok i ->
  forall fuel q st,
    holds st ->
    holds (fill_while next max_items max_weight max_iterations
             max_safe_reserve fuel i q st).
Proof.
  intros Hi. induction fuel as [|fuel IH]; intros q st H; simpl; [exact H|].
  destruct (q <=? 0) eqn:Q; [exact H|]. apply Z.leb_gt in Q.
  destruct (max_iterations <? Int.add (safety_counter st) 1); [exact H|].
  pose proof (add_partial_item_cases (back st) (get_id i) (get_length i) q
                (get_weight i) max_items max_weight) as C.
  pose proof (P_accept i (front st) (back st) (source st) q Hi H Q) as A.
  destruct (add_partial_item (back st) (get_id i) (get_length i) q
              (get_weight i) max_items max_weight) as [a cp].
  cbv zeta in C. simpl in C, A.
  destruct (0 <? a) eqn:E.
  - apply Z.ltb_lt in E. apply IH. simpl. auto.
  - apply Z.ltb_ge in E.
    destruct C as [[_ C] | [C _]]; [subst cp | lia].
    destruct (d_ltb max_weight (get_weight i)); [exact H|].
    destruct (is_empty (back st)) eqn:Em; [exact H|].
    destruct (max_safe_reserve <=? size st) eqn:R; [exact H|].
    apply Z.leb_gt in R.
    destruct (next (source st)) as [n src] eqn:N.
    apply IH. simpl.
    pose proof (P_new_pack (front st) (back st) (source st) H R Em) as P'.
    rewrite N in P'. exact P'.
Qed.

Lemma fill_items_invariant (items : list (item D)) :
  (forall i, In i items -> ok i) ->
  forall st,
    holds st ->
    holds (fill_items next max_items max_weight max_iterations
             max_safe_reserve items st).
Proof.
  unfold fill_items.
  induction items as [|i items IH]; intros Hok st H; simpl; [exact H|].
  apply IH; [intros j Hj; apply Hok; right; exact Hj|].
  unfold fill_item. destruct (get_quantity i <=? 0); [exact H|].
  apply fill_while_invariant; [apply Hok; left; reflexivity | exact H].
Qed.

End FillInvariant.

(** ** Properties that hold pack by pack *)

Section Packwise.

Context {D : Type} {DD : Double D}.

(** [Q] holds of every fresh pack and survives every acceptance made under
    the normalized constraints, for the items singled out by [ok]. *)
Variable Q : pack D -> Prop.
Variable ok : item D -> Prop.
Variables (max_items : Z) (max_weight : D).

Hypothesis Q_new_pack : forall n, Q (new_pack n).

Hypothesis Q_accept :
  forall i p q,
    ok i -> Q p -> 0 < q ->
    0 < fst (add_partial_item p (get_id i) (get_length i) q (get_weight i)
               (Z.max 1 max_items) (d_max d_tenth max_weight)) ->
    Q (snd (add_partial_item p (get_id i) (get_length i) q (get_weight i)
              (Z.max 1 max_items) (d_max d_tenth max_weight))).

Lemma fill_items_packwise {S : Type} (next : S -> Z * S)
    (max_iterations max_safe_reserve : Z) (items : list (item D))
    (st : fill_state D S) :
  (forall i, In i items -> ok i) ->
  Forall Q (packs st) ->
  Forall Q
    (packs
       (fill_items next (Z.max 1 max_items) (d_max d_tenth max_weight)
          max_iterations max_safe_reserve items st)).
Proof.
  intros Hok H. unfold packs in *.
  apply (fill_items_invariant next (Z.max 1 max_items)
           (d_max d_tenth max_weight) max_iterations max_safe_reserve
           (fun fr p _ => Forall Q (fr ++ [p])) ok); auto.
  - intros i fr p src q Hi F Hq Hpos.
    apply Forall_app in F. destruct F as [F1 F2].
    apply Forall_app. split; [exact F1|].
    constructor; [|constructor]. inversion F2; subst.
    apply Q_accept; auto.
  - intros fr p src F _ _. apply Forall_app. split; [exact F|].
    constructor; [apply Q_new_pack | constructor].
Qed.

Lemma sequential_fill_packwise (items : list (item D)) :
  (forall i, In i items -> ok i) ->
  Forall Q
    (packs (sequential_fill items (Z.max 1 max_items) (d_max d_tenth max_weight))).
Proof.
  intros Hok. unfold sequential_fill. apply fill_items_packwise; auto.
  unfold packs. simpl. constructor; [apply Q_new_pack | constructor].
Qed.

Lemma Forall_firstn_of (n : nat) (l : list (pack D)) :
  Forall Q l -> Forall Q (firstn n l).
Proof.
  intros H. rewrite <- (firstn_skipn n l) in H.
  apply Forall_app in H. tauto.
Qed.

Lemma in_chunk (a n : nat) (l : list (item D)) (i : item D) :
  In i (firstn n (skipn a l)) -> In i l.
Proof.
  intros H. rewrite <- (firstn_skipn a l). apply in_or_app. right.
  rewrite <- (firstn_skipn n (skipn a l)). apply in_or_app. left. exact H.
Qed.

Lemma local_packs_packwise (fetch : nat -> Z) (items : list (item D))
    (start_idx end_idx : nat) :
  (forall i, In i items -> ok i) ->
  Forall Q
    (local_packs fetch items start_idx end_idx (Z.max 1 max_items)
       (d_max d_tenth max_weight)).
Proof.
  intros Hok. unfold local_packs.
  rewrite d_max_idempotent, Z.max_assoc, Z.max_id.
  apply fill_items_packwise.
  - intros i Hi. apply Hok. unfold slice in Hi. exact (in_chunk _ _ _ _ Hi).
  - unfold packs. simpl. constructor; [apply Q_new_pack | constructor].
Qed.

(** Every pack [pack_items] returns, from the sequential branch or from a
    worker's chunk, satisfies [Q]. *)
Lemma pack_items_packwise (this : parallel_pack_strategy) (sch : schedule)
    (items : list (item D)) :
  (forall i, In i items -> ok i) ->
  Forall Q (snd (pack_items this sch items max_items max_weight)).
Proof.
  intros Hok. unfold pack_items.
  destruct ((Z.of_nat (List.length items) <? 5000)
            || (clamp_threads (m_num_threads this) =? 1)); simpl.
  - apply sequential_fill_packwise. exact Hok.
  - set (ranges := thread_ranges _ _ _ _ _).
    assert (G : forall order acc, Forall Q acc ->
              Forall Q (fold_left
                          (run_thread sch items ranges (Z.max 1 max_items)
                             (d_max d_tenth max_weight)) order acc)).
    { induction order as [|w order IH]; intros acc Hacc; simpl; [exact Hacc|].
      apply IH. unfold run_thread.
      destruct (nth_error ranges w) as [[a b]|]; [|exact Hacc].
      unfold worker_thread, merge.
      destruct (Z.of_nat (List.length acc) <? _); [|exact Hacc].
      apply Forall_app. split; [exact Hacc|].
      apply Forall_firstn_of. apply local_packs_packwise. exact Hok. }
    apply G. constructor.
Qed.

End Packwise.

(** ** Binary64 arithmetic

    What the proofs for [binary64] need of its operations: a quotient of a
    positive number by a greater one is below 1 and by a smaller one at
    least 1, a difference [a - b] of positive numbers is at most [a], and
    sums and products of numbers that are not negative are not negative.
    The facts are derived from the specification of the format in the
    standard library: the operations on [SpecFloat.spec_float] (rounding to
    nearest, ties to even), which the primitive operations on [float]
    follow ([FloatAxioms]). *)

(** *** Powers of two and numbers of digits *)

Lemma pow2_pos (e : Z) : (0 < pow2 e)%Q.
Proof. apply Qpower_0_lt. reflexivity. Qed.

Lemma pow2_add (a b : Z) : (pow2 (a + b) == pow2 a * pow2 b)%Q.
Proof. apply Qpower_plus. intro H. discriminate H. Qed.

Lemma pow2_Z (n : Z) : 0 <= n -> (pow2 n == inject_Z (2 ^ n))%Q.
Proof. intro H. symmetry. apply (Zpower_Qpower 2 n H). Qed.

Lemma pow2_le (a b : Z) : a <= b -> (pow2 a <= pow2 b)%Q.
Proof. intro H. apply Qpower_le_compat_l; [exact H | discriminate]. Qed.

Lemma pow2_cancel (a : Z) : (pow2 a * pow2 (- a) == 1)%Q.
Proof. rewrite <- pow2_add. replace (a + - a) with 0 by lia. reflexivity. Qed.

Lemma fexp64_eq (e : Z) : fexp prec emax e = fexp64 e.
Proof. reflexivity. Qed.

Lemma fexp64_mono (a b : Z) : a <= b -> fexp64 a <= fexp64 b.
Proof. unfold fexp64. lia. Qed.

Lemma F2Q_shift (m e k : Z) : 0 <= k -> (F2Q (m * 2 ^ k) (e - k) == F2Q m e)%Q.
Proof.
  intro H. unfold F2Q. rewrite inject_Z_mult, <- (pow2_Z k H).
  replace e with ((e - k) + k) at 2 by lia. rewrite (pow2_add (e - k) k). ring.
Qed.

Lemma F2Q_le (a b e : Z) : a <= b -> (F2Q a e <= F2Q b e)%Q.
Proof.
  intro H. unfold F2Q. apply Qmult_le_compat_r.
  - rewrite <- Zle_Qle. exact H.
  - apply Qlt_le_weak, pow2_pos.
Qed.

Lemma F2Q_scaled (m e : Z) : (F2Q m e * pow2 (- e) == inject_Z m)%Q.
Proof.
  unfold F2Q. rewrite <- Qmult_assoc, pow2_cancel. ring.
Qed.

Lemma scaled_le (x y : Q) (e : Z) : (x <= y)%Q -> (x * pow2 (- e) <= y * pow2 (- e))%Q.
Proof. intro H. apply Qmult_le_compat_r; [exact H | apply Qlt_le_weak, pow2_pos]. Qed.

Lemma unscaled (x : Q) (e : Z) : (x * pow2 (- e) * pow2 e == x)%Q.
Proof.
  rewrite <- Qmult_assoc. rewrite (Qmult_comm (pow2 (- e))), pow2_cancel. ring.
Qed.

Lemma digits2_bounds (p : positive) :
  2 ^ (Z.pos (digits2_pos p) - 1) <= Z.pos p < 2 ^ Z.pos (digits2_pos p).
Proof.
  induction p as [p IH | p IH |]; cbn [digits2_pos].
  - rewrite Pos2Z.inj_succ. replace (Z.succ (Z.pos (digits2_pos p)) - 1) with (Z.succ (Z.pos (digits2_pos p) - 1)) by lia.
    rewrite !Z.pow_succ_r by lia. lia.
  - rewrite Pos2Z.inj_succ. replace (Z.succ (Z.pos (digits2_pos p)) - 1) with (Z.succ (Z.pos (digits2_pos p) - 1)) by lia.
    rewrite !Z.pow_succ_r by lia. lia.
  - simpl. lia.
Qed.

Lemma Zdigits2_bounds (m : Z) : 0 < m ->
  2 ^ (Zdigits2 m - 1) <= m < 2 ^ Zdigits2 m.
Proof.
  destruct m as [|p|p]; try lia. intros _. exact (digits2_bounds p).
Qed.

Lemma Zdigits2_pos (m : Z) : 0 < m -> 0 < Zdigits2 m.
Proof. destruct m; simpl; lia. Qed.

Lemma Zdigits2_nonneg (m : Z) : 0 <= Zdigits2 m.
Proof. destruct m; simpl; lia. Qed.

Lemma Zdigits2_unique (m d : Z) :
  0 < m -> 2 ^ (d - 1) <= m < 2 ^ d -> Zdigits2 m = d.
Proof.
  intros Hm [H1 H2]. pose proof (Zdigits2_bounds m Hm) as [B1 B2].
  pose proof (Zdigits2_pos m Hm) as Hp.
  assert (0 < d).
  { destruct (Z_lt_le_dec 0 d) as [|Hd]; [assumption|].
    exfalso. destruct (Z.eq_dec d 0) as [->|]; [simpl in H2; lia|].
    rewrite (Z.pow_neg_r 2 d) in H2 by lia. lia. }
  destruct (Z_lt_le_dec (Zdigits2 m) d) as [L|L].
  - assert (2 ^ Zdigits2 m <= 2 ^ (d - 1)) by (apply Z.pow_le_mono_r; lia). lia.
  - destruct (Z.eq_dec (Zdigits2 m) d) as [E|N]; [exact E|].
    assert (2 ^ d <= 2 ^ (Zdigits2 m - 1)) by (apply Z.pow_le_mono_r; lia). lia.
Qed.

Lemma Zdigits2_div (m n : Z) :
  0 < m -> 0 <= n < Zdigits2 m -> 0 < m / 2 ^ n /\ Zdigits2 (m / 2 ^ n) = Zdigits2 m - n.
Proof.
  intros Hm Hn. pose proof (Zdigits2_bounds m Hm) as [B1 B2].
  assert (P : 0 < 2 ^ n) by (apply Z.pow_pos_nonneg; lia).
  assert (L : 2 ^ (Zdigits2 m - n - 1) <= m / 2 ^ n).
  { apply Z.div_le_lower_bound; [exact P|].
    rewrite <- Z.pow_add_r by lia. replace (n + (Zdigits2 m - n - 1)) with (Zdigits2 m - 1) by lia.
    exact B1. }
  assert (U : m / 2 ^ n < 2 ^ (Zdigits2 m - n)).
  { apply Z.div_lt_upper_bound; [exact P|].
    rewrite <- Z.pow_add_r by lia. replace (n + (Zdigits2 m - n)) with (Zdigits2 m) by lia.
    exact B2. }
  assert (0 < 2 ^ (Zdigits2 m - n - 1)) by (apply Z.pow_pos_nonneg; lia).
  split; [lia|]. apply Zdigits2_unique; [lia|]. split; assumption.
Qed.

Lemma Zdigits2_div_zero (m n : Z) :
  0 <= m -> Zdigits2 m <= n -> m / 2 ^ n = 0.
Proof.
  intros Hm Hn. destruct (Z.eq_dec m 0) as [->|N].
  - apply Z.div_0_l. apply Z.pow_nonzero; [lia | pose proof (Zdigits2_nonneg 0); simpl in *; lia].
  - pose proof (Zdigits2_bounds m ltac:(lia)) as [B1 B2].
    pose proof (Zdigits2_nonneg m).
    apply Z.div_small. split; [lia|].
    assert (2 ^ Zdigits2 m <= 2 ^ n) by (apply Z.pow_le_mono_r; lia). lia.
Qed.

Lemma Zdigits2_succ (m : Z) : 0 < m ->
  Zdigits2 (m + 1) = Zdigits2 m
  \/ (m + 1 = 2 ^ Zdigits2 m /\ Zdigits2 (m + 1) = Zdigits2 m + 1).
Proof.
  intro Hm. pose proof (Zdigits2_bounds m Hm) as [B1 B2].
  pose proof (Zdigits2_pos m Hm) as Hp.
  destruct (Z.eq_dec (m + 1) (2 ^ Zdigits2 m)) as [E|N].
  - right. split; [exact E|]. apply Zdigits2_unique; [lia|].
    replace (Zdigits2 m + 1 - 1) with (Zdigits2 m) by lia.
    rewrite Z.pow_add_r by lia. simpl (2 ^ 1). lia.
  - left. apply Zdigits2_unique; [lia|]. lia.
Qed.

(** The magnitude of a number, between two powers of two. *)
Lemma F2Q_lt_pow2 (m e : Z) : 0 < m -> (F2Q m e < pow2 (Zdigits2 m + e))%Q.
Proof.
  intro Hm. pose proof (Zdigits2_bounds m Hm) as [_ B]. pose proof (Zdigits2_pos m Hm).
  unfold F2Q. rewrite pow2_add. apply Qmult_lt_compat_r; [apply pow2_pos|].
  rewrite pow2_Z by lia. rewrite <- Zlt_Qlt. exact B.
Qed.

Lemma pow2_le_F2Q (m e : Z) : 0 < m -> (pow2 (Zdigits2 m - 1 + e) <= F2Q m e)%Q.
Proof.
  intro Hm. pose proof (Zdigits2_bounds m Hm) as [B _]. pose proof (Zdigits2_pos m Hm).
  unfold F2Q. rewrite pow2_add. apply Qmult_le_compat_r; [|apply Qlt_le_weak, pow2_pos].
  rewrite pow2_Z by lia. rewrite <- Zle_Qle. exact B.
Qed.

Lemma magnitude_le (m1 e1 m2 e2 : Z) :
  0 < m1 -> 0 < m2 -> (F2Q m1 e1 <= F2Q m2 e2)%Q ->
  Zdigits2 m1 + e1 <= Zdigits2 m2 + e2.
Proof.
  intros H1 H2 L.
  destruct (Z_lt_le_dec (Zdigits2 m2 + e2) (Zdigits2 m1 + e1)) as [C|]; [|lia].
  exfalso.
  pose proof (F2Q_lt_pow2 m2 e2 H2) as A.
  pose proof (pow2_le_F2Q m1 e1 H1) as B.
  assert (pow2 (Zdigits2 m2 + e2) <= pow2 (Zdigits2 m1 - 1 + e1))%Q by (apply pow2_le; lia).
  lra.
Qed.

(** *** Shifting a mantissa to the right *)

Lemma located_ext (m : Z) (l : location) (y y' : Q) :
  (y == y')%Q -> located m l y -> located m l y'.
Proof.
  intros E H. destruct l; simpl in *.
  - rewrite <- E. exact H.
  - rewrite <- E. exact H.
Qed.

Lemma located_record (m : Z) (l : location) (y : Q) :
  located m l y ->
  located (shr_m (shr_record_of_loc m l))
    (loc_of_shr_record (shr_record_of_loc m l)) y.
Proof. destruct l as [|[| |]]; simpl; tauto. Qed.

Lemma shr_m_record (m : Z) (l : location) : shr_m (shr_record_of_loc m l) = m.
Proof. destruct l as [|[| |]]; reflexivity. Qed.

Lemma located_lower (m : Z) (l : location) (y : Q) :
  located m l y -> (inject_Z m <= y)%Q.
Proof. destruct l; simpl; intro H; [rewrite H; apply Qle_refl | lra]. Qed.

Lemma located_upper (m : Z) (l : location) (y : Q) :
  located m l y -> (y < inject_Z m + 1)%Q.
Proof. destruct l; simpl; intro H; [rewrite H | ]; lra. Qed.

Lemma inject_xI (p : positive) : (inject_Z (Z.pos p~1) == 2 * inject_Z (Z.pos p) + 1)%Q.
Proof. rewrite Pos2Z.inj_xI, inject_Z_plus, inject_Z_mult. reflexivity. Qed.

Lemma inject_xO (p : positive) : (inject_Z (Z.pos p~0) == 2 * inject_Z (Z.pos p))%Q.
Proof. rewrite Pos2Z.inj_xO, inject_Z_mult. reflexivity. Qed.

Lemma shr_1_located (mrs : shr_record) (y : Q) :
  0 <= shr_m mrs -> located (shr_m mrs) (loc_of_shr_record mrs) y ->
  shr_m (shr_1 mrs) = shr_m mrs / 2 /\
  located (shr_m (shr_1 mrs)) (loc_of_shr_record (shr_1 mrs)) (y * (1 # 2)).
Proof.
  destruct mrs as [m r s]. cbn [shr_m]. intros Hm H.
  destruct m as [|[p|p|]|]; [| | | |lia].
  - split; [reflexivity|].
    destruct r, s; cbn [shr_1 shr_m loc_of_shr_record located orb] in *;
      change (inject_Z 0) with 0%Q in *; lra.
  - split; [cbn [shr_1 shr_m]; rewrite Pos2Z.inj_xI; Z.div_mod_to_equations; lia|].
    pose proof (inject_xI p) as E.
    destruct r, s; cbn [shr_1 shr_m loc_of_shr_record located orb] in *; lra.
  - split; [cbn [shr_1 shr_m]; rewrite Pos2Z.inj_xO; Z.div_mod_to_equations; lia|].
    pose proof (inject_xO p) as E.
    destruct r, s; cbn [shr_1 shr_m loc_of_shr_record located orb] in *; lra.
  - split; [reflexivity|].
    destruct r, s; cbn [shr_1 shr_m loc_of_shr_record located orb] in *;
      change (inject_Z 1) with 1%Q in *; change (inject_Z 0) with 0%Q; lra.
Qed.

Lemma pow2_opp_pos (p : positive) :
  (pow2 (- Z.pos p~0) == pow2 (- Z.pos p) * pow2 (- Z.pos p))%Q
  /\ (pow2 (- Z.pos p~1) == (1 # 2) * (pow2 (- Z.pos p) * pow2 (- Z.pos p)))%Q.
Proof.
  split.
  - rewrite <- pow2_add. replace (- Z.pos p + - Z.pos p) with (- Z.pos p~0) by lia. reflexivity.
  - rewrite <- pow2_add. change (1 # 2)%Q with (pow2 (-1)). rewrite <- pow2_add.
    replace (-1 + (- Z.pos p + - Z.pos p)) with (- Z.pos p~1) by lia. reflexivity.
Qed.

Lemma iter_pos_shr_1 (p : positive) : forall (mrs : shr_record) (y : Q),
  0 <= shr_m mrs -> located (shr_m mrs) (loc_of_shr_record mrs) y ->
  shr_m (iter_pos shr_1 p mrs) = shr_m mrs / 2 ^ Z.pos p /\
  located (shr_m (iter_pos shr_1 p mrs))
    (loc_of_shr_record (iter_pos shr_1 p mrs)) (y * pow2 (- Z.pos p)).
Proof.
  induction p as [p IH | p IH |]; intros mrs y Hm H; cbn [iter_pos].
  - destruct (shr_1_located mrs y Hm H) as [E1 L1].
    assert (P1 : 0 <= shr_m (shr_1 mrs)) by (rewrite E1; Z.div_mod_to_equations; lia).
    destruct (IH _ _ P1 L1) as [E2 L2].
    assert (P2 : 0 <= shr_m (iter_pos shr_1 p (shr_1 mrs))).
    { rewrite E2. apply Z.div_pos; [lia|]. apply Z.pow_pos_nonneg; lia. }
    destruct (IH _ _ P2 L2) as [E3 L3].
    split.
    + rewrite E3, E2, E1.
      rewrite !Z.div_div by (try apply Z.pow_pos_nonneg; try apply Z.pow_nonzero; lia).
      f_equal. assert (X : Z.pos p~1 = 1 + Z.pos p + Z.pos p) by lia.
      rewrite X, !Z.pow_add_r by lia. change (2 ^ 1) with 2. set (a := 2 ^ Z.pos p). ring.
    + eapply located_ext; [|exact L3].
      destruct (pow2_opp_pos p) as [_ ->]. ring.
  - destruct (IH _ _ Hm H) as [E2 L2].
    assert (P2 : 0 <= shr_m (iter_pos shr_1 p mrs)).
    { rewrite E2. apply Z.div_pos; [lia|]. apply Z.pow_pos_nonneg; lia. }
    destruct (IH _ _ P2 L2) as [E3 L3].
    split.
    + rewrite E3, E2.
      rewrite !Z.div_div by (try apply Z.pow_pos_nonneg; try apply Z.pow_nonzero; lia).
      f_equal. assert (X : Z.pos p~0 = Z.pos p + Z.pos p) by lia.
      rewrite X, Z.pow_add_r by lia. reflexivity.
    + eapply located_ext; [|exact L3].
      destruct (pow2_opp_pos p) as [-> _]. ring.
  - destruct (shr_1_located mrs y Hm H) as [E1 L1]. split.
    + rewrite E1. reflexivity.
    + exact L1.
Qed.

Lemma shr_fexp_located (m e : Z) (l : location) (x : Q) :
  0 <= m -> located m l (x * pow2 (- e)) ->
  e <= fexp64 (Zdigits2 m + e) ->
  exists mrs,
    shr_fexp prec emax m e l = (mrs, fexp64 (Zdigits2 m + e)) /\
    shr_m mrs = m / 2 ^ (fexp64 (Zdigits2 m + e) - e) /\
    located (shr_m mrs) (loc_of_shr_record mrs)
      (x * pow2 (- fexp64 (Zdigits2 m + e))).
Proof.
  intros Hm H Hn. unfold shr_fexp. rewrite fexp64_eq.
  set (e' := fexp64 (Zdigits2 m + e)) in *.
  pose proof (located_record m l _ H) as H'.
  destruct (e' - e) as [|p|p] eqn:En; [| |lia].
  - exists (shr_record_of_loc m l). cbn [shr].
    assert (e' = e) by lia. subst e'. rewrite H0.
    split; [reflexivity|]. split; [rewrite shr_m_record, Z.div_1_r; reflexivity|].
    exact H'.
  - exists (iter_pos shr_1 p (shr_record_of_loc m l)). cbn [shr].
    destruct (iter_pos_shr_1 p _ _ ltac:(rewrite shr_m_record; exact Hm) H') as [E L].
    split; [f_equal; lia|]. split; [rewrite E, shr_m_record; reflexivity|].
    eapply located_ext; [|exact L].
    rewrite <- Qmult_assoc, <- pow2_add. replace (- e + - Z.pos p) with (- e') by lia.
    reflexivity.
Qed.

(** *** Rounding to nearest

    One rounding: the number that comes out lies on the same side as the
    exact result of every number of the format. *)

Lemma round_nearest_even_cases (m : Z) (l : location) :
  round_nearest_even m l = m
  \/ (round_nearest_even m l = m + 1
      /\ forall y, located m l y -> (inject_Z m < y)%Q).
Proof.
  destruct l as [|[| |]]; cbn [round_nearest_even].
  - left; reflexivity.
  - destruct (Z.even m); [left; reflexivity|].
    right. split; [reflexivity|]. simpl. intros y [H _]. exact H.
  - left; reflexivity.
  - right. split; [reflexivity|]. simpl. intros y [H _]. exact H.
Qed.

Lemma F2Q_lower (m e : Z) (l : location) (x : Q) :
  located m l (x * pow2 (- e)) -> (F2Q m e <= x)%Q.
Proof.
  intro H. apply located_lower in H. rewrite <- (unscaled x e). unfold F2Q.
  apply Qmult_le_compat_r; [exact H | apply Qlt_le_weak, pow2_pos].
Qed.

Lemma F2Q_upper (m e : Z) (l : location) (x : Q) :
  located m l (x * pow2 (- e)) -> (x <= F2Q (m + 1) e)%Q.
Proof.
  intro H. apply located_upper in H. rewrite <- (unscaled x e). unfold F2Q.
  apply Qmult_le_compat_r; [|apply Qlt_le_weak, pow2_pos].
  rewrite inject_Z_plus. change (inject_Z 1) with 1%Q. lra.
Qed.

Lemma F2Q_align (mf ef e : Z) : e <= ef ->
  (F2Q mf ef == F2Q (mf * 2 ^ (ef - e)) e)%Q.
Proof.
  intro H. rewrite <- (F2Q_shift mf ef (ef - e)) by lia.
  replace (ef - (ef - e)) with e by lia. reflexivity.
Qed.

Lemma binary_round_aux_located (sx : bool) (mx ex : Z) (lx : location) (x : Q) :
  0 <= mx -> located mx lx (x * pow2 (- ex)) ->
  ex <= fexp64 (Zdigits2 mx + ex) ->
  exists mz ez,
    0 <= mz /\
    binary_round_aux prec emax sx mx ex lx =
      match mz with
      | Z0 => S754_zero sx
      | Zpos m =>
        if ez <=? emax - prec then S754_finite sx m ez else S754_infinity sx
      | Zneg _ => S754_nan
      end /\
    (forall mf ef, canonical64 mf ef -> (x <= F2Q mf ef)%Q ->
       (F2Q mz ez <= F2Q mf ef)%Q) /\
    (forall mf ef, canonical64 mf ef -> (F2Q mf ef <= x)%Q ->
       (F2Q mf ef <= F2Q mz ez)%Q).
Proof.
  intros Hm Hx Hn.
  destruct (shr_fexp_located mx ex lx x Hm Hx Hn) as (mrs1 & E1 & M1 & L1).
  set (e1 := fexp64 (Zdigits2 mx + ex)) in *.
  set (m1 := shr_m mrs1) in *.
  assert (P1 : 0 <= m1).
  { rewrite M1. apply Z.div_pos; [exact Hm|]. apply Z.pow_pos_nonneg; lia. }
  (* the first shift: either nothing is left, or the exponent is canonical *)
  assert (C1 : (m1 = 0 /\ e1 = -1074)
               \/ (0 < mx /\ 0 < m1 /\ Zdigits2 m1 + e1 = Zdigits2 mx + ex)).
  { destruct (Z.eq_dec mx 0) as [Z0|N0].
    - left. subst mx. split.
      + rewrite M1. apply Z.div_0_l. apply Z.pow_nonzero; lia.
      + subst e1. simpl (Zdigits2 0) in *. unfold fexp64 in *. lia.
    - destruct (Z_lt_le_dec (e1 - ex) (Zdigits2 mx)) as [L|L].
      + right. destruct (Zdigits2_div mx (e1 - ex) ltac:(lia) ltac:(lia)) as [A B].
        rewrite <- M1 in A, B. split; [lia|]. split; [exact A|]. lia.
      + left. split.
        * rewrite M1. apply Zdigits2_div_zero; lia.
        * subst e1. unfold fexp64 in *. lia. }
  set (l1 := loc_of_shr_record mrs1) in *.
  set (m2 := round_nearest_even m1 l1).
  assert (P2 : 0 <= m2) by (destruct (round_nearest_even_cases m1 l1) as [R|[R _]]; fold m2 in R; lia).
  assert (Hn2 : e1 <= fexp64 (Zdigits2 m2 + e1)).
  { destruct C1 as [[_ C]|(_ & C & D)].
    - rewrite C. unfold fexp64. lia.
    - assert (Zdigits2 m1 <= Zdigits2 m2).
      { destruct (round_nearest_even_cases m1 l1) as [R|[R _]]; fold m2 in R; rewrite R; [lia|].
        destruct (Zdigits2_succ m1 C) as [->|[_ ->]]; lia. }
      transitivity (fexp64 (Zdigits2 m1 + e1)).
      + rewrite D. subst e1. lia.
      + apply fexp64_mono. lia. }
  assert (X2 : located m2 loc_Exact (F2Q m2 e1 * pow2 (- e1))).
  { simpl. apply F2Q_scaled. }
  destruct (shr_fexp_located m2 e1 loc_Exact (F2Q m2 e1) P2 X2 Hn2) as (mrs2 & E2 & M2 & L2).
  set (e2 := fexp64 (Zdigits2 m2 + e1)) in *.
  set (mz := shr_m mrs2) in *.
  assert (V : (F2Q mz e2 == F2Q m2 e1)%Q).
  { assert (D : m2 = mz * 2 ^ (e2 - e1)).
    { destruct (Z.eq_dec e2 e1) as [->|Ne].
      - rewrite M2, Z.sub_diag. change (2 ^ 0) with 1. rewrite Z.div_1_r. lia.
      - (* the rounding has reached the next power of two *)
        assert (A2 : e2 = fexp64 (Zdigits2 m2 + e1)) by reflexivity.
        assert (A1 : e1 = fexp64 (Zdigits2 mx + ex)) by reflexivity.
        destruct C1 as [[C0 C]|(_ & C & D)].
        + exfalso. destruct (round_nearest_even_cases m1 l1) as [R|[R _]]; fold m2 in R.
          * rewrite R, C0 in A2. simpl (Zdigits2 0) in A2. unfold fexp64 in A2. lia.
          * rewrite R, C0 in A2. simpl (Zdigits2 (0 + 1)) in A2. unfold fexp64 in A2. lia.
        + destruct (round_nearest_even_cases m1 l1) as [R|[R _]]; fold m2 in R.
          * exfalso. rewrite R, D in A2. lia.
          * destruct (Zdigits2_succ m1 C) as [S1|[S1 S2]].
            -- exfalso. rewrite R, S1, D in A2. lia.
            -- assert (e2 = e1 + 1).
               { rewrite R, S2 in A2.
                 replace (Zdigits2 m1 + 1 + e1) with (Zdigits2 mx + ex + 1) in A2 by lia.
                 unfold fexp64 in A1, A2. lia. }
               rewrite M2, R, S1, H. replace (e1 + 1 - e1) with 1 by lia.
               pose proof (Zdigits2_pos m1 C).
               replace (Zdigits2 m1) with (Zdigits2 m1 - 1 + 1) at 1 2 by lia.
               rewrite Z.pow_add_r by lia. rewrite Z.div_mul by discriminate. reflexivity. }
    rewrite (F2Q_align mz e2 e1) by exact Hn2. rewrite <- D. reflexivity. }
  exists mz, e2. split.
  { subst mz. rewrite M2. apply Z.div_pos; [exact P2|]. apply Z.pow_pos_nonneg; lia. }
  split.
  { unfold binary_round_aux. rewrite E1. fold m1 l1 m2. rewrite E2. fold mz.
    destruct mz; reflexivity. }
  assert (Low : forall mf ef, canonical64 mf ef -> (x <= F2Q mf ef)%Q -> e1 <= ef).
  { intros mf ef [Hf Cf] Hle. destruct (Z.eq_dec mx 0) as [Z0|N0].
    - subst mx e1. simpl (Zdigits2 0) in *. unfold fexp64 in *. lia.
    - assert (Zdigits2 mx + ex <= Zdigits2 mf + ef).
      { apply magnitude_le; [lia | exact Hf |].
        eapply Qle_trans; [apply (F2Q_lower mx ex lx x Hx) | exact Hle]. }
      rewrite Cf. subst e1. apply fexp64_mono. exact H. }
  split.
  - intros mf ef Cf Hle. rewrite V.
    destruct (round_nearest_even_cases m1 l1) as [R|[R I]]; fold m2 in R; rewrite R.
    + eapply Qle_trans; [apply (F2Q_lower m1 e1 l1 x L1) | exact Hle].
    + pose proof (Low mf ef Cf Hle) as A.
      rewrite (F2Q_align mf ef e1 A). apply F2Q_le.
      pose proof (I _ L1) as B.
      assert (C : (x * pow2 (- e1) <= inject_Z (mf * 2 ^ (ef - e1)))%Q).
      { rewrite <- F2Q_scaled with (e := e1). apply scaled_le.
        rewrite <- (F2Q_align mf ef e1 A). exact Hle. }
      assert (inject_Z m1 < inject_Z (mf * 2 ^ (ef - e1)))%Q by lra.
      rewrite <- Zlt_Qlt in H. lia.
  - intros mf ef [Hf Cf] Hle. rewrite V.
    destruct (round_nearest_even_cases m1 l1) as [R|[R I]]; fold m2 in R; rewrite R.
    + destruct (Z_le_gt_dec e1 ef) as [A|A].
      * rewrite (F2Q_align mf ef e1 A). apply F2Q_le.
        pose proof (located_upper _ _ _ L1) as B.
        assert (C : (inject_Z (mf * 2 ^ (ef - e1)) <= x * pow2 (- e1))%Q).
        { rewrite <- F2Q_scaled with (e := e1). apply scaled_le.
          rewrite <- (F2Q_align mf ef e1 A). exact Hle. }
        assert (inject_Z (mf * 2 ^ (ef - e1)) < inject_Z (m1 + 1))%Q.
        { rewrite inject_Z_plus. change (inject_Z 1) with 1%Q. lra. }
        rewrite <- Zlt_Qlt in H. lia.
      * destruct C1 as [[_ C]|(Hmx & C & D)].
        { exfalso. unfold fexp64 in Cf. lia. }
        assert (Zdigits2 mf + ef <= Zdigits2 m1 - 1 + e1).
        { destruct (Z_le_gt_dec (Zdigits2 mx + ex) (Zdigits2 mf + ef)) as [G|G]; [|lia].
          exfalso. apply fexp64_mono in G. fold e1 in G. lia. }
        apply Qlt_le_weak. eapply Qlt_le_trans; [apply F2Q_lt_pow2; exact Hf|].
        eapply Qle_trans; [apply pow2_le; exact H|]. apply pow2_le_F2Q. exact C.
    + eapply Qle_trans; [exact Hle | apply (F2Q_upper m1 e1 l1 x L1)].
Qed.

(** *** The numbers of the format and their order *)

Lemma valid_canonical (s : bool) (m : positive) (e : Z) :
  valid_binary (S754_finite s m e) = true -> canonical64 (Z.pos m) e /\ e <= 971.
Proof.
  cbn [SpecFloat.valid_binary]. unfold bounded, canonical_mantissa.
  rewrite fexp64_eq. intro H. apply andb_true_iff in H. destruct H as [A B].
  apply Z.eqb_eq in A. apply Z.leb_le in B. change (emax - prec) with 971 in B.
  split; [|exact B]. split; [lia|]. simpl (Zdigits2 (Z.pos m)). symmetry. exact A.
Qed.

Lemma canonical_facts (m e : Z) : canonical64 m e ->
  m < 2 ^ 53 /\ (-1074 < e -> 2 ^ 52 <= m) /\ -1074 <= e.
Proof.
  intros [Hm C]. pose proof (Zdigits2_bounds m Hm) as [B1 B2].
  pose proof (Zdigits2_pos m Hm) as Hp.
  assert (D : Zdigits2 m <= 53) by (unfold fexp64 in C; lia).
  split; [|split].
  - assert (2 ^ Zdigits2 m <= 2 ^ 53) by (apply Z.pow_le_mono_r; lia). lia.
  - intro He. assert (Zdigits2 m = 53) by (unfold fexp64 in C; lia).
    rewrite H in B1. exact B1.
  - unfold fexp64 in C. lia.
Qed.

Lemma F2Q_compare_aligned (m1 m2 e : Z) :
  (F2Q m1 e ?= F2Q m2 e)%Q = (m1 ?= m2).
Proof.
  destruct (Z.compare_spec m1 m2) as [E|L|G].
  - subst. apply Qeq_alt. reflexivity.
  - apply Qlt_alt. unfold F2Q. apply Qmult_lt_compat_r; [apply pow2_pos|].
    rewrite <- Zlt_Qlt. exact L.
  - apply Qgt_alt. unfold F2Q. apply Qmult_lt_compat_r; [apply pow2_pos|].
    rewrite <- Zlt_Qlt. exact G.
Qed.

Lemma F2Q_lt_exponent (m1 e1 m2 e2 : Z) :
  canonical64 m1 e1 -> canonical64 m2 e2 -> e1 < e2 -> (F2Q m1 e1 < F2Q m2 e2)%Q.
Proof.
  intros C1 C2 L.
  destruct (canonical_facts _ _ C1) as (A1 & _ & A3).
  destruct (canonical_facts _ _ C2) as (_ & B2 & _).
  rewrite (F2Q_align m2 e2 e1) by lia.
  apply Qlt_alt. rewrite F2Q_compare_aligned. apply Z.compare_lt_iff.
  assert (2 ^ 1 <= 2 ^ (e2 - e1)) by (apply Z.pow_le_mono_r; lia).
  change (2 ^ 1) with 2 in H. specialize (B2 ltac:(lia)). nia.
Qed.

Lemma SFcompare_finite (m1 m2 : positive) (e1 e2 : Z) :
  canonical64 (Z.pos m1) e1 -> canonical64 (Z.pos m2) e2 ->
  SFcompare (S754_finite false m1 e1) (S754_finite false m2 e2)
  = Some (F2Q (Z.pos m1) e1 ?= F2Q (Z.pos m2) e2)%Q.
Proof.
  intros C1 C2. cbn [SFcompare]. f_equal.
  destruct (Z.compare_spec e1 e2) as [E|L|G].
  - subst e2. rewrite F2Q_compare_aligned. reflexivity.
  - symmetry. apply Qlt_alt. apply F2Q_lt_exponent; assumption.
  - symmetry. apply Qgt_alt. apply F2Q_lt_exponent; assumption.
Qed.

(** Shapes *)

Lemma binary_round_aux_shape (sx : bool) (mx ex : Z) (lx : location) :
  match binary_round_aux prec emax sx mx ex lx with
  | S754_zero s | S754_infinity s | S754_finite s _ _ => s = sx
  | S754_nan => True
  end.
Proof.
  unfold binary_round_aux.
  destruct (shr_fexp prec emax mx ex lx) as [mrs1 e1].
  destruct (shr_fexp prec emax _ e1 loc_Exact) as [mrs2 e2].
  destruct (shr_m mrs2); [reflexivity| |exact I].
  destruct (e2 <=? emax - prec); reflexivity.
Qed.

Lemma binary_round_shape (sx : bool) (mx : positive) (ex : Z) :
  match binary_round prec emax sx mx ex with
  | S754_zero s | S754_infinity s | S754_finite s _ _ => s = sx
  | S754_nan => True
  end.
Proof.
  unfold binary_round. destruct (shl_align mx ex _) as [mz ez].
  apply binary_round_aux_shape.
Qed.

(** Alignment to the left *)

Lemma iter_xO (m d : positive) : Z.pos (Pos.iter xO m d) = Z.pos m * 2 ^ Z.pos d.
Proof.
  revert m. induction d as [|d IH] using Pos.peano_ind; intro m.
  - simpl. lia.
  - rewrite Pos.iter_succ, Pos2Z.inj_xO, IH, Pos2Z.inj_succ, Z.pow_succ_r by lia. ring.
Qed.

Lemma shl_align_spec (mx : positive) (ex ex' : Z) :
  let '(mz, ez) := shl_align mx ex ex' in
  ez = Z.min ex ex' /\ Z.pos mz = Z.pos mx * 2 ^ (ex - ez).
Proof.
  unfold shl_align. destruct (ex' - ex) as [|d|d] eqn:E.
  - split; [lia|]. rewrite Z.sub_diag. simpl. lia.
  - split; [lia|]. rewrite Z.sub_diag. simpl. lia.
  - split; [lia|]. rewrite iter_xO. f_equal. f_equal. lia.
Qed.

Lemma Zdigits2_shift (m k : Z) : 0 < m -> 0 <= k ->
  Zdigits2 (m * 2 ^ k) = Zdigits2 m + k.
Proof.
  intros Hm Hk. pose proof (Zdigits2_bounds m Hm) as [B1 B2].
  pose proof (Zdigits2_pos m Hm).
  assert (0 < 2 ^ k) by (apply Z.pow_pos_nonneg; lia).
  apply Zdigits2_unique; [nia|].
  replace (Zdigits2 m + k - 1) with (Zdigits2 m - 1 + k) by lia.
  rewrite !Z.pow_add_r by lia. split; nia.
Qed.

Lemma binary_round_located (sx : bool) (mx : positive) (ex : Z) :
  exists mz ez,
    0 <= mz /\
    binary_round prec emax sx mx ex =
      match mz with
      | Z0 => S754_zero sx
      | Zpos m =>
        if ez <=? emax - prec then S754_finite sx m ez else S754_infinity sx
      | Zneg _ => S754_nan
      end /\
    (forall mf ef, canonical64 mf ef -> (F2Q (Z.pos mx) ex <= F2Q mf ef)%Q ->
       (F2Q mz ez <= F2Q mf ef)%Q) /\
    (forall mf ef, canonical64 mf ef -> (F2Q mf ef <= F2Q (Z.pos mx) ex)%Q ->
       (F2Q mf ef <= F2Q mz ez)%Q).
Proof.
  unfold binary_round. rewrite fexp64_eq.
  pose proof (shl_align_spec mx ex (fexp64 (Z.pos (digits2_pos mx) + ex))) as A.
  destruct (shl_align mx ex _) as [mz ez]. destruct A as [A1 A2].
  change (Z.pos (digits2_pos mx)) with (Zdigits2 (Z.pos mx)) in A1.
  assert (V : (F2Q (Z.pos mz) ez == F2Q (Z.pos mx) ex)%Q).
  { rewrite A2. rewrite (F2Q_align (Z.pos mx) ex ez) by lia. reflexivity. }
  assert (X : located (Z.pos mz) loc_Exact (F2Q (Z.pos mx) ex * pow2 (- ez))).
  { simpl. rewrite <- V. apply F2Q_scaled. }
  assert (N : ez <= fexp64 (Zdigits2 (Z.pos mz) + ez)).
  { rewrite A2, Zdigits2_shift by lia.
    replace (Zdigits2 (Z.pos mx) + (ex - ez) + ez) with (Zdigits2 (Z.pos mx) + ex) by lia.
    lia. }
  exact (binary_round_aux_located sx (Z.pos mz) ez loc_Exact _ ltac:(lia) X N).
Qed.

(** *** Quotients and differences *)

Lemma F2Q_pos (m e : Z) : 0 < m -> (0 < F2Q m e)%Q.
Proof.
  intro H. unfold F2Q. apply Qmult_lt_0_compat; [|apply pow2_pos].
  change 0%Q with (inject_Z 0). rewrite <- Zlt_Qlt. exact H.
Qed.

Lemma new_location_exact (nb_steps k : Z) :
  match new_location nb_steps k with
  | loc_Exact => k = 0
  | loc_Inexact _ => k <> 0
  end.
Proof.
  unfold new_location, new_location_even, new_location_odd.
  destruct (Z.even nb_steps); destruct (Z.eqb_spec k 0); assumption.
Qed.

Lemma SFdiv_core_located (mx mw : positive) (ex ew : Z) :
  exists q e l,
    SFdiv_core_binary prec emax (Z.pos mx) ex (Z.pos mw) ew = (q, e, l) /\
    0 <= q /\
    located q l (F2Q (Z.pos mx) ex / F2Q (Z.pos mw) ew * pow2 (- e)) /\
    e <= fexp64 (Zdigits2 q + e).
Proof.
  unfold SFdiv_core_binary. rewrite fexp64_eq.
  set (d1 := Zdigits2 (Z.pos mx)). set (d2 := Zdigits2 (Z.pos mw)).
  set (M := d1 + ex - (d2 + ew)).
  set (e := Z.min (fexp64 M) (ex - ew)).
  set (s := ex - ew - e).
  assert (Hs : 0 <= s) by (subst s e; lia).
  set (m' := match s with Z.pos _ => Z.shiftl (Z.pos mx) s | 0 => Z.pos mx | Z.neg _ => 0 end).
  assert (Hm' : m' = Z.pos mx * 2 ^ s).
  { subst m'. destruct s as [|p|p] eqn:Es; [simpl; lia | | lia].
    rewrite Z.shiftl_mul_pow2 by lia. reflexivity. }
  pose proof (Z.div_eucl_eq m' (Z.pos mw) ltac:(lia)) as DE.
  pose proof (Z.mod_pos_bound m' (Z.pos mw) ltac:(lia)) as MB.
  unfold Z.modulo in MB.
  destruct (Z.div_eucl m' (Z.pos mw)) as [q r] eqn:Eqr.
  exists q, e, (new_location (Z.pos mw) r).
  split; [reflexivity|].
  assert (P2 : 0 < 2 ^ s) by (apply Z.pow_pos_nonneg; lia).
  assert (Hq : 0 <= q) by nia.
  split; [exact Hq|].
  assert (Y : (F2Q (Z.pos mx) ex / F2Q (Z.pos mw) ew * pow2 (- e)
               == inject_Z m' / inject_Z (Z.pos mw))%Q).
  { rewrite Hm', inject_Z_mult, <- (pow2_Z s Hs). unfold F2Q.
    assert (E1 : (pow2 ex == pow2 s * pow2 ew * pow2 e)%Q).
    { rewrite <- !pow2_add. replace (s + ew + e) with ex by (subst s; lia). reflexivity. }
    assert (E2 : (pow2 e * pow2 (- e) == 1)%Q) by apply pow2_cancel.
    pose proof (pow2_pos ew). pose proof (pow2_pos e).
    assert (N : ~ (inject_Z (Z.pos mw) == 0)%Q).
    { intro C. unfold Qeq in C. simpl in C. lia. }
    rewrite E1. transitivity (inject_Z (Z.pos mx) * pow2 s / inject_Z (Z.pos mw) * (pow2 e * pow2 (- e)))%Q.
    - field. repeat split; try exact N; lra.
    - rewrite E2. field. repeat split; try exact N; lra. }
  assert (Yq : (inject_Z m' / inject_Z (Z.pos mw)
                == inject_Z q + inject_Z r / inject_Z (Z.pos mw))%Q).
  { rewrite DE, inject_Z_plus, inject_Z_mult. field.
    intro C. unfold Qeq in C. simpl in C. lia. }
  split.
  - eapply located_ext; [symmetry; rewrite Y; exact Yq|].
    pose proof (new_location_exact (Z.pos mw) r) as NL.
    assert (W0 : (0 < inject_Z (Z.pos mw))%Q).
    { change 0%Q with (inject_Z 0). rewrite <- Zlt_Qlt. lia. }
    destruct (new_location (Z.pos mw) r); simpl.
    + subst r. change (inject_Z 0) with 0%Q. field. lra.
    + assert (R0 : (0 < inject_Z r)%Q).
      { change 0%Q with (inject_Z 0). rewrite <- Zlt_Qlt. lia. }
      assert (R1 : (inject_Z r < inject_Z (Z.pos mw))%Q).
      { rewrite <- Zlt_Qlt. lia. }
      assert (0 < inject_Z r / inject_Z (Z.pos mw))%Q.
      { apply Qlt_shift_div_l; lra. }
      assert (inject_Z r / inject_Z (Z.pos mw) < 1)%Q.
      { apply Qlt_shift_div_r; lra. }
      lra.
  - destruct (Z_le_gt_dec e (-1074)) as [L|G]; [unfold fexp64; lia|].
    assert (LM : e <= M - 53) by (subst e; unfold fexp64 in *; lia).
    (* the quotient has at least [M - e] digits *)
    pose proof (Zdigits2_bounds (Z.pos mx) ltac:(lia)) as [X1 X2]. fold d1 in X1, X2.
    pose proof (Zdigits2_bounds (Z.pos mw) ltac:(lia)) as [W1 W2]. fold d2 in W1, W2.
    pose proof (Zdigits2_pos (Z.pos mx) ltac:(lia)) as D1. fold d1 in D1.
    pose proof (Zdigits2_pos (Z.pos mw) ltac:(lia)) as D2. fold d2 in D2.
    set (k := d1 - 1 + s - d2).
    assert (Hk : 52 <= k) by (subst k s M; lia).
    assert (Q1 : 2 ^ k <= q).
    { assert (2 ^ k * Z.pos mw <= m').
      { rewrite Hm'.
        assert (2 ^ k * Z.pos mw <= 2 ^ k * 2 ^ d2).
        { apply Z.mul_le_mono_nonneg_l; [apply Z.pow_nonneg; lia | lia]. }
        rewrite <- Z.pow_add_r in H by lia.
        replace (k + d2) with (d1 - 1 + s) in H by (subst k; lia).
        rewrite Z.pow_add_r in H by lia. nia. }
      assert (2 ^ k * Z.pos mw < (q + 1) * Z.pos mw) by lia.
      assert (2 ^ k < q + 1) by nia. lia. }
    assert (0 < 2 ^ k) by (apply Z.pow_pos_nonneg; lia).
    assert (Q2 : k < Zdigits2 q).
    { pose proof (Zdigits2_bounds q ltac:(lia)) as [_ B].
      apply (Z.pow_lt_mono_r_iff 2); [lia | apply Zdigits2_nonneg | lia]. }
    assert (M <= Zdigits2 q + e) by (subst k s M; lia).
    apply fexp64_mono in H0. unfold fexp64 in *. lia.
Qed.

Lemma SFdiv_finite (sx sy : bool) (mx mw : positive) (ex ew : Z) :
  exists mz ez,
    0 <= mz /\
    SFdiv prec emax (S754_finite sx mx ex) (S754_finite sy mw ew) =
      match mz with
      | Z0 => S754_zero (xorb sx sy)
      | Zpos m =>
        if ez <=? emax - prec then S754_finite (xorb sx sy) m ez
        else S754_infinity (xorb sx sy)
      | Zneg _ => S754_nan
      end /\
    (forall mf ef, canonical64 mf ef ->
       (F2Q (Z.pos mx) ex / F2Q (Z.pos mw) ew <= F2Q mf ef)%Q ->
       (F2Q mz ez <= F2Q mf ef)%Q) /\
    (forall mf ef, canonical64 mf ef ->
       (F2Q mf ef <= F2Q (Z.pos mx) ex / F2Q (Z.pos mw) ew)%Q ->
       (F2Q mf ef <= F2Q mz ez)%Q).
Proof.
  destruct (SFdiv_core_located mx mw ex ew) as (q & e & l & E & Hq & L & N).
  cbn [SFdiv]. rewrite E.
  exact (binary_round_aux_located (xorb sx sy) q e l _ Hq L N).
Qed.

(** The quotient of a number by a larger one is below 1, of a number by a
    smaller one at least 1. *)

Lemma quotient_below (m1 e1 m2 e2 : Z) :
  canonical64 m1 e1 -> canonical64 m2 e2 -> (F2Q m1 e1 < F2Q m2 e2)%Q ->
  (F2Q m1 e1 / F2Q m2 e2 <= F2Q (2 ^ 53 - 1) (-53))%Q.
Proof.
  intros C1 C2 L.
  destruct (canonical_facts _ _ C1) as (A1 & A2 & A3).
  destruct (canonical_facts _ _ C2) as (B1 & B2 & B3).
  pose proof (F2Q_pos m2 e2 (proj1 C2)) as P2.
  apply Qle_shift_div_r; [exact P2|].
  destruct (Z_lt_le_dec e2 e1) as [G|G].
  { exfalso. pose proof (F2Q_lt_exponent _ _ _ _ C2 C1 G). lra. }
  pose proof (F2Q_align m2 e2 e1 G) as AL.
  set (K := m2 * 2 ^ (e2 - e1)) in *.
  assert (LK : m1 < K).
  { destruct (Z_lt_le_dec m1 K) as [|C]; [assumption|].
    exfalso. apply (F2Q_le _ _ e1) in C. rewrite AL in L. lra. }
  rewrite AL.
  assert (HK : 2 ^ 53 * m1 <= (2 ^ 53 - 1) * K).
  { destruct (Z.eq_dec e1 e2) as [E|NE].
    - subst K. rewrite E, Z.sub_diag in *. change (2 ^ 0) with 1 in *. lia.
    - assert (2 ^ 1 <= 2 ^ (e2 - e1)) by (apply Z.pow_le_mono_r; lia).
      change (2 ^ 1) with 2 in H. specialize (B2 ltac:(lia)).
      assert (2 ^ 53 <= K) by (subst K; nia). nia. }
  unfold F2Q. change (pow2 (-53)) with (1 # 9007199254740992)%Q.
  assert (HQ : (inject_Z (2 ^ 53) * inject_Z m1 <= inject_Z (2 ^ 53 - 1) * inject_Z K)%Q).
  { rewrite <- !inject_Z_mult, <- Zle_Qle. exact HK. }
  change (inject_Z (2 ^ 53)) with (9007199254740992 # 1)%Q in HQ.
  pose proof (pow2_pos e1).
  assert (inject_Z m1 * pow2 e1 * (9007199254740992 # 1)
          <= inject_Z (2 ^ 53 - 1) * inject_Z K * pow2 e1)%Q.
  { setoid_replace (inject_Z m1 * pow2 e1 * (9007199254740992 # 1))%Q
      with ((9007199254740992 # 1) * inject_Z m1 * pow2 e1)%Q by ring.
    apply Qmult_le_compat_r; [exact HQ | lra]. }
  lra.
Qed.

Lemma quotient_above (m1 e1 m2 e2 : Z) :
  0 < m2 -> (F2Q m2 e2 <= F2Q m1 e1)%Q ->
  (F2Q (2 ^ 52) (-52) <= F2Q m1 e1 / F2Q m2 e2)%Q.
Proof.
  intros H2 L. pose proof (F2Q_pos m2 e2 H2) as P2.
  apply Qle_shift_div_l; [exact P2|].
  change (F2Q (2 ^ 52) (-52)) with (4503599627370496 # 4503599627370496)%Q.
  setoid_replace (4503599627370496 # 4503599627370496)%Q with 1%Q by reflexivity.
  lra.
Qed.

Lemma canonical_pred_one : canonical64 (2 ^ 53 - 1) (-53).
Proof. split; reflexivity. Qed.

Lemma canonical_one : canonical64 (2 ^ 52) (-52).
Proof. split; reflexivity. Qed.

Lemma pred_one_below : (F2Q (2 ^ 53 - 1) (-53) < 1)%Q.
Proof. reflexivity. Qed.

Lemma one_is_one : (F2Q (2 ^ 52) (-52) == 1)%Q.
Proof. reflexivity. Qed.

Lemma SFdiv_below_one (mx mw : positive) (ex ew : Z) :
  canonical64 (Z.pos mx) ex -> canonical64 (Z.pos mw) ew ->
  (F2Q (Z.pos mx) ex < F2Q (Z.pos mw) ew)%Q ->
  match SFdiv prec emax (S754_finite false mx ex) (S754_finite false mw ew) with
  | S754_zero _ => True
  | S754_finite _ m e => (F2Q (Z.pos m) e < 1)%Q
  | S754_infinity _ => True
  | S754_nan => True
  end.
Proof.
  intros C1 C2 L.
  destruct (SFdiv_finite false false mx mw ex ew) as (mz & ez & Hz & E & U & _).
  rewrite E.
  pose proof (U _ _ canonical_pred_one (quotient_below _ _ _ _ C1 C2 L)) as B.
  destruct mz as [|m|m]; [exact I | | exact I].
  destruct (ez <=? emax - prec); [|exact I].
  pose proof pred_one_below. lra.
Qed.

Lemma SFdiv_at_least_one (mx mw : positive) (ex ew : Z) :
  (F2Q (Z.pos mw) ew <= F2Q (Z.pos mx) ex)%Q ->
  match SFdiv prec emax (S754_finite false mx ex) (S754_finite false mw ew) with
  | S754_finite s m e => s = false /\ (1 <= F2Q (Z.pos m) e)%Q
  | S754_infinity _ => True
  | S754_zero _ | S754_nan => False
  end.
Proof.
  intros L.
  destruct (SFdiv_finite false false mx mw ex ew) as (mz & ez & Hz & E & _ & Lo).
  rewrite E.
  pose proof (Lo _ _ canonical_one (quotient_above (Z.pos mx) ex (Z.pos mw) ew ltac:(lia) L)) as B.
  rewrite one_is_one in B.
  destruct mz as [|m|m];
    [|destruct (ez <=? emax - prec); [split; [reflexivity | exact B] | exact I] | lia].
  unfold F2Q in B. change (inject_Z 0) with 0%Q in B. lra.
Qed.

(** Subtraction *)

Lemma SFsub_finite_upper (mW mt : positive) (eW et : Z) :
  canonical64 (Z.pos mW) eW ->
  match SFsub prec emax (S754_finite false mW eW) (S754_finite false mt et) with
  | S754_finite false m e => (F2Q (Z.pos m) e <= F2Q (Z.pos mW) eW)%Q
  | _ => True
  end.
Proof.
  intro CW. cbn [SFsub cond_Zopp].
  set (ez := Z.min eW et).
  pose proof (shl_align_spec mW eW ez) as A. pose proof (shl_align_spec mt et ez) as B.
  destruct (shl_align mW eW ez) as [a ea]. destruct (shl_align mt et ez) as [b eb].
  cbn [fst]. destruct A as [A1 A2]. destruct B as [B1 B2].
  assert (Ea : ea = ez) by (subst ez; lia). assert (Eb : eb = ez) by (subst ez; lia).
  rewrite Ea in A2. rewrite Eb in B2. clear A1 B1 Ea Eb ea eb.
  destruct (Z.pos a - Z.pos b) as [|d|d] eqn:Ed; cbn [binary_normalize].
  - exact I.
  - destruct (binary_round_located false d ez) as (mz & e & Hz & E & U & _).
    rewrite E.
    assert (L : (F2Q (Z.pos d) ez <= F2Q (Z.pos mW) eW)%Q).
    { rewrite (F2Q_align (Z.pos mW) eW ez) by (subst ez; lia). apply F2Q_le. lia. }
    pose proof (U _ _ CW L) as V.
    destruct mz as [|m|m]; [exact I | | exact I].
    destruct (e <=? emax - prec); [exact V | exact I].
  - pose proof (binary_round_shape true d ez) as S.
    destruct (binary_round prec emax true d ez) as [s|s| |s m e]; try exact I.
    subst s. exact I.
Qed.

(** *** The operations of [double] *)

Lemma mag_down_nonneg (m : positive) (e : Z) : 0 <= Binary64.mag_down m e.
Proof.
  unfold Binary64.mag_down. destruct (0 <=? e) eqn:E.
  - apply Z.leb_le in E. pose proof (Z.pow_nonneg 2 e). nia.
  - apply Z.div_pos; [lia|]. apply Z.pow_pos_nonneg; lia.
Qed.

Lemma mag_up_nonneg (m : positive) (e : Z) : 0 <= Binary64.mag_up m e.
Proof.
  unfold Binary64.mag_up. destruct (0 <=? e) eqn:E.
  - apply Z.leb_le in E. pose proof (Z.pow_nonneg 2 e). nia.
  - apply Z.leb_gt in E.
    assert (P : 0 < 2 ^ (- e)) by (apply Z.pow_pos_nonneg; lia).
    pose proof (Z.div_lt_upper_bound (- Z.pos m) (2 ^ (- e)) 1 P). lia.
Qed.

(** *** The integral part *)

Lemma mag_down_floor (m : positive) (e : Z) :
  Binary64.mag_down m e = Qfloor (F2Q (Z.pos m) e).
Proof.
  unfold Binary64.mag_down. destruct (0 <=? e) eqn:E.
  - apply Z.leb_le in E.
    assert (X : (F2Q (Z.pos m) e == inject_Z (Z.pos m * 2 ^ e))%Q).
    { unfold F2Q. rewrite inject_Z_mult, pow2_Z by exact E. reflexivity. }
    rewrite X. symmetry. apply Qfloor_Z.
  - apply Z.leb_gt in E.
    assert (X : (F2Q (Z.pos m) e == inject_Z (Z.pos m) / inject_Z (2 ^ (- e)))%Q).
    { unfold F2Q, Qdiv. rewrite <- pow2_Z by lia.
      apply Qmult_comp; [reflexivity|].
      replace e with (- - e) at 1 by lia. unfold pow2. apply Qpower_opp. }
    rewrite X. apply Zdiv_Qdiv.
Qed.

Lemma mag_down_below_one (m : positive) (e : Z) :
  (F2Q (Z.pos m) e < 1)%Q -> Binary64.mag_down m e = 0.
Proof.
  intro H. rewrite mag_down_floor.
  pose proof (Qfloor_le (F2Q (Z.pos m) e)) as L.
  pose proof (Qlt_floor (F2Q (Z.pos m) e)) as U.
  pose proof (F2Q_pos (Z.pos m) e ltac:(lia)) as P.
  assert (A : (inject_Z (Qfloor (F2Q (Z.pos m) e)) < inject_Z 1)%Q)
    by (change (inject_Z 1) with 1%Q; lra).
  assert (B : (inject_Z 0 < inject_Z (Qfloor (F2Q (Z.pos m) e) + 1))%Q)
    by (change (inject_Z 0) with 0%Q; lra).
  rewrite <- Zlt_Qlt in A, B. lia.
Qed.

Lemma mag_down_at_least_one (m : positive) (e : Z) :
  (1 <= F2Q (Z.pos m) e)%Q -> 1 <= Binary64.mag_down m e.
Proof.
  intro H. rewrite mag_down_floor.
  change 1 with (Qfloor 1) at 1. apply Qfloor_resp_le. exact H.
Qed.

(** *** The sign *)

Lemma not_negative_spec (x : float) :
  d_ltb x d_zero = false <-> sf_not_negative (Prim2SF x).
Proof.
  change (d_ltb x d_zero) with (x <? 0)%float. rewrite FloatAxioms.ltb_spec.
  change (Prim2SF 0) with (S754_zero false).
  destruct (Prim2SF x) as [s|[|]| |[|] m e]; cbn; intuition discriminate.
Qed.

Lemma positive_spec (x : float) :
  d_ltb d_zero x = true <->
  match Prim2SF x with
  | S754_finite false _ _ | S754_infinity false => True
  | _ => False
  end.
Proof.
  change (d_ltb d_zero x) with (0 <? x)%float. rewrite FloatAxioms.ltb_spec.
  change (Prim2SF 0) with (S754_zero false).
  destruct (Prim2SF x) as [s|[|]| |[|] m e]; cbn; intuition discriminate.
Qed.

Lemma SFadd_not_negative (x y : spec_float) :
  sf_not_negative x -> sf_not_negative y -> sf_not_negative (SFadd prec emax x y).
Proof.
  destruct x as [sx|[|]| |[|] mx ex]; destruct y as [sy|[|]| |[|] my ey];
    cbn [sf_not_negative SFadd]; try tauto;
    try (intros _ _; repeat match goal with s : bool |- _ => destruct s end; exact I).
  intros _ _. cbn [cond_Zopp].
    set (a := fst (shl_align mx ex (Z.min ex ey))).
    set (b := fst (shl_align my ey (Z.min ex ey))).
    change (Z.pos a + Z.pos b) with (Z.pos (a + b)). cbn [binary_normalize].
    pose proof (binary_round_shape false (a + b) (Z.min ex ey)) as S.
    destruct (binary_round prec emax false (a + b) (Z.min ex ey)) as [s|s| |s m e];
      try exact I; subst s; exact I.
Qed.

Lemma SFmul_not_negative (x y : spec_float) :
  sf_not_negative x -> sf_not_negative y -> sf_not_negative (SFmul prec emax x y).
Proof.
  destruct x as [sx|[|]| |[|] mx ex]; destruct y as [sy|[|]| |[|] my ey];
    cbn [sf_not_negative SFmul xorb]; try tauto;
    try (intros _ _; repeat match goal with s : bool |- _ => destruct s end; exact I).
  intros _ _.
    pose proof (binary_round_aux_shape false (Z.pos (mx * my)) (ex + ey) loc_Exact) as S.
    destruct (binary_round_aux prec emax false (Z.pos (mx * my)) (ex + ey) loc_Exact)
      as [s|s| |s m e]; try exact I; subst s; exact I.
Qed.

Lemma of_int_not_negative (n : Z) :
  0 <= n -> d_ltb (Binary64.of_int n) d_zero = false.
Proof.
  intro H. apply not_negative_spec.
  unfold Binary64.of_int. replace (n <? 0) with false by (symmetry; apply Z.ltb_ge; exact H).
  rewrite of_uint63_spec.
  pose proof (Uint63.to_Z_bounded (Uint63.of_Z n)) as [B _].
  destruct (Uint63.to_Z (Uint63.of_Z n)) as [|p|p]; cbn [binary_normalize]; [exact I | | lia].
  pose proof (binary_round_shape false p 0) as S.
  destruct (binary_round prec emax false p 0) as [s|s| |s m e];
    try exact I; subst s; exact I.
Qed.

Lemma d_max_zero_not_negative (w : float) :
  d_ltb (d_max d_zero w) d_zero = false.
Proof.
  unfold d_max. destruct (d_ltb d_zero w) eqn:E.
  - apply not_negative_spec. apply positive_spec in E.
    destruct (Prim2SF w) as [s|[|]| |[|] m e]; try contradiction; exact I.
  - reflexivity.
Qed.

Lemma binary64_accept_not_negative (p : pack float) id len q (w : float) mi
    (W : float) :
  d_ltb (m_total_weight p) d_zero = false ->
  d_ltb (m_total_weight (snd (add_partial_item p id len q w mi W))) d_zero = false.
Proof.
  intros H.
  destruct (add_partial_item_cases p id len q w mi W) as [[_ E]|[Hpos [_ [Hn E]]]];
    rewrite E; [exact H|].
  set (n := fst (add_partial_item p id len q w mi W)) in *.
  change (m_total_weight (accepted p id len n w))
    with (m_total_weight p + Binary64.of_int n * d_max d_zero w)%float.
  apply not_negative_spec. rewrite add_spec, mul_spec.
  apply SFadd_not_negative; [apply not_negative_spec; exact H|].
  apply SFmul_not_negative.
  - apply not_negative_spec. apply of_int_not_negative. lia.
  - apply not_negative_spec. apply d_max_zero_not_negative.
Qed.

(** *** The quotient of the remaining weight by a heavier weight *)

Lemma cast_not_positive (x : float) :
  (forall m e, Prim2SF x = S754_finite false m e -> (F2Q (Z.pos m) e < 1)%Q) ->
  static_cast_int x <= 0.
Proof.
  intro H. unfold static_cast_int. change (d_trunc x) with (Binary64.trunc x).
  unfold Binary64.trunc.
  destruct (Prim2SF x) as [s|s| |[|] m e] eqn:E; try (unfold Int.INT_MIN; lia).
  - reflexivity.
  - pose proof (mag_down_nonneg m e).
    destruct (Int.in_rangeb _); [lia | unfold Int.INT_MIN; lia].
  - rewrite (mag_down_below_one m e (H m e eq_refl)). reflexivity.
Qed.

Lemma SFsub_upper (X Y : spec_float) :
  valid_binary X = true -> sf_not_negative X -> sf_not_negative Y ->
  forall m e, SFsub prec emax X Y = S754_finite false m e ->
  exists mX eX, X = S754_finite false mX eX
                /\ (F2Q (Z.pos m) e <= F2Q (Z.pos mX) eX)%Q.
Proof.
  intros V HX HY m e.
  destruct X as [sx|[|]| |[|] mx ex]; destruct Y as [sy|[|]| |[|] my ey];
    cbn [sf_not_negative] in HX, HY; try contradiction;
    try (cbn [SFsub negb]; try destruct sx; try destruct sy; discriminate).
  - cbn [SFsub]. intro E. inversion E; subst. exists m, e. split; [reflexivity|].
    apply Qle_refl.
  - intro E. destruct (valid_canonical _ _ _ V) as [C _].
    pose proof (SFsub_finite_upper mx my ex ey C) as U. rewrite E in U.
    exists mx, ex. split; [reflexivity | exact U].
Qed.

Lemma SFdiv_heavy (X w : spec_float) (mW : positive) (eW : Z) :
  valid_binary X = true -> valid_binary w = true ->
  canonical64 (Z.pos mW) eW ->
  SFltb (S754_finite false mW eW) w = true ->
  (forall m e, X = S754_finite false m e ->
     (F2Q (Z.pos m) e <= F2Q (Z.pos mW) eW)%Q) ->
  forall m e, SFdiv prec emax X w = S754_finite false m e ->
  (F2Q (Z.pos m) e < 1)%Q.
Proof.
  intros VX Vw CW L B m e.
  destruct w as [sw|[|]| |[|] mw ew]; try discriminate L.
  - (* an infinite weight *)
    destruct X as [sx|sx| |sx mx ex]; cbn [SFdiv]; discriminate.
  - destruct (valid_canonical _ _ _ Vw) as [Cw _].
    assert (LQ : (F2Q (Z.pos mW) eW < F2Q (Z.pos mw) ew)%Q).
    { unfold SFltb in L. rewrite (SFcompare_finite _ _ _ _ CW Cw) in L.
      apply Qlt_alt. destruct (F2Q (Z.pos mW) eW ?= F2Q (Z.pos mw) ew)%Q;
        [discriminate | reflexivity | discriminate]. }
    destruct X as [sx|sx| |[|] mx ex]; try (cbn [SFdiv]; discriminate).
    + (* a negative remaining weight *)
      cbn [SFdiv xorb].
      destruct (SFdiv_core_binary prec emax (Z.pos mx) ex (Z.pos mw) ew) as [[q eq] l].
      pose proof (binary_round_aux_shape true q eq l) as S. intro E. rewrite E in S.
      discriminate S.
    + destruct (valid_canonical _ _ _ VX) as [CX _].
      pose proof (B mx ex eq_refl) as BX.
      pose proof (SFdiv_below_one mx mw ex ew CX Cw ltac:(lra)) as D.
      intro E. rewrite E in D. exact D.
Qed.

Lemma binary64_heavy_quotient (W tw w : float) :
  d_ltb W w = true -> d_ltb W d_zero = false -> d_ltb tw d_zero = false ->
  static_cast_int (d_div (d_sub W tw) w) <= 0.
Proof.
  intros Hh HW Ht. apply cast_not_positive.
  change (d_div (d_sub W tw) w) with ((W - tw) / w)%float.
  rewrite div_spec. intros m e E.
  apply not_negative_spec in HW, Ht.
  change (d_ltb W w) with (W <? w)%float in Hh. rewrite FloatAxioms.ltb_spec in Hh.
  pose proof (Prim2SF_valid W) as VW. pose proof (Prim2SF_valid w) as Vw.
  pose proof (Prim2SF_valid (W - tw)%float) as VX.
  pose proof (SFsub_upper (Prim2SF W) (Prim2SF tw) VW HW Ht) as U.
  rewrite <- sub_spec in U.
  destruct (Prim2SF W) as [sW|[|]| |[|] mW eW] eqn:EW;
    cbn [sf_not_negative] in HW; try contradiction.
  - (* max_weight is zero: nothing is left for a positive weight *)
    destruct (Prim2SF (W - tw)) as [sx|sx| |[|] mx ex] eqn:EX.
    + destruct (Prim2SF w) as [sw|[|]| |[|] mw ew]; cbn [SF64div SFdiv] in E; discriminate.
    + destruct (Prim2SF w) as [sw|[|]| |[|] mw ew]; cbn [SF64div SFdiv] in E; discriminate.
    + destruct (Prim2SF w) as [sw|[|]| |[|] mw ew]; cbn [SF64div SFdiv] in E; discriminate.
    + destruct (Prim2SF w) as [sw|[|]| |[|] mw ew]; try discriminate Hh;
        try (cbn [SF64div SFdiv] in E; discriminate).
      unfold SF64div in E. cbn [SFdiv xorb] in E.
      destruct (SFdiv_core_binary prec emax (Z.pos mx) ex (Z.pos mw) ew) as [[q eq] l].
      pose proof (binary_round_aux_shape true q eq l) as S. rewrite E in S.
      discriminate S.
    + destruct (U mx ex eq_refl) as (mX & eX & C & _). discriminate C.
  - destruct (Prim2SF w) as [sw|[|]| |[|] mw ew]; discriminate Hh.
  - discriminate Hh.
  - destruct (valid_canonical _ _ _ VW) as [CW _].
    apply (SFdiv_heavy (Prim2SF (W - tw)) (Prim2SF w) mW eW VX Vw CW Hh); [|exact E].
    intros mx ex EX. destruct (U mx ex EX) as (mX & eX & C & B).
    inversion C; subst. exact B.
Qed.

Lemma binary64_heavy_rejected (p : pack float) id len q (w : float) mi (W : float) :
  d_ltb (m_total_weight p) d_zero = false ->
  d_ltb W w = true ->
  fst (add_partial_item p id len q w mi W) <= 0.
Proof.
  intros Ht Hw.
  destruct (add_partial_item_cases p id len q w mi W) as [[L _]|[Hpos [G [Hn _]]]];
    [exact L|].
  exfalso. apply guard_false in G. destruct G as (_ & _ & HW).
  set (n := fst (add_partial_item p id len q w mi W)) in *.
  unfold can_add in Hn.
  (* the weight is positive *)
  assert (Pw : d_ltb d_zero w = true).
  { apply positive_spec. apply not_negative_spec in HW.
    change (d_ltb W w) with (W <? w)%float in Hw. rewrite FloatAxioms.ltb_spec in Hw.
    destruct (Prim2SF W) as [sW|[|]| |[|] mW eW]; cbn [sf_not_negative] in HW;
      try contradiction;
      destruct (Prim2SF w) as [sw|[|]| |[|] mw ew]; try discriminate Hw; exact I. }
  assert (Ew : d_max d_zero w = w) by (unfold d_max; rewrite Pw; reflexivity).
  assert (Z0 : d_eqb w d_zero = false).
  { change (d_eqb w d_zero) with (w =? 0)%float. rewrite FloatAxioms.eqb_spec.
    apply positive_spec in Pw. change (Prim2SF 0) with (S754_zero false).
    destruct (Prim2SF w) as [sw|[|]| |[|] mw ew]; try contradiction; reflexivity. }
  rewrite Ew, Z0 in Hn.
  pose proof (binary64_heavy_quotient W (m_total_weight p) w Hw HW Ht). lia.
Qed.

(** *** The quotient of the whole capacity by a lighter weight *)

Lemma float_sub_zero (W : float) : d_sub W d_zero = W.
Proof.
  apply Prim2SF_inj. change (d_sub W d_zero) with (W - 0)%float.
  rewrite sub_spec. change (Prim2SF 0) with (S754_zero false).
  destruct (Prim2SF W) as [s|[|]| |s m e]; try reflexivity.
  destruct s; reflexivity.
Qed.

Lemma binary64_light_quotient (W w : float) (t : Z) :
  d_ltb d_zero w = true -> d_ltb W w = false ->
  d_trunc (d_div W w) = Some t -> 1 <= t.
Proof.
  intros Pw Hl. change (d_trunc (d_div W w)) with (Binary64.trunc (W / w)%float).
  unfold Binary64.trunc. rewrite div_spec.
  apply positive_spec in Pw.
  change (d_ltb W w) with (W <? w)%float in Hl. rewrite FloatAxioms.ltb_spec in Hl.
  pose proof (Prim2SF_valid W) as VW. pose proof (Prim2SF_valid w) as Vw.
  destruct (Prim2SF w) as [sw|[|]| |[|] mw ew]; try contradiction.
  - (* an infinite weight *)
    destruct (Prim2SF W) as [sW|[|]| |[|] mW eW]; try discriminate Hl;
      cbn [SF64div SFdiv]; discriminate.
  - destruct (Prim2SF W) as [sW|[|]| |[|] mW eW]; try discriminate Hl;
      try (cbn [SF64div SFdiv]; discriminate).
    destruct (valid_canonical _ _ _ VW) as [CW _].
    destruct (valid_canonical _ _ _ Vw) as [Cw _].
    assert (LQ : (F2Q (Z.pos mw) ew <= F2Q (Z.pos mW) eW)%Q).
    { unfold SFltb in Hl. rewrite (SFcompare_finite _ _ _ _ CW Cw) in Hl.
      destruct (F2Q (Z.pos mW) eW ?= F2Q (Z.pos mw) ew)%Q eqn:Cmp;
        [|discriminate Hl|].
      - apply Qeq_alt in Cmp. rewrite Cmp. apply Qle_refl.
      - apply Qgt_alt in Cmp. apply Qlt_le_weak. exact Cmp. }
    pose proof (SFdiv_at_least_one mW mw eW ew LQ) as D.
    unfold SF64div.
    destruct (SFdiv prec emax (S754_finite false mW eW) (S754_finite false mw ew))
      as [s|s| |s m e]; try contradiction; try discriminate.
    destruct D as [-> D]. intro E. inversion E; subst.
    apply mag_down_at_least_one. exact D.
Qed.

Lemma binary64_normalized_not_negative (max_weight : float) :
  d_ltb (d_max d_tenth max_weight) d_zero = false.
Proof.
  unfold d_max. destruct (d_ltb d_tenth max_weight) eqn:E; [|reflexivity].
  apply not_negative_spec.
  change (d_ltb d_tenth max_weight) with (0.1 <? max_weight)%float in E.
  rewrite FloatAxioms.ltb_spec in E.
  destruct (Prim2SF max_weight) as [s|[|]| |[|] m e]; try exact I;
    vm_compute in E; discriminate E.
Qed.

Lemma positive_not_zero (w : float) :
  d_ltb d_zero w = true -> d_eqb w d_zero = false.
Proof.
  intro Pw. change (d_eqb w d_zero) with (w =? 0)%float. rewrite FloatAxioms.eqb_spec.
  apply positive_spec in Pw. change (Prim2SF 0) with (S754_zero false).
  destruct (Prim2SF w) as [sw|[|]| |[|] mw ew]; try contradiction; reflexivity.
Qed.

Lemma binary64_empty_pack_accepts (number id length quantity : Z) (weight : float)
    (max_items : Z) (max_weight : float) :
  1 <= quantity ->
  1 <= max_items <= Int.INT_MAX ->
  d_ltb max_weight d_zero = false ->
  d_ltb max_weight weight = false ->
  (d_ltb d_zero weight = true ->
   exists t, d_trunc (d_div max_weight weight) = Some t /\ t <= Int.INT_MAX) ->
  1 <= fst (add_partial_item (new_pack number) id length quantity weight
              max_items max_weight).
Proof.
  intros Hq Hm HW Hw Hr.
  rewrite add_partial_item_unfold.
  replace (guard quantity max_items max_weight) with false.
  2:{ symmetry. unfold guard. rewrite !orb_false_iff, !Z.leb_gt.
      repeat split; try lia. exact HW. }
  cbv zeta.
  assert (C : 1 <= can_add (new_pack number) quantity weight max_items max_weight).
  { unfold can_add. cbn [new_pack m_total_items m_total_weight].
    rewrite sub_in_range
      by (unfold Int.in_range, Int.INT_MIN, Int.INT_MAX in *; lia).
    rewrite float_sub_zero. unfold d_max.
    destruct (d_ltb d_zero weight) eqn:Pw.
    - rewrite (positive_not_zero weight Pw).
      destruct (Hr eq_refl) as (t & T & R).
      pose proof (binary64_light_quotient max_weight weight t Pw Hw T) as L.
      unfold static_cast_int. rewrite T.
      replace (Int.in_rangeb t) with true; [lia|].
      symmetry. apply in_rangeb_spec. unfold Int.in_range, Int.INT_MIN. lia.
    - change (d_eqb (D := float) d_zero d_zero) with true. cbv iota. lia. }
  replace (0 <? can_add (new_pack number) quantity weight max_items max_weight)
    with true by (symmetry; apply Z.ltb_lt; lia).
  exact C.
Qed.

(** *** A pack at its weight limit *)

Lemma SFsub_spent (X Y : spec_float) :
  valid_binary X = true -> valid_binary Y = true ->
  sf_not_negative X -> SFleb X Y = true ->
  sf_not_positive (SFsub prec emax X Y).
Proof.
  intros VX VY HX L.
  destruct X as [sx|[|]| |[|] mx ex]; cbn [sf_not_negative] in HX; try contradiction;
    destruct Y as [sy|[|]| |[|] my ey]; try discriminate L;
    try (cbn [SFsub negb sf_not_positive]; try destruct sx; try destruct sy; exact I).
  destruct (valid_canonical _ _ _ VX) as [CX _].
  destruct (valid_canonical _ _ _ VY) as [CY _].
  assert (LQ : (F2Q (Z.pos mx) ex <= F2Q (Z.pos my) ey)%Q).
  { unfold SFleb in L. rewrite (SFcompare_finite _ _ _ _ CX CY) in L.
    destruct (F2Q (Z.pos mx) ex ?= F2Q (Z.pos my) ey)%Q eqn:Cmp;
      [| |discriminate L].
    - apply Qeq_alt in Cmp. rewrite Cmp. apply Qle_refl.
    - apply Qlt_alt in Cmp. apply Qlt_le_weak. exact Cmp. }
  cbn [SFsub cond_Zopp].
  set (ez := Z.min ex ey).
  pose proof (shl_align_spec mx ex ez) as A. pose proof (shl_align_spec my ey ez) as B.
  destruct (shl_align mx ex ez) as [a ea]. destruct (shl_align my ey ez) as [b eb].
  cbn [fst]. destruct A as [A1 A2]. destruct B as [B1 B2].
  assert (Ea : ea = ez) by (subst ez; lia). assert (Eb : eb = ez) by (subst ez; lia).
  rewrite Ea in A2. rewrite Eb in B2. clear A1 B1 Ea Eb ea eb.
  assert (Hab : Z.pos a <= Z.pos b).
  { destruct (Z_le_gt_dec (Z.pos a) (Z.pos b)) as [|G]; [assumption|]. exfalso.
    rewrite (F2Q_align (Z.pos mx) ex ez) in LQ by (subst ez; lia).
    rewrite (F2Q_align (Z.pos my) ey ez) in LQ by (subst ez; lia).
    rewrite <- A2, <- B2 in LQ.
    assert (X : (F2Q (Z.pos b) ez < F2Q (Z.pos a) ez)%Q).
    { unfold F2Q. apply Qmult_lt_compat_r; [apply pow2_pos|].
      rewrite <- Zlt_Qlt. lia. }
    lra. }
  destruct (Z.pos a - Z.pos b) as [|d|d] eqn:Ed; cbn [binary_normalize]; [exact I|lia|].
  pose proof (binary_round_shape true d ez) as S.
  destruct (binary_round prec emax true d ez) as [s|s| |s m e]; try exact I;
    subst s; exact I.
Qed.

Lemma SFdiv_spent (X w : spec_float) :
  sf_not_positive X ->
  match w with S754_finite false _ _ | S754_infinity false => True | _ => False end ->
  sf_not_positive (SFdiv prec emax X w).
Proof.
  intros HX Hw.
  destruct w as [sw|[|]| |[|] mw ew]; try contradiction;
    destruct X as [sx|[|]| |[|] mx ex]; cbn [sf_not_positive] in HX; try contradiction;
    try (cbn [SFdiv xorb sf_not_positive]; try destruct sx; exact I).
  cbn [SFdiv xorb].
  destruct (SFdiv_core_binary prec emax (Z.pos mx) ex (Z.pos mw) ew) as [[q eq] l].
  pose proof (binary_round_aux_shape true q eq l) as S.
  destruct (binary_round_aux prec emax true q eq l) as [s|s| |s m e]; try exact I;
    subst s; exact I.
Qed.

Lemma binary64_spent_quotient (W tw w : float) :
  d_ltb W d_zero = false -> d_leb W tw = true -> d_ltb d_zero w = true ->
  static_cast_int (d_div (d_sub W tw) w) <= 0.
Proof.
  intros HW L Pw. apply cast_not_positive.
  change (d_div (d_sub W tw) w) with ((W - tw) / w)%float.
  rewrite div_spec, sub_spec. intros m e E. exfalso.
  apply not_negative_spec in HW. apply positive_spec in Pw.
  change (d_leb W tw) with (W <=? tw)%float in L. rewrite FloatAxioms.leb_spec in L.
  pose proof (SFsub_spent _ _ (Prim2SF_valid W) (Prim2SF_valid tw) HW L) as X.
  pose proof (SFdiv_spent _ _ X Pw) as Y.
  unfold SF64div, SF64sub in E. rewrite E in Y. exact Y.
Qed.

Lemma binary64_spent_rejected (p : pack float) id len q (w : float) mi (W : float) :
  d_leb W (m_total_weight p) = true ->
  d_ltb d_zero w = true ->
  fst (add_partial_item p id len q w mi W) <= 0.
Proof.
  intros L Pw.
  destruct (add_partial_item_cases p id len q w mi W) as [[H _]|[Hpos [G [Hn _]]]];
    [exact H|].
  exfalso. apply guard_false in G. destruct G as (_ & _ & HW).
  set (n := fst (add_partial_item p id len q w mi W)) in *.
  unfold can_add in Hn.
  assert (Ew : d_max d_zero w = w) by (unfold d_max; rewrite Pw; reflexivity).
  rewrite Ew, (positive_not_zero w Pw) in Hn.
  pose proof (binary64_spent_quotient W (m_total_weight p) w HW L Pw). lia.
Qed.

(** ** The capacity of a pack *)

Lemma add_partial_item_within_count {D : Type} {DD : Double D}
    (p : pack D) id len q w max_items max_weight :
  1 <= max_items <= Int.INT_MAX ->
  within_count max_items p ->
  within_count max_items
    (snd (add_partial_item p id len q w max_items max_weight)).
Proof.
  intros HM [H0 H1].
  destruct (add_partial_item_cases p id len q w max_items max_weight)
    as [[_ E]|[Hpos [_ [Hn E]]]]; rewrite E; [split; assumption|].
  set (n := fst (add_partial_item p id len q w max_items max_weight)) in *.
  unfold can_add in Hn.
  rewrite sub_in_range in Hn
    by (unfold Int.in_range, Int.INT_MIN, Int.INT_MAX in *; lia).
  unfold within_count, accepted. simpl.
  rewrite add_in_range
    by (unfold Int.in_range, Int.INT_MIN, Int.INT_MAX in *; lia).
  lia.
Qed.

Lemma pack_items_within_count {D : Type} {DD : Double D}
    (this : parallel_pack_strategy) (sch : schedule) (items : list (item D))
    (max_items : Z) (max_weight : D) :
  Int.in_range max_items ->
  Forall (within_count (Z.max 1 max_items))
    (snd (pack_items this sch items max_items max_weight)).
Proof.
  intros R.
  apply (pack_items_packwise (within_count (Z.max 1 max_items))
           (fun _ => True)); auto.
  - intros n. unfold within_count. simpl. lia.
  - intros i p q _ H _ _. apply add_partial_item_within_count; [|exact H].
    unfold Int.in_range, Int.INT_MIN, Int.INT_MAX in *. lia.
Qed.

(** X31.  The count half of the capacity invariant.  Every pack
    [pack_items] returns, from the sequential branch or from a worker's
    chunk, under any schedule, holds between 0 and [max (1, max_items)]
    units, whatever the arithmetic of [double]; and [add_partial_item]
    keeps a pack within its count. *)
Theorem count_capacity_invariant :
  (forall (D : Type) (DD : Double D) (this : parallel_pack_strategy)
          (sch : schedule) (items : list (item D)) (max_items : Z)
          (max_weight : D) (p : pack D),
      Int.in_range max_items ->
      In p (snd (pack_items this sch items max_items max_weight)) ->
      0 <= m_total_items p <= Z.max 1 max_items)
  /\ (forall (D : Type) (DD : Double D) (p : pack D) id len q w
             (max_items : Z) (max_weight : D),
      1 <= max_items <= Int.INT_MAX ->
      0 <= m_total_items p <= max_items ->
      0 <= m_total_items (snd (add_partial_item p id len q w max_items max_weight))
        <= max_items).
Proof.
  split.
  - intros D DD this sch items max_items max_weight p H H0.
    pose proof (pack_items_within_count this sch items max_items max_weight H) as F.
    rewrite Forall_forall in F. apply (F p H0).
  - intros D DD p id len q w max_items max_weight H H0.
    apply (add_partial_item_within_count p id len q w max_items max_weight H H0).
Qed.

Lemma count_capacity_invariant_witness :
  Int.in_range 10
  /\ forall p : pack float,
       In p (snd (pack_items (construct None 8) example_schedule
                    [mk_item 1 100 100 1%float] 10 1000%float)) ->
       0 <= m_total_items p <= Z.max 1 10.
Proof.
  split; [unfold Int.in_range, Int.INT_MIN, Int.INT_MAX; lia|].
  intros p H.
  apply (proj1 count_capacity_invariant float binary64 (construct None 8)
           example_schedule [mk_item 1 100 100 1%float] 10 1000%float p);
    [unfold Int.in_range, Int.INT_MIN, Int.INT_MAX; lia | exact H].
Defined.

(** C1.  The weight half of the capacity invariant does not hold of the
    program.  One item of 45 units of weight 22222222.222222224 under
    [max_items = 100] and [max_weight = 1e9]: the quotient
    [1e9 / 22222222.222222224] rounds to 45, all 45 units are accepted, and
    their weight, [45 * 22222222.222222224], rounds to 1000000000.0000001.
    The one pack [pack_items] returns weighs more than
    [max_weight + 1e-9], by the comparison of the doubles and as exact
    numbers.  [add_item] refuses the same 45 units for the same limits. *)
Theorem weight_capacity_exceeded :
  let item := mk_item 1 100 45 22222222.222222224%float in
  let p := accepted (new_pack 1) 1 100 45 22222222.222222224%float in
  heavy_load = [item]
  /\ snd (pack_items (construct None 8) example_schedule heavy_load 100 1e9%float)
     = [p]
  /\ m_total_items p = 45
  /\ m_total_weight p = 1000000000.0000001%float
  /\ d_max d_tenth 1e9%float = 1e9%float
  /\ within_weightb (d_max d_tenth 1e9%float) p = false
  /\ (exists total limit : Q,
        value (m_total_weight p) = Some total
        /\ value (d_max d_tenth 1e9%float) = Some limit
        /\ (limit + (1 # 1000000000) < total)%Q)
  /\ add_item (new_pack 1) item 100 1e9%float = (false, new_pack 1).
Proof.
  cbv zeta.
  split; [reflexivity|].
  split; [vm_compute; reflexivity|].
  split; [vm_compute; reflexivity|].
  split; [vm_compute; reflexivity|].
  split; [vm_compute; reflexivity|].
  split; [vm_compute; reflexivity|].
  split; [|vm_compute; reflexivity].
  eexists. eexists. split; [vm_compute; reflexivity|].
  split; [vm_compute; reflexivity|]. vm_compute. reflexivity.
Qed.

(** X32.  The weight of a pack is never negative: on binary64, no pack
    [pack_items] returns, from the sequential branch or from a worker's
    chunk, has a total weight below 0, whatever the items are (negative
    weights, infinities and NaN included). *)
Theorem weight_never_negative (this : parallel_pack_strategy) (sch : schedule)
    (items : list (item float)) (max_items : Z) (max_weight : float)
    (p : pack float) :
  In p (snd (pack_items this sch items max_items max_weight)) ->
  d_ltb (m_total_weight p) d_zero = false.
Proof.
  intros Hp.
  assert (F : Forall (fun p : pack float => d_ltb (m_total_weight p) d_zero = false)
                (snd (pack_items this sch items max_items max_weight))).
  { apply (pack_items_packwise
             (fun p : pack float => d_ltb (m_total_weight p) d_zero = false)
             (fun _ => True)); auto.
    intros i p' q _ H _ _. apply binary64_accept_not_negative. exact H. }
  rewrite Forall_forall in F. exact (F p Hp).
Qed.

Lemma weight_never_negative_witness :
  In (mk_pack 1 [mk_item 1 100 5 0%float] 5 0%float 100)
     (snd (pack_items (construct None 8) example_schedule
             [mk_item 1 100 5 (-3)%float] 10 25%float))
  /\ d_ltb (m_total_weight (mk_pack 1 [mk_item 1 100 5 0%float] 5 0%float 100))
       d_zero = false.
Proof.
  assert (H : In (mk_pack 1 [mk_item 1 100 5 0%float] 5 0%float 100)
                (snd (pack_items (construct None 8) example_schedule
                        [mk_item 1 100 5 (-3)%float] 10 25%float)))
    by (vm_compute; left; reflexivity).
  split; [exact H|].
  exact (weight_never_negative (construct None 8) example_schedule
           [mk_item 1 100 5 (-3)%float] 10 25%float _ H).
Defined.

(** ** The aggregates of a pack *)

Section Aggregates.

Context {D : Type} {DD : Double D}.

Lemma sum_quantities_snoc (l : list (item D)) (r : item D) :
  sum_quantities (l ++ [r]) = sum_quantities l + get_quantity r.
Proof. induction l as [|a l IH]; simpl; lia. Qed.

Lemma max_lengths_nonneg (l : list (item D)) : 0 <= max_lengths l.
Proof. induction l as [|a l IH]; simpl; lia. Qed.

Lemma max_lengths_snoc (l : list (item D)) (r : item D) :
  0 <= get_length r ->
  max_lengths (l ++ [r]) = Z.max (max_lengths l) (get_length r).
Proof. intros H. induction l as [|a l IH]; simpl; lia. Qed.

Lemma sum_weights_snoc (l : list (item D)) (r : item D) :
  sum_weights (l ++ [r])
  = d_add (sum_weights l) (d_mul (d_of_int (get_quantity r)) (get_weight r)).
Proof. unfold sum_weights. rewrite fold_left_app. reflexivity. Qed.

Lemma add_partial_item_consistent (p : pack D) id len q w max_items max_weight :
  1 <= max_items <= Int.INT_MAX ->
  within_count max_items p ->
  consistent p ->
  consistent (snd (add_partial_item p id len q w max_items max_weight)).
Proof.
  intros HM [H0 H1] [Ci [Cw [Cl Cr]]].
  destruct (add_partial_item_cases p id len q w max_items max_weight)
    as [[_ E]|[Hpos [_ [Hn E]]]]; rewrite E; [repeat split; assumption|].
  set (n := fst (add_partial_item p id len q w max_items max_weight)) in *.
  unfold can_add in Hn.
  rewrite sub_in_range in Hn
    by (unfold Int.in_range, Int.INT_MIN, Int.INT_MAX in *; lia).
  unfold consistent, accepted. cbn [m_total_items m_total_weight m_max_length m_items].
  rewrite add_in_range
    by (unfold Int.in_range, Int.INT_MIN, Int.INT_MAX in *; lia).
  rewrite sum_quantities_snoc, sum_weights_snoc, max_lengths_snoc
    by (cbn [get_length]; lia).
  cbn [get_quantity get_weight get_length]. rewrite Ci, Cw, Cl.
  repeat split; try reflexivity.
  apply Forall_app. split; [exact Cr|].
  constructor; [|constructor]. cbn [get_quantity get_length]. lia.
Qed.

(** X6.  The running aggregates are the sums of the records: in every
    pack [pack_items] returns, for every arithmetic of [double],
    [total_items] is the sum of the quantities of its records,
    [total_weight] the sum of their quantity times weight, added in the
    order of the records, [max_length] the greatest of their lengths, and
    every record holds a positive quantity and a length of at least 1. *)
Theorem aggregates_are_sums (this : parallel_pack_strategy) (sch : schedule)
    (items : list (item D)) (max_items : Z) (max_weight : D) (p : pack D) :
  Int.in_range max_items ->
  In p (snd (pack_items this sch items max_items max_weight)) ->
  consistent p.
Proof.
  intros R H.
  assert (F : Forall (fun p => within_count (Z.max 1 max_items) p /\ consistent p)
                (snd (pack_items this sch items max_items max_weight))).
  { apply (pack_items_packwise
             (fun p => within_count (Z.max 1 max_items) p /\ consistent p)
             (fun _ => True)); auto.
    - intros n. split.
      + unfold within_count. simpl. lia.
      + repeat split; constructor.
    - intros i p' q _ [Hc Hs] _ _.
      assert (1 <= Z.max 1 max_items <= Int.INT_MAX)
        by (unfold Int.in_range, Int.INT_MIN, Int.INT_MAX in *; lia).
      split.
      + apply add_partial_item_within_count; assumption.
      + apply add_partial_item_consistent; assumption. }
  rewrite Forall_forall in F. exact (proj2 (F p H)).
Qed.

End Aggregates.

Lemma aggregates_are_sums_witness :
  Int.in_range 10
  /\ forall p : pack float,
       In p (snd (pack_items (construct None 8) example_schedule
                    [mk_item 1 100 100 1%float] 10 1000%float)) ->
       consistent p.
Proof.
  assert (R : Int.in_range 10)
    by (unfold Int.in_range, Int.INT_MIN, Int.INT_MAX; lia).
  split; [exact R|]. intros p H.
  exact (aggregates_are_sums (construct None 8) example_schedule
           [mk_item 1 100 100 1%float] 10 1000%float p R H).
Defined.

(** ** The sequential branch *)

Section SequentialBranch.

Context {D : Type} {DD : Double D}.

Lemma pack_items_sequential (this : parallel_pack_strategy) (sch : schedule)
    (items : list (item D)) (max_items : Z) (max_weight : D) :
  Z.of_nat (List.length items) < 5000 \/ clamp_threads (m_num_threads this) = 1 ->
  snd (pack_items this sch items max_items max_weight) =
    packs (sequential_fill items (Z.max 1 max_items) (d_max d_tenth max_weight)).
Proof.
  intros H. unfold pack_items.
  replace ((Z.of_nat (List.length items) <? 5000)
           || (clamp_threads (m_num_threads this) =? 1)) with true; [reflexivity|].
  symmetry. apply orb_true_iff.
  destruct H as [H|H]; [left; apply Z.ltb_lt | right; apply Z.eqb_eq]; exact H.
Qed.

Lemma add_partial_item_pack_number (p : pack D) id len q w max_items max_weight :
  m_pack_number (snd (add_partial_item p id len q w max_items max_weight)) =
    m_pack_number p.
Proof.
  destruct (add_partial_item_cases p id len q w max_items max_weight)
    as [[_ E]|[_ [_ [_ E]]]]; rewrite E; reflexivity.
Qed.

Lemma numbers_from_one_succ (n : nat) :
  numbers_from_one (Datatypes.S n) = numbers_from_one n ++ [Z.of_nat n + 1].
Proof.
  unfold numbers_from_one. rewrite seq_S, map_app. simpl.
  do 2 f_equal. lia.
Qed.

Lemma numbers_from_one_NoDup (n : nat) : NoDup (numbers_from_one n).
Proof.
  unfold numbers_from_one. apply NoDup_map_NoDup_ForallPairs.
  - intros a b _ _ E. apply Nat2Z.inj. exact E.
  - apply seq_NoDup.
Qed.

(** The numbers of the packs are 1, 2, ..., and the local variable
    [pack_number] is the number of packs made so far; the pack-count
    ceiling keeps it far from [INT_MAX]. *)
Lemma sequential_fill_numbers (items : list (item D)) (max_items : Z)
    (max_weight : D) :
  let st := sequential_fill items max_items max_weight in
  map m_pack_number (packs st) = numbers_from_one (List.length (packs st))
  /\ source st = Z.of_nat (List.length (packs st)).
Proof.
  unfold sequential_fill.
  set (reserve := Z.min 100000 _).
  apply (fill_items_invariant next_local max_items max_weight 1000000 reserve
           (fun fr p src =>
              map m_pack_number (fr ++ [p])
                = numbers_from_one (List.length (fr ++ [p]))
              /\ src = Z.of_nat (List.length (fr ++ [p])))
           (fun _ => True)); auto.
  - intros i fr p src q _ [H1 H2] _ _.
    rewrite !length_app, !map_app in *. simpl in *.
    rewrite add_partial_item_pack_number. auto.
  - intros fr p src [H1 H2] R _.
    assert (Hr : reserve <= 100000) by (unfold reserve; lia).
    unfold next_local. simpl. subst src.
    rewrite add_in_range
      by (unfold Int.in_range, Int.INT_MIN, Int.INT_MAX; lia).
    rewrite (length_app (fr ++ [p])). simpl List.length.
    rewrite Nat.add_1_r, numbers_from_one_succ, map_app, H1. simpl.
    split; [reflexivity | lia].
Qed.

(** C7.  The list the sequential fill returns is in creation order and its
    pack numbers are 1, 2, ..., N, with no gap; in particular they are
    pairwise distinct.  This holds for every input and all constraints, and
    so for what [pack_items] returns whenever it takes the sequential
    branch. *)
Theorem sequential_numbering (items : list (item D)) (max_items : Z)
    (max_weight : D) :
  map m_pack_number (packs (sequential_fill items max_items max_weight)) =
    numbers_from_one
      (List.length (packs (sequential_fill items max_items max_weight)))
  /\ NoDup (map m_pack_number (packs (sequential_fill items max_items max_weight)))
  /\ forall (this : parallel_pack_strategy) (sch : schedule),
       Z.of_nat (List.length items) < 5000
       \/ clamp_threads (m_num_threads this) = 1 ->
       map m_pack_number (snd (pack_items this sch items max_items max_weight)) =
         numbers_from_one
           (List.length (snd (pack_items this sch items max_items max_weight))).
Proof.
  destruct (sequential_fill_numbers items max_items max_weight) as [H _].
  split; [exact H|]. split; [rewrite H; apply numbers_from_one_NoDup|].
  intros this sch Hsmall. rewrite pack_items_sequential by exact Hsmall.
  apply sequential_fill_numbers.
Qed.

End SequentialBranch.

(** ** Items that are too heavy *)

(** A too heavy item leaves every pack as it is. *)
Lemma heavy_item_changes_no_pack {S : Type} (next : S -> Z * S)
    (max_items : Z) (max_weight : float) (max_iterations max_safe_reserve : Z)
    (st : fill_state float S) (i : item float) :
  Forall (fun p : pack float => d_ltb (m_total_weight p) d_zero = false)
    (packs st) ->
  d_ltb max_weight (get_weight i) = true ->
  packs (fill_item next max_items max_weight max_iterations max_safe_reserve
           st i)
  = packs st.
Proof.
  intros Hw Hh. unfold fill_item.
  destruct (get_quantity i <=? 0); [reflexivity|].
  destruct (iterations_left max_iterations st) as [|fuel]; [reflexivity|].
  rewrite fill_while_unfold. cbv zeta.
  destruct (get_quantity i <=? 0); [reflexivity|].
  destruct (max_iterations <? Int.add (safety_counter st) 1); [reflexivity|].
  unfold packs in Hw. apply Forall_app in Hw. destruct Hw as [_ Hb].
  inversion Hb as [|? ? Hb' _]; subst.
  pose proof (binary64_heavy_rejected (back st) (get_id i) (get_length i)
                (get_quantity i) (get_weight i) max_items max_weight
                Hb' Hh) as R.
  pose proof (add_partial_item_cases (back st) (get_id i) (get_length i)
                (get_quantity i) (get_weight i) max_items max_weight) as C.
  destruct (add_partial_item (back st) (get_id i) (get_length i)
              (get_quantity i) (get_weight i) max_items max_weight) as [a cp].
  cbv zeta in C. cbn [fst snd] in C, R.
  destruct C as [[_ C]|[C _]]; [subst cp | lia].
  replace (0 <? a) with false by (symmetry; apply Z.ltb_ge; exact R).
  rewrite Hh. reflexivity.
Qed.

(** What an acceptance keeps: no negative weight, and no record of an id
    whose items are too heavy. *)
Lemma no_heavy_record_accepted (id : Z) (W : float) (i : item float)
    (p : pack float) (q mi : Z) :
  (get_id i = id -> d_ltb W (get_weight i) = true) ->
  d_ltb (m_total_weight p) d_zero = false
  /\ (forall r, In r (m_items p) -> get_id r <> id) ->
  0 < fst (add_partial_item p (get_id i) (get_length i) q (get_weight i) mi W) ->
  d_ltb (m_total_weight
           (snd (add_partial_item p (get_id i) (get_length i) q (get_weight i)
                   mi W))) d_zero = false
  /\ (forall r,
        In r (m_items (snd (add_partial_item p (get_id i) (get_length i) q
                              (get_weight i) mi W))) ->
        get_id r <> id).
Proof.
  intros Hi [Hw Hid] Hpos. split.
  - apply binary64_accept_not_negative. exact Hw.
  - destruct (Z.eq_dec (get_id i) id) as [E|E].
    + pose proof (binary64_heavy_rejected p (get_id i) (get_length i) q
                    (get_weight i) mi W Hw (Hi E)).
      lia.
    + destruct (add_partial_item_cases p (get_id i) (get_length i) q
                  (get_weight i) mi W)
        as [[_ X]|[_ [_ [_ X]]]]; rewrite X; [exact Hid|].
      intros r' Hr'. simpl in Hr'. apply in_app_or in Hr'.
      destruct Hr' as [Hr'|[Hr'|[]]]; [apply Hid; exact Hr'|].
      subst r'. exact E.
Qed.

(** C5.  In the sequential fill, on binary64, an item whose unit weight
    strictly exceeds the normalized [max_weight] is accepted by no pack:
    whatever the packs built so far (none of a negative weight, as all
    packs of the loop are), the step of the loop for that item leaves all
    of them as they are, so its whole quantity is dropped, without error.
    Hence, when the items carrying an id are all too heavy (in particular
    when the id belongs to one item, and that item is too heavy), no pack
    of the output holds a record with that id. *)
Theorem too_heavy_item_dropped (max_items : Z) (max_weight : float) :
  (forall (S : Type) (next : S -> Z * S) (max_iterations max_safe_reserve : Z)
          (st : fill_state float S) (i : item float),
      Forall (fun p : pack float => d_ltb (m_total_weight p) d_zero = false)
        (packs st) ->
      d_ltb (d_max d_tenth max_weight) (get_weight i) = true ->
      packs (fill_item next (Z.max 1 max_items) (d_max d_tenth max_weight)
               max_iterations max_safe_reserve st i)
      = packs st)
  /\ (forall (items : list (item float)) (id : Z),
      (forall i, In i items -> get_id i = id ->
                 d_ltb (d_max d_tenth max_weight) (get_weight i) = true) ->
      forall p r,
        In p (packs (sequential_fill items (Z.max 1 max_items)
                       (d_max d_tenth max_weight))) ->
        In r (m_items p) ->
        get_id r <> id).
Proof.
  split.
  - intros S next max_iterations max_safe_reserve st i Hw Hh.
    apply heavy_item_changes_no_pack; [exact Hw | exact Hh].
  - intros items id Heavy p r Hp Hr.
    assert (F : Forall (fun p : pack float =>
                          d_ltb (m_total_weight p) d_zero = false
                          /\ forall r, In r (m_items p) -> get_id r <> id)
                  (packs (sequential_fill items (Z.max 1 max_items)
                            (d_max d_tenth max_weight)))).
    { apply sequential_fill_packwise
        with (ok := fun i : item float =>
                      get_id i = id ->
                      d_ltb (d_max d_tenth max_weight) (get_weight i) = true).
      - intros n. split; [reflexivity | intros r' []].
      - intros i p' q Hi H Hq Hpos.
        exact (no_heavy_record_accepted id _ i p' q _ Hi H Hpos).
      - exact Heavy. }
    rewrite Forall_forall in F. exact (proj2 (F p Hp) r Hr).
Qed.

(** The scenario of the specification: one item of weight 50 under
    [max_weight = 25]. *)
Lemma too_heavy_item_dropped_witness :
  (forall i, In i [mk_item 1 100 5 50%float] -> get_id i = 1 ->
             d_ltb (d_max d_tenth 25%float) (get_weight i) = true)
  /\ (forall p r,
        In p (packs (sequential_fill [mk_item 1 100 5 50%float] (Z.max 1 10)
                       (d_max d_tenth 25%float))) ->
        In r (m_items p) ->
        get_id r <> 1).
Proof.
  assert (H : forall i, In i [mk_item 1 100 5 50%float] -> get_id i = 1 ->
                        d_ltb (d_max d_tenth 25%float) (get_weight i) = true).
  { intros i [Hi|[]] _. subst i. reflexivity. }
  split; [exact H|].
  exact (proj2 (too_heavy_item_dropped 10 25%float) [mk_item 1 100 5 50%float] 1 H).
Defined.

(** The same scenario evaluated: the single pack stays empty. *)
Lemma too_heavy_scenario :
  snd (pack_items (construct None 8) example_schedule
         [mk_item 1 100 5 50%float] 10 25%float) = [new_pack 1].
Proof. vm_compute. reflexivity. Qed.

(** ** The number of workers *)

Lemma clamp_threads_range (n : Z) : 1 <= clamp_threads n <= 32.
Proof. unfold clamp_threads. lia. Qed.

Lemma thread_ranges_length (chunk_size remainder count i start_idx : nat) :
  List.length (thread_ranges chunk_size remainder count i start_idx) = count.
Proof.
  revert i start_idx. induction count as [|count IH]; intros i start_idx;
    simpl; [reflexivity|]. rewrite IH. reflexivity.
Qed.

(** C8, as amended.  A strategy constructed without a thread count has 4
    threads, whatever the hardware; a thread count of 0 selects the
    available hardware parallelism, any other count is kept (as an
    unsigned number).  Every call of [pack_items] clamps the count of the
    strategy into the range from 1 to 32 and, in the chunked branch, starts
    exactly that many workers. *)
Theorem thread_count_configuration :
  (forall hardware_concurrency : Z,
      m_num_threads (construct None hardware_concurrency) = 4)
  /\ (forall hardware_concurrency : Z,
      m_num_threads (construct (Some 0) hardware_concurrency)
      = hardware_concurrency)
  /\ (forall (D : Type) (DD : Double D) (this : parallel_pack_strategy)
             (sch : schedule) (items : list (item D)) (max_items : Z)
             (max_weight : D),
      m_num_threads (fst (pack_items this sch items max_items max_weight))
      = clamp_threads (m_num_threads this)
      /\ 1 <= m_num_threads (fst (pack_items this sch items max_items max_weight))
         <= 32)
  /\ (forall (this : parallel_pack_strategy) (size : nat),
      let n := Z.to_nat (clamp_threads (m_num_threads this)) in
      List.length (thread_ranges (size / n) (size mod n) n 0 0) = n
      /\ (1 <= n <= 32)%nat).
Proof.
  split; [reflexivity|]. split; [reflexivity|]. split.
  - intros D DD this sch items max_items max_weight.
    assert (E : m_num_threads (fst (pack_items this sch items max_items max_weight))
                = clamp_threads (m_num_threads this)).
    { unfold pack_items. destruct (_ || _); reflexivity. }
    rewrite E. split; [reflexivity | apply clamp_threads_range].
  - intros this size n. split; [apply thread_ranges_length|].
    pose proof (clamp_threads_range (m_num_threads this)). subst n. lia.
Qed.

(** On a machine with 8 hardware threads the default is not 8. *)
Lemma thread_count_default_is_not_hardware :
  m_num_threads (construct None 8) <> 8.
Proof. vm_compute. discriminate. Qed.

(** ** The chunks of the workers *)

Lemma chunks_length_closed (chunk_size remainder count i : nat) :
  (chunks_length chunk_size remainder count i
   = count * chunk_size + (Nat.min (i + count) remainder - Nat.min i remainder))%nat.
Proof.
  revert i. induction count as [|count IH]; intros i; simpl; [lia|].
  rewrite IH. destruct (i <? remainder)%nat eqn:E.
  - apply Nat.ltb_lt in E. lia.
  - apply Nat.ltb_ge in E. lia.
Qed.

Lemma firstn_firstn_skipn {A : Type} (a b : nat) (l : list A) :
  firstn a l ++ firstn b (skipn a l) = firstn (a + b) l.
Proof.
  revert l. induction a as [|a IH]; intros l; simpl; [reflexivity|].
  destruct l as [|x l]; simpl; [apply firstn_nil|]. f_equal. apply IH.
Qed.

Lemma firstn_skipn_add {A : Type} (a b start : nat) (l : list A) :
  firstn a (skipn start l) ++ firstn b (skipn (start + a) l)
  = firstn (a + b) (skipn start l).
Proof.
  rewrite (Nat.add_comm start a), <- skipn_skipn. apply firstn_firstn_skipn.
Qed.

Lemma thread_ranges_concat {A : Type} (items : list A)
    (chunk_size remainder count : nat) :
  forall i start_idx,
    concat (map ((fun r => slice items (fst r) (snd r)))
              (thread_ranges chunk_size remainder count i start_idx))
    = firstn (chunks_length chunk_size remainder count i) (skipn start_idx items).
Proof.
  induction count as [|count IH]; intros i start_idx; simpl; [reflexivity|].
  rewrite IH. unfold slice at 1. simpl.
  replace (start_idx + (chunk_size + (if (i <? remainder)%nat then 1 else 0))
           - start_idx)%nat
    with (chunk_size + (if (i <? remainder)%nat then 1 else 0))%nat by lia.
  apply firstn_skipn_add.
Qed.

Lemma thread_ranges_sizes (chunk_size remainder count : nat) :
  forall i start_idx,
    Forall (fun r => (chunk_size <= snd r - fst r <= chunk_size + 1)%nat)
      (thread_ranges chunk_size remainder count i start_idx).
Proof.
  induction count as [|count IH]; intros i start_idx; simpl; constructor.
  - simpl. destruct (i <? remainder)%nat; lia.
  - apply IH.
Qed.

(** X7.  The chunks of the workers partition the item list: for a worker
    count of at least 1, the index ranges that [pack_items] hands to its
    threads are contiguous, cover the items in order and exactly once, and
    each holds [size / n] or [size / n + 1] items. *)
Theorem chunks_partition_items {D : Type} (items : list (item D)) (n : nat) :
  (1 <= n)%nat ->
  concat (map ((fun r => slice items (fst r) (snd r)))
            (thread_ranges (List.length items / n) (List.length items mod n)
               n 0 0))
  = items
  /\ Forall (fun r => (List.length items / n <= snd r - fst r
                        <= List.length items / n + 1)%nat)
       (thread_ranges (List.length items / n) (List.length items mod n) n 0 0).
Proof.
  intros Hn. split; [|apply thread_ranges_sizes].
  rewrite thread_ranges_concat, chunks_length_closed. simpl.
  pose proof (Nat.mod_upper_bound (List.length items) n ltac:(lia)) as M.
  pose proof (Nat.div_mod_eq (List.length items) n) as E.
  replace (n * (List.length items / n)
           + (Nat.min n (List.length items mod n) - 0))%nat
    with (List.length items) by lia.
  apply firstn_all.
Qed.

Lemma chunks_partition_items_witness :
  (1 <= 2)%nat
  /\ concat (map ((fun r =>
                  slice [mk_item 1 1 1 1%Q; mk_item 2 1 1 1%Q; mk_item 3 1 1 1%Q]
                    (fst r) (snd r)))
               (thread_ranges (3 / 2) (3 mod 2) 2 0 0))
     = [mk_item 1 1 1 1%Q; mk_item 2 1 1 1%Q; mk_item 3 1 1 1%Q].
Proof.
  split; [lia|].
  exact (proj1 (chunks_partition_items
                  [mk_item 1 1 1 1%Q; mk_item 2 1 1 1%Q; mk_item 3 1 1 1%Q] 2
                  ltac:(lia))).
Defined.

(** ** The sequential branch and the sequential strategy *)

Section Fallback.

Context {D : Type} {DD : Double D}.
Variables (max_items : Z) (max_weight : D) (max_packs : Z).

(** The state of the branch that corresponds to a state of the strategy. *)
#[local] Abbreviation branch_state s flag :=
  (mk_fill_state (closed s) (current s) (m_pack_number (current s))
     (iterations s) flag).

(** The loop of the branch takes the steps of the strategy. *)
Lemma fill_while_follows (fuel : nat) (i : item D) :
  forall q s flag,
    exists flag',
      fill_while next_local max_items max_weight iteration_ceiling max_packs
        fuel i q (branch_state s flag)
      = branch_state
          (sequential_while fuel max_items max_weight max_packs i q s) flag'.
Proof.
  induction fuel as [|fuel IH]; intros q s flag; simpl in *;
    [exists flag; reflexivity|].
  destruct (q <=? 0); [exists flag; reflexivity|].
  destruct (iteration_ceiling <? Int.add (iterations s) 1);
    [exists true; reflexivity|].
  pose proof (add_partial_item_pack_number (current s) (get_id i) (get_length i)
                q (get_weight i) max_items max_weight) as N.
  destruct (add_partial_item (current s) (get_id i) (get_length i) q
              (get_weight i) max_items max_weight) as [a p].
  simpl in N.
  destruct (0 <? a).
  - rewrite <- N.
    apply (IH (Int.sub q a)
              (mk_sequential_state (closed s) p (Int.add (iterations s) 1))
              flag).
  - destruct (d_ltb max_weight (get_weight i));
      [exists flag; simpl; rewrite N; reflexivity|].
    destruct (is_empty p); [exists flag; simpl; rewrite N; reflexivity|].
    assert (Sz : size (branch_state s flag)
                 = Z.of_nat (List.length (closed s)) + 1).
    { unfold size, packs. simpl. rewrite length_app. simpl. lia. }
    rewrite Sz.
    destruct (max_packs <=? Z.of_nat (List.length (closed s)) + 1);
      [exists true; simpl; rewrite N; reflexivity|].
    unfold next_local. rewrite <- N.
    apply (IH q
             (mk_sequential_state (closed s ++ [p])
                (new_pack (Int.add (m_pack_number p) 1))
                (Int.add (iterations s) 1))
             flag).
Qed.

Lemma fill_items_follow (items : list (item D)) :
  forall s flag,
    exists flag',
      fill_items next_local max_items max_weight iteration_ceiling max_packs
        items (branch_state s flag)
      = branch_state
          (fold_left (sequential_item max_items max_weight max_packs) items s)
          flag'.
Proof.
  unfold fill_items.
  induction items as [|i items IH]; intros s flag; simpl in *;
    [exists flag; reflexivity|].
  assert (Hstep : exists flag1,
             fill_item next_local max_items max_weight iteration_ceiling
               max_packs (branch_state s flag) i
             = branch_state (sequential_item max_items max_weight max_packs s i)
                 flag1).
  { unfold fill_item, sequential_item, iterations_left.
    cbn [safety_counter].
    destruct (get_quantity i <=? 0) eqn:Q; [exists flag; reflexivity|].
    apply fill_while_follows. }
  destruct Hstep as [flag1 E]. rewrite E. apply IH.
Qed.

End Fallback.

Lemma sequential_fill_is_the_strategy {D : Type} {DD : Double D}
    (items : list (item D)) (max_items : Z) (max_weight : D) :
  packs (sequential_fill items (Z.max 1 max_items) (d_max d_tenth max_weight))
  = sequential_strategy items max_items max_weight.
Proof.
  unfold sequential_strategy, sequential_fill, pack_ceiling. cbv zeta.
  destruct (fill_items_follow (Z.max 1 max_items) (d_max d_tenth max_weight)
              (Z.min 100000 (Z.of_nat (List.length items) / 10 + 1000)) items
              (mk_sequential_state [] (new_pack 1) 0) false) as [flag E].
  simpl in E. unfold iteration_ceiling in E. rewrite E. reflexivity.
Qed.

(** ** The conversion of the weight quotient to [int] *)

(** An item of unit weight 1e-9 (5 units) for an empty pack, under
    [max_items = 10] and [max_weight = 25].  The quotient 25 / 1e-9 is
    25000000000, past [INT_MAX]. *)

(** C3 at that input: the specification's formula gives
    [min (10, 25000000000, 5) = 5]; [add_partial_item] returns 0 and leaves
    the pack empty, in binary64 and in exact arithmetic alike. *)
Theorem acceptance_at_quotient_overflow :
  (accepted_quantity (new_pack 1) 5 1e-9%float 10 25%float = Some 5
   /\ add_partial_item (new_pack 1) 1 100 5 1e-9%float 10 25%float
      = (0, new_pack 1))
  /\ (accepted_quantity (new_pack 1) 5 (1 # 1000000000)%Q 10 25%Q = Some 5
      /\ add_partial_item (new_pack 1) 1 100 5 (1 # 1000000000)%Q 10 25%Q
         = (0, new_pack 1)).
Proof. repeat split; vm_compute; reflexivity. Qed.

(** C9 at that input: the pack is empty, the quantity is at least 1,
    [max_items] is at least 1, [max_weight] is at least 0.1 and the unit
    weight lies between 0 and [max_weight]; the accepted quantity is 0.  In
    the fill loop the item is not too heavy and no ceiling is hit, and yet
    the item is dropped: the loop has taken the branch for an empty pack. *)
Theorem empty_pack_fallback_reached :
  (is_empty (new_pack (D := float) 1) = true
   /\ d_leb d_tenth 25%float = true
   /\ d_leb d_zero 1e-9%float = true /\ d_leb 1e-9%float 25%float = true
   /\ fst (add_partial_item (new_pack 1) 1 100 5 1e-9%float 10 25%float) = 0
   /\ d_ltb (d_max d_tenth 25%float) 1e-9%float = false
   /\ ceiling_hit (sequential_fill [mk_item 1 100 5 1e-9%float] (Z.max 1 10)
                     (d_max d_tenth 25%float)) = false
   /\ snd (pack_items (construct None 8) example_schedule
             [mk_item 1 100 5 1e-9%float] 10 25%float) = [new_pack 1])
  /\ (fst (add_partial_item (new_pack 1) 1 100 5 (1 # 1000000000)%Q 10 25%Q) = 0
      /\ snd (pack_items (construct None 8) example_schedule
                [mk_item 1 100 5 (1 # 1000000000)%Q] 10 25%Q) = [new_pack 1]).
Proof. repeat split; vm_compute; reflexivity. Qed.

(** C2 at that input: one item, of positive quantity and of unit weight at
    most the normalized [max_weight]; the sequential fill is taken and no
    ceiling is hit; the output holds 0 of its 5 units. *)
Theorem conservation_at_quotient_overflow :
  let items := [mk_item 1 100 5 1e-9%float] in
  let run := sequential_fill items (Z.max 1 10) (d_max d_tenth 25%float) in
  Forall (fun i => 0 < get_quantity i
                   /\ d_leb (get_weight i) (d_max d_tenth 25%float) = true) items
  /\ snd (pack_items (construct None 8) example_schedule items 10 25%float)
     = packs run
  /\ ceiling_hit run = false
  /\ packed_quantity 1 (packs run) = 0.
Proof.
  cbv zeta. split.
  - constructor; [|constructor]. split; [reflexivity | vm_compute; reflexivity].
  - repeat split; vm_compute; reflexivity.
Qed.

(** ** The acceptance formula where the quotient is an [int] *)

Lemma quot_nonpos (a b : Z) : a <= 0 -> 0 < b -> Z.quot a b <= 0.
Proof.
  intros Ha Hb. replace a with (- - a) by lia.
  rewrite Z.quot_opp_l by lia.
  pose proof (Z.quot_pos (- a) b). lia.
Qed.

#[export] Instance binary64_truncation : Truncation float.
Proof.
  constructor. intros x t. simpl. unfold Binary64.trunc, Binary64.floor.
  destruct (Prim2SF x) as [s|s| |s m e]; try discriminate.
  - intros H. inversion H. exists 0. auto.
  - intros H. inversion H. clear H.
    pose proof (mag_down_nonneg m e). pose proof (mag_up_nonneg m e).
    destruct s; eexists; (split; [reflexivity | lia]).
Qed.

#[export] Instance exact_truncation : Truncation Q.
Proof.
  constructor. intros [a b] t. simpl. unfold Exact.trunc, Exact.floor, Qfloor.
  simpl. intros H. inversion H. clear H. eexists. split; [reflexivity|].
  destruct (Z_lt_le_dec a 0) as [L|L].
  - pose proof (quot_nonpos a (Z.pos b)).
    pose proof (Z.div_lt_upper_bound a (Z.pos b) 0). lia.
  - rewrite Z.quot_div_nonneg by lia. reflexivity.
Qed.

Section InRange.
Context {D : Type} {DD : Double D} {TT : Truncation D}.

(** X1.  The statement of C3 with the range of the quotient added, for
    binary64 and for exact arithmetic: past the guard, where
    [max_items - total_items] is an [int] and the integral part of the
    weight quotient is one too, [add_partial_item] returns the accepted
    quantity of the specification, and when that quantity is positive the
    pack gains one record of exactly that quantity and its three aggregates
    are updated; otherwise the pack is unchanged. *)
Theorem acceptance_formula_in_range
    (p : pack D) (id length requested_quantity : Z) (unit_weight : D)
    (max_items : Z) (max_weight : D) :
  0 < requested_quantity -> 0 < max_items -> d_ltb max_weight d_zero = false ->
  Int.in_range (max_items - m_total_items p) ->
  (d_eqb (d_max d_zero unit_weight) d_zero = false ->
   exists t,
     d_trunc (d_div (d_sub max_weight (m_total_weight p))
                (d_max d_zero unit_weight)) = Some t
     /\ Int.in_range t) ->
  exists n,
    accepted_quantity p requested_quantity unit_weight max_items max_weight
      = Some n
    /\ fst (add_partial_item p id length requested_quantity unit_weight
              max_items max_weight) = n
    /\ snd (add_partial_item p id length requested_quantity unit_weight
              max_items max_weight)
       = if 0 <? n then accepted p id length n unit_weight else p.
Proof.
  intros Hq Hm Hw Hr Ht.
  rewrite add_partial_item_unfold.
  replace (guard requested_quantity max_items max_weight) with false
    by (symmetry; unfold guard; rewrite Hw;
        rewrite !orb_false_iff, !Z.leb_gt; auto).
  cbv zeta. unfold accepted_quantity, room_by_weight, room_by_count, can_add.
  rewrite sub_in_range by exact Hr. cbv zeta.
  destruct (d_eqb (d_max d_zero unit_weight) d_zero) eqn:E.
  - eexists. split; [reflexivity|].
    replace (Z.max 0 requested_quantity) with requested_quantity by lia.
    destruct (0 <? _); split; reflexivity.
  - destruct (Ht eq_refl) as [t [T R]].
    destruct (floor_of_trunc _ _ T) as [f [F M]].
    rewrite F. unfold static_cast_int. rewrite T.
    apply in_rangeb_spec in R. rewrite R.
    eexists. split; [reflexivity|]. rewrite M.
    destruct (0 <? _); split; reflexivity.
Qed.
End InRange.

Lemma acceptance_formula_in_range_witness :
  exists n,
    accepted_quantity (new_pack 1) 5 2.5%float 10 25%float = Some n
    /\ fst (add_partial_item (new_pack 1) 1 100 5 2.5%float 10 25%float) = n
    /\ snd (add_partial_item (new_pack 1) 1 100 5 2.5%float 10 25%float)
       = if 0 <? n then accepted (new_pack 1) 1 100 n 2.5%float else new_pack 1.
Proof.
  apply (acceptance_formula_in_range (new_pack 1) 1 100 5 2.5%float 10 25%float).
  - lia.
  - lia.
  - reflexivity.
  - vm_compute. split; discriminate.
  - intros _. exists 10. split; [vm_compute; reflexivity|].
    vm_compute. split; discriminate.
Defined.

(** ** Progress on an empty pack *)

(** X2.  The statement of C9 with the range of the quotient added, on
    binary64: an empty pack accepts at least one unit of an item that is
    not heavier than [max_weight] (by the test of the loop), under
    [max_items >= 1] and a quantity of at least 1, provided that, where the
    weight is positive, the integral part of [max_weight / weight] is a
    number of at most [INT_MAX].  Rounding cannot take the quotient of the
    capacity by a lighter weight below 1: only the conversion to [int] can
    make an empty pack refuse such an item. *)
Theorem empty_pack_accepts_in_range (number id length quantity : Z)
    (weight : float) (max_items : Z) (max_weight : float) :
  1 <= quantity ->
  1 <= max_items <= Int.INT_MAX ->
  d_ltb max_weight d_zero = false ->
  d_ltb max_weight weight = false ->
  (d_ltb d_zero weight = true ->
   exists t, d_trunc (d_div max_weight weight) = Some t /\ t <= Int.INT_MAX) ->
  1 <= fst (add_partial_item (new_pack number) id length quantity weight
              max_items max_weight).
Proof. apply binary64_empty_pack_accepts. Qed.

Lemma empty_pack_accepts_in_range_witness :
  1 <= fst (add_partial_item (new_pack 1) 1 100 5 2.5%float 10 25%float).
Proof.
  apply (empty_pack_accepts_in_range 1 1 100 5 2.5%float 10 25%float).
  - lia.
  - unfold Int.INT_MAX. lia.
  - reflexivity.
  - reflexivity.
  - intros _. exists 10. split; [vm_compute; reflexivity|].
    unfold Int.INT_MAX. lia.
Defined.

(** ** The end of the loop *)

Section Fuel.

Context {D : Type} {DD : Double D} {S : Type}.
Variable next : S -> Z * S.
Variables (max_items : Z) (max_weight : D).
Variables (max_iterations max_safe_reserve : Z).

Lemma needed_after_step (fuel : nat) (st : fill_state D S)
    (fr : list (pack D)) (b : pack D) (src : S) (flag : bool) :
  max_iterations < Int.INT_MAX ->
  needed max_iterations st <= Z.of_nat (Datatypes.S fuel) ->
  (max_iterations <? Int.add (safety_counter st) 1) = false ->
  needed max_iterations
    (mk_fill_state fr b src (Int.add (safety_counter st) 1) flag)
  <= Z.of_nat fuel.
Proof.
  intros Hc Hfuel C. unfold needed in *. cbn [safety_counter].
  rewrite C in Hfuel. apply Z.ltb_ge in C.
  pose proof (wrap_range (safety_counter st + 1)) as R.
  fold (Int.add (safety_counter st) 1) in R.
  rewrite (add_in_range (Int.add (safety_counter st) 1) 1)
    by (unfold Int.in_range, Int.INT_MIN, Int.INT_MAX in *; lia).
  destruct (max_iterations <? Int.add (safety_counter st) 1 + 1); lia.
Qed.

(** X5.  The fuel [iterations_left] is enough: more of it changes nothing,
    so the loop of the model never stops for lack of fuel; it ends as the
    loop of the code does, on [remaining_quantity <= 0] or on a [break]. *)
Theorem fill_while_fuel_enough (i : item D) :
  max_iterations < Int.INT_MAX ->
  forall fuel extra q st,
    needed max_iterations st <= Z.of_nat fuel ->
    fill_while next max_items max_weight max_iterations max_safe_reserve
      (fuel + extra) i q st
    = fill_while next max_items max_weight max_iterations max_safe_reserve
        fuel i q st.
Proof.
  intros Hc. induction fuel as [|fuel IH]; intros extra q st Hfuel.
  - exfalso. unfold needed in Hfuel.
    destruct (max_iterations <? Int.add (safety_counter st) 1) eqn:E;
      [simpl in Hfuel; lia|].
    apply Z.ltb_ge in E. simpl in Hfuel. lia.
  - simpl. destruct (q <=? 0); [reflexivity|].
    destruct (max_iterations <? Int.add (safety_counter st) 1) eqn:C;
      [reflexivity|].
    destruct (add_partial_item _ _ _ _ _ _ _) as [a cp].
    destruct (0 <? a).
    + apply IH. apply (needed_after_step fuel st); assumption.
    + destruct (d_ltb max_weight (get_weight i)); [reflexivity|].
      destruct (is_empty cp); [reflexivity|].
      destruct (max_safe_reserve <=? size st); [reflexivity|].
      destruct (next (source st)) as [n src].
      apply IH. apply (needed_after_step fuel st); assumption.
Qed.

End Fuel.

Lemma fill_while_fuel_enough_witness :
  fill_while next_local 10 25%float 1000000 1000 (3 + 7)
    (mk_item 1 100 5 2.5%float) 5
    (mk_fill_state [] (new_pack 1) 1 999998 false)
  = fill_while next_local 10 25%float 1000000 1000 3
      (mk_item 1 100 5 2.5%float) 5
      (mk_fill_state [] (new_pack 1) 1 999998 false).
Proof.
  apply (fill_while_fuel_enough next_local 10 25%float 1000000 1000
           (mk_item 1 100 5 2.5%float)).
  - unfold Int.INT_MAX. lia.
  - vm_compute. discriminate.
Defined.

(** ** Conservation *)

Section Accounting.

Context {D : Type} {DD : Double D}.

Lemma quantity_of_app (id : Z) (a b : list (item D)) :
  quantity_of id (a ++ b) = quantity_of id a + quantity_of id b.
Proof.
  induction a as [|r a IH]; simpl; [reflexivity|].
  rewrite IH. destruct (get_id r =? id); lia.
Qed.

Lemma packed_quantity_app (id : Z) (a b : list (pack D)) :
  packed_quantity id (a ++ b) = packed_quantity id a + packed_quantity id b.
Proof.
  induction a as [|p a IH]; simpl; [reflexivity|]. rewrite IH. lia.
Qed.

Lemma packed_quantity_packs {S : Type} (id : Z) (st : fill_state D S) :
  packed_quantity id (packs st)
  = packed_quantity id (front st) + quantity_of id (m_items (back st)).
Proof. unfold packs. rewrite packed_quantity_app. simpl. lia. Qed.

End Accounting.

Section Conservation.

Context {D : Type} {DD : Double D} {S : Type}.
Variable next : S -> Z * S.
Variables (max_items : Z) (max_weight : D).
Variables (max_iterations max_safe_reserve : Z).
Variable ok : item D -> Prop.

Hypothesis ceiling_small : max_iterations < Int.INT_MAX.

Hypothesis ok_quantity : forall i, ok i -> 0 < get_quantity i <= Int.INT_MAX.

Hypothesis ok_light : forall i, ok i -> d_ltb max_weight (get_weight i) = false.

Hypothesis ok_progress :
  forall i number q,
    ok i -> 0 < q ->
    0 < fst (add_partial_item (new_pack number) (get_id i) (get_length i) q
               (get_weight i) max_items max_weight).

Lemma iterations_left_enough (st : fill_state D S) :
  needed max_iterations st <= Z.of_nat (iterations_left max_iterations st).
Proof.
  unfold needed, iterations_left.
  destruct (max_iterations <? Int.add (safety_counter st) 1) eqn:E; lia.
Qed.

Lemma ceiling_hit_stays (fuel : nat) (i : item D) :
  forall q st,
    ceiling_hit st = true ->
    ceiling_hit (fill_while next max_items max_weight max_iterations
                   max_safe_reserve fuel i q st) = true.
Proof.
  induction fuel as [|fuel IH]; intros q st H; simpl; [exact H|].
  destruct (q <=? 0); [exact H|].
  destruct (max_iterations <? Int.add (safety_counter st) 1); [reflexivity|].
  destruct (add_partial_item _ _ _ _ _ _ _) as [a cp].
  destruct (0 <? a); [apply IH; exact H|].
  destruct (d_ltb max_weight (get_weight i)); [exact H|].
  destruct (is_empty cp); [exact H|].
  destruct (max_safe_reserve <=? size st); [reflexivity|].
  destruct (next (source st)) as [n src]. apply IH. exact H.
Qed.

Lemma ceiling_hit_stays_items (items : list (item D)) :
  forall st,
    ceiling_hit st = true ->
    ceiling_hit (fill_items next max_items max_weight max_iterations
                   max_safe_reserve items st) = true.
Proof.
  unfold fill_items. induction items as [|i items IH]; intros st H; simpl;
    [exact H|].
  apply IH. unfold fill_item. destruct (get_quantity i <=? 0); [exact H|].
  apply ceiling_hit_stays. exact H.
Qed.

Lemma is_empty_spec (p : pack D) : is_empty p = true <-> m_items p = [].
Proof.
  unfold is_empty. destruct (m_items p); split; intros H;
    try reflexivity; discriminate.
Qed.

(** One item: when no ceiling ends its loop, all of the quantity [q] it
    still asks for ends up in the packs. *)
Lemma fill_while_conserves (i : item D) :
  ok i ->
  forall fuel q st,
    0 <= q <= Int.INT_MAX ->
    needed max_iterations st <= Z.of_nat fuel ->
    Forall untouched (packs st) ->
    let st' := fill_while next max_items max_weight max_iterations
                 max_safe_reserve fuel i q st in
    ceiling_hit st' = false ->
    Forall untouched (packs st')
    /\ forall id,
         packed_quantity id (packs st')
         = packed_quantity id (packs st) + (if get_id i =? id then q else 0).
Proof.
  intros Hi. induction fuel as [|fuel IH]; intros q st Hq Hfuel Hu; cbv zeta.
  - unfold needed in Hfuel. exfalso.
    destruct (max_iterations <? Int.add (safety_counter st) 1) eqn:E;
      [simpl in Hfuel; lia|].
    apply Z.ltb_ge in E. simpl in Hfuel. lia.
  - simpl. destruct (q <=? 0) eqn:Q.
    { apply Z.leb_le in Q. intros _. split; [exact Hu|].
      intros id. destruct (get_id i =? id); lia. }
    apply Z.leb_gt in Q.
    destruct (max_iterations <? Int.add (safety_counter st) 1) eqn:C;
      [simpl; discriminate|].
    apply Z.ltb_ge in C.
    assert (Hfuel' : forall (fr : list (pack D)) (b : pack D) (src : S) flag,
               needed max_iterations
                 (mk_fill_state fr b src (Int.add (safety_counter st) 1) flag)
               <= Z.of_nat fuel).
    { intros fr b src flag. unfold needed in *. cbn [safety_counter].
      replace (max_iterations <? Int.add (safety_counter st) 1) with false
        in Hfuel by (symmetry; apply Z.ltb_ge; exact C).
      pose proof (wrap_range (safety_counter st + 1)) as R.
      fold (Int.add (safety_counter st) 1) in R.
      rewrite (add_in_range (Int.add (safety_counter st) 1) 1)
        by (unfold Int.in_range, Int.INT_MIN, Int.INT_MAX in *; lia).
      destruct (max_iterations <? Int.add (safety_counter st) 1 + 1); lia. }
    pose proof (add_partial_item_cases (back st) (get_id i) (get_length i) q
                  (get_weight i) max_items max_weight) as A.
    destruct (add_partial_item (back st) (get_id i) (get_length i) q
                (get_weight i) max_items max_weight) as [a cp] eqn:EA.
    cbv zeta in A. simpl in A.
    unfold packs in Hu. apply Forall_app in Hu. destruct Hu as [Hfr Hb].
    destruct (0 <? a) eqn:Pa.
    + apply Z.ltb_lt in Pa.
      destruct A as [[A _]|[_ [G [Ea Ecp]]]]; [lia|].
      assert (La : a <= q).
      { rewrite Ea. unfold can_add. lia. }
      rewrite sub_in_range
        by (unfold Int.in_range, Int.INT_MIN, Int.INT_MAX in *; lia).
      intros Hflag.
      destruct (IH (q - a)
                  (mk_fill_state (front st) cp (source st)
                     (Int.add (safety_counter st) 1) (ceiling_hit st)))
        as [U P]; [lia | apply Hfuel' | | exact Hflag |].
      * unfold packs. simpl. apply Forall_app. split; [exact Hfr|].
        constructor; [|constructor]. subst cp. intros X. simpl in X.
        destruct (m_items (back st)); discriminate.
      * split; [exact U|]. intros id. rewrite P.
        rewrite !packed_quantity_packs. cbn [front back]. subst cp. simpl.
        rewrite quantity_of_app. simpl.
        destruct (get_id i =? id); lia.
    + apply Z.ltb_ge in Pa.
      destruct A as [[_ A]|[A _]]; [subst cp | lia].
      rewrite (ok_light i Hi).
      destruct (is_empty (back st)) eqn:Em.
      { exfalso. apply is_empty_spec in Em.
        inversion Hb as [|? ? Ub _]; subst.
        pose proof (ok_progress i (m_pack_number (back st)) q Hi Q) as Pr.
        rewrite <- (Ub Em) in Pr. rewrite EA in Pr. simpl in Pr. lia. }
      destruct (max_safe_reserve <=? size st); [simpl; discriminate|].
      destruct (next (source st)) as [n src].
      intros Hflag.
      destruct (IH q
                  (mk_fill_state (front st ++ [back st]) (new_pack n) src
                     (Int.add (safety_counter st) 1) (ceiling_hit st)))
        as [U P]; [lia | apply Hfuel' | | exact Hflag |].
      * unfold packs. simpl. apply Forall_app. split.
        -- apply Forall_app. split; assumption.
        -- constructor; [|constructor]. intros _. reflexivity.
      * split; [exact U|]. intros id. rewrite P.
        rewrite !packed_quantity_packs. cbn [front back].
        rewrite packed_quantity_app. simpl. lia.
Qed.

Lemma fill_items_conserve (items : list (item D)) :
  (forall i, In i items -> ok i) ->
  forall st,
    Forall untouched (packs st) ->
    ceiling_hit (fill_items next max_items max_weight max_iterations
                   max_safe_reserve items st) = false ->
    forall id,
      packed_quantity id
        (packs (fill_items next max_items max_weight max_iterations
                  max_safe_reserve items st))
      = packed_quantity id (packs st) + quantity_of id items.
Proof.
  unfold fill_items.
  induction items as [|i items IH]; intros Hok st Hu Hflag id; simpl in *;
    [lia|].
  assert (Hi : ok i) by (apply Hok; left; reflexivity).
  pose proof (ok_quantity i Hi) as Hq.
  assert (F1 : ceiling_hit (fill_item next max_items max_weight max_iterations
                              max_safe_reserve st i) = false).
  { destruct (ceiling_hit (fill_item next max_items max_weight max_iterations
                             max_safe_reserve st i)) eqn:E; [|reflexivity].
    pose proof (ceiling_hit_stays_items items _ E) as X.
    unfold fill_items in X. congruence. }
  unfold fill_item in *.
  replace (get_quantity i <=? 0) with false in *
    by (symmetry; apply Z.leb_gt; lia).
  destruct (fill_while_conserves i Hi (iterations_left max_iterations st)
              (get_quantity i) st) as [U P];
    [lia | apply iterations_left_enough | exact Hu | exact F1 |].
  rewrite IH; [|intros j Hj; apply Hok; right; exact Hj | exact U | exact Hflag].
  rewrite P. destruct (get_id i =? id); lia.
Qed.

End Conservation.

Lemma quantity_of_absent {D : Type} (id : Z) (items : list (item D)) :
  ~ In id (map get_id items) -> quantity_of id items = 0.
Proof.
  induction items as [|a items IH]; simpl; intros H; [reflexivity|].
  destruct (get_id a =? id) eqn:E.
  - apply Z.eqb_eq in E. tauto.
  - apply IH. tauto.
Qed.

Lemma quantity_of_unique {D : Type} (items : list (item D)) :
  NoDup (map get_id items) ->
  forall i, In i items -> quantity_of (get_id i) items = get_quantity i.
Proof.
  induction items as [|a items IH]; simpl; intros N i Hi; [contradiction|].
  inversion N as [|? ? Na Nr]; subst. destruct Hi as [Hi|Hi].
  - subst a. rewrite Z.eqb_refl, quantity_of_absent by exact Na. lia.
  - assert (E : (get_id a =? get_id i) = false).
    { apply Z.eqb_neq. intros E. apply Na. rewrite E. apply in_map. exact Hi. }
    rewrite E. apply IH; assumption.
Qed.

(** What the loop needs of packable items, on binary64. *)
Lemma packable_progress (max_items : Z) (max_weight : float) (i : item float)
    (number q : Z) :
  Int.in_range max_items ->
  packable (d_max d_tenth max_weight) i ->
  0 < q ->
  0 < fst (add_partial_item (new_pack number) (get_id i) (get_length i) q
             (get_weight i) (Z.max 1 max_items) (d_max d_tenth max_weight)).
Proof.
  intros Hr [_ [Hw Hq]] Q0.
  pose proof (binary64_empty_pack_accepts number (get_id i) (get_length i) q
                (get_weight i) (Z.max 1 max_items)
                (d_max d_tenth max_weight)) as P.
  assert (1 <= fst (add_partial_item (new_pack number) (get_id i)
                      (get_length i) q (get_weight i) (Z.max 1 max_items)
                      (d_max d_tenth max_weight))); [|lia].
  apply P; auto; try lia.
  - unfold Int.in_range, Int.INT_MIN, Int.INT_MAX in *. lia.
  - apply binary64_normalized_not_negative.
Qed.

Lemma sequential_fill_conserves (this : parallel_pack_strategy) (sch : schedule)
    (items : list (item float)) (max_items : Z) (max_weight : float) :
  Z.of_nat (List.length items) < 5000 \/ clamp_threads (m_num_threads this) = 1 ->
  Int.in_range max_items ->
  (forall i, In i items -> packable (d_max d_tenth max_weight) i) ->
  ceiling_hit (sequential_fill items (Z.max 1 max_items)
                 (d_max d_tenth max_weight)) = false ->
  forall id,
    packed_quantity id (snd (pack_items this sch items max_items max_weight))
    = quantity_of id items.
Proof.
  intros Hsmall Hr Hok Hflag id.
  rewrite pack_items_sequential by exact Hsmall.
  unfold sequential_fill in *.
  rewrite (fill_items_conserve next_local (Z.max 1 max_items)
             (d_max d_tenth max_weight) 1000000 _
             (packable (d_max d_tenth max_weight))); auto.
  - unfold Int.INT_MAX. lia.
  - intros i [H _]. exact H.
  - intros i [_ [H _]]. exact H.
  - intros i number q Hi Q0. apply packable_progress; assumption.
  - unfold packs. simpl. constructor; [|constructor]. intros _. reflexivity.
Qed.

(** X3.  Conservation, id by id, where the weight quotient is an [int]:
    in the sequential fill on binary64, when every item has a positive
    quantity, a unit weight that does not exceed the normalized
    [max_weight] and, where the weight is positive, a quotient
    [max_weight / weight] whose integral part is at most [INT_MAX], and no
    ceiling is hit, the quantity the output holds under an id is the
    quantity the input asks for under that id. *)
Theorem conservation_in_range (this : parallel_pack_strategy) (sch : schedule)
    (items : list (item float)) (max_items : Z) (max_weight : float) :
  Z.of_nat (List.length items) < 5000 \/ clamp_threads (m_num_threads this) = 1 ->
  Int.in_range max_items ->
  (forall i, In i items -> packable (d_max d_tenth max_weight) i) ->
  ceiling_hit (sequential_fill items (Z.max 1 max_items)
                 (d_max d_tenth max_weight)) = false ->
  forall id,
    packed_quantity id (snd (pack_items this sch items max_items max_weight))
    = quantity_of id items.
Proof. apply sequential_fill_conserves. Qed.

(** X4.  Conservation, item by item (the statement of C2 with the range
    of the quotient added), on binary64: when moreover the ids of the input
    are pairwise distinct, the output holds, under the id of each input
    item, exactly that item's quantity. *)
Theorem conservation_per_item (this : parallel_pack_strategy) (sch : schedule)
    (items : list (item float)) (max_items : Z) (max_weight : float) :
  Z.of_nat (List.length items) < 5000 \/ clamp_threads (m_num_threads this) = 1 ->
  Int.in_range max_items ->
  NoDup (map get_id items) ->
  (forall i, In i items -> packable (d_max d_tenth max_weight) i) ->
  ceiling_hit (sequential_fill items (Z.max 1 max_items)
                 (d_max d_tenth max_weight)) = false ->
  forall i,
    In i items ->
    packed_quantity (get_id i)
      (snd (pack_items this sch items max_items max_weight))
    = get_quantity i.
Proof.
  intros Hsmall Hr Hn Hok Hflag i Hi.
  rewrite (sequential_fill_conserves this sch items max_items max_weight)
    by assumption.
  apply quantity_of_unique; assumption.
Qed.

Lemma two_items_packable :
  forall i, In i two_items -> packable (d_max d_tenth 25%float) i.
Proof.
  intros i [H|[H|[]]]; subst i; unfold packable; cbn [get_quantity get_weight];
    (split; [unfold Int.INT_MAX; lia|]); (split; [reflexivity|]); intros _.
  - exists 10. split; [vm_compute; reflexivity | unfold Int.INT_MAX; lia].
  - exists 6. split; [vm_compute; reflexivity | unfold Int.INT_MAX; lia].
Qed.

Lemma conservation_in_range_witness :
  (forall i, In i two_items -> packable (d_max d_tenth 25%float) i)
  /\ (forall id,
        packed_quantity id
          (snd (pack_items (construct None 8) example_schedule two_items 10
                  25%float))
        = quantity_of id two_items).
Proof.
  split; [exact two_items_packable|].
  apply (conservation_in_range (construct None 8) example_schedule two_items
           10 25%float).
  - left. vm_compute. reflexivity.
  - vm_compute. split; discriminate.
  - exact two_items_packable.
  - vm_compute. reflexivity.
Defined.

Lemma conservation_per_item_witness :
  packed_quantity (get_id (mk_item 1 100 5 2.5%float))
    (snd (pack_items (construct None 8) example_schedule two_items 10 25%float))
  = get_quantity (mk_item 1 100 5 2.5%float).
Proof.
  refine (conservation_per_item (construct None 8) example_schedule two_items
            10 25%float _ _ _ two_items_packable _
            (mk_item 1 100 5 2.5%float) _).
  - left. vm_compute. reflexivity.
  - vm_compute. split; discriminate.
  - repeat constructor; simpl; intuition discriminate.
  - vm_compute. reflexivity.
  - left. reflexivity.
Defined.

(** ** What [add_partial_item] returns *)

Section Bounds.

Context {D : Type} {DD : Double D}.

Lemma can_add_le_quantity (p : pack D) q w mi (W : D) :
  can_add p q w mi W <= q.
Proof. unfold can_add. lia. Qed.

Lemma can_add_le_room (p : pack D) q w mi (W : D) :
  can_add p q w mi W <= get_remaining_item_capacity p mi.
Proof. unfold can_add, get_remaining_item_capacity. lia. Qed.

Lemma can_add_lower (p : pack D) q w mi (W : D) :
  0 < q -> Z.min 0 (get_remaining_item_capacity p mi) <= can_add p q w mi W.
Proof. unfold can_add, get_remaining_item_capacity. lia. Qed.

(** X8.  What [add_partial_item] returns, in every arithmetic of [double]:
    never more than the requested quantity (and 0 for a request that is not
    positive); on a pack with room left by count, a value between 0 and that
    room; and the pack is changed exactly when the value is positive, by one
    record appended. *)
Theorem add_partial_item_result_bounds (p : pack D) (id length quantity : Z)
    (weight : D) (max_items : Z) (max_weight : D) :
  let r := add_partial_item p id length quantity weight max_items max_weight in
  fst r <= Z.max 0 quantity
  /\ (0 <= get_remaining_item_capacity p max_items ->
      0 <= fst r <= get_remaining_item_capacity p max_items)
  /\ (0 < fst r <-> snd r <> p)
  /\ (0 < fst r -> List.length (m_items (snd r)) = Datatypes.S (List.length (m_items p))).
Proof.
  cbv zeta. rewrite add_partial_item_unfold.
  destruct (guard quantity max_items max_weight) eqn:G.
  - simpl. repeat split; try lia. intros H. congruence.
  - apply guard_false in G. destruct G as [Hq [Hm HW]]. cbv zeta.
    pose proof (can_add_le_quantity p quantity weight max_items max_weight).
    pose proof (can_add_le_room p quantity weight max_items max_weight).
    pose proof (can_add_lower p quantity weight max_items max_weight Hq).
    destruct (0 <? can_add p quantity weight max_items max_weight) eqn:C.
    + apply Z.ltb_lt in C. simpl. repeat split; try lia.
      * intros _ E. apply (f_equal (fun x => List.length (m_items x))) in E.
        simpl in E. rewrite length_app in E. simpl in E. lia.
      * rewrite length_app. simpl. lia.
    + apply Z.ltb_ge in C. simpl. repeat split; try lia. intros X. congruence.
Qed.

(** X9.  On a pack that already holds more than [max_items] units,
    [add_partial_item] returns the negative number
    [max_items - total_items], not 0, and leaves the pack as it is. *)
Theorem add_partial_item_negative_on_overfull (p : pack D) (id length quantity : Z)
    (weight : D) (max_items : Z) (max_weight : D) :
  0 < quantity -> 0 < max_items -> d_ltb max_weight d_zero = false ->
  Int.in_range (max_items - m_total_items p) ->
  max_items < m_total_items p ->
  add_partial_item p id length quantity weight max_items max_weight
  = (max_items - m_total_items p, p).
Proof.
  intros Hq Hm HW R Over. rewrite add_partial_item_unfold.
  replace (guard quantity max_items max_weight) with false.
  2:{ symmetry. unfold guard. rewrite !orb_false_iff, !Z.leb_gt. auto. }
  cbv zeta.
  assert (E : can_add p quantity weight max_items max_weight
              = max_items - m_total_items p).
  { unfold can_add. rewrite sub_in_range by exact R. lia. }
  rewrite E. replace (0 <? max_items - m_total_items p) with false
    by (symmetry; apply Z.ltb_ge; lia).
  reflexivity.
Qed.

End Bounds.

Lemma add_partial_item_negative_on_overfull_witness :
  add_partial_item (mk_pack 1 [mk_item 7 100 8 1%float] 8 8%float 100)
    2 50 3 1%float 5 25%float
  = (5 - m_total_items (mk_pack 1 [mk_item 7 100 8 1%float] 8 8%float 100),
     mk_pack 1 [mk_item 7 100 8 1%float] 8 8%float 100).
Proof.
  apply (add_partial_item_negative_on_overfull
           (mk_pack 1 [mk_item 7 100 8 1%float] 8 8%float 100)
           2 50 3 1%float 5 25%float).
  - lia.
  - lia.
  - reflexivity.
  - unfold Int.in_range, Int.INT_MIN, Int.INT_MAX. simpl. lia.
  - simpl. lia.
Defined.

(** ** A pack at a limit *)

Lemma binary64_nothing_left (p : pack float) id len q (w : float) mi (W : float) :
  d_leb (get_remaining_weight_capacity p W) d_zero = true ->
  d_ltb d_zero w = true ->
  fst (add_partial_item p id len q w mi W) <= 0.
Proof.
  intros L Pw.
  destruct (add_partial_item_cases p id len q w mi W) as [[H _]|[Hpos [G [Hn _]]]];
    [exact H|].
  exfalso. set (n := fst (add_partial_item p id len q w mi W)) in *.
  unfold can_add in Hn.
  assert (Ew : d_max d_zero w = w) by (unfold d_max; rewrite Pw; reflexivity).
  rewrite Ew, (positive_not_zero w Pw) in Hn.
  assert (X : static_cast_int (d_div (d_sub W (m_total_weight p)) w) <= 0); [|lia].
  apply cast_not_positive.
  change (d_div (d_sub W (m_total_weight p)) w)
    with ((W - m_total_weight p) / w)%float.
  rewrite div_spec. intros m e E. exfalso.
  apply positive_spec in Pw.
  change (d_leb (get_remaining_weight_capacity p W) d_zero)
    with (W - m_total_weight p <=? 0)%float in L.
  rewrite FloatAxioms.leb_spec in L. change (Prim2SF 0) with (S754_zero false) in L.
  assert (N : sf_not_positive (Prim2SF (W - m_total_weight p)%float)).
  { destruct (Prim2SF (W - m_total_weight p)%float) as [s|[|]| |[|] m' e'];
      try exact I; discriminate L. }
  pose proof (SFdiv_spent _ _ N Pw) as Y.
  unfold SF64div in E. rewrite E in Y. exact Y.
Qed.

(** X10.  A pack at a limit takes nothing more, on binary64.  When no item
    capacity remains, [add_partial_item] accepts nothing; when no weight
    capacity remains, or the weight has reached [max_weight], it accepts no
    unit of an item of positive weight; either way the pack is left as it
    is.  The margin of [is_full] is not part of this: a pack that [is_full]
    reports full because its weight is within 1e-9 of [max_weight] can
    still accept a unit (here a pack of weight 24.999999999 under the limit
    25, and an item of weight 1.0000000000000003e-09). *)
Theorem full_pack_rejects :
  (forall (p : pack float) (id length quantity : Z) (weight : float)
          (max_items : Z) (max_weight : float),
      get_remaining_item_capacity p max_items <= 0
      \/ (d_leb (get_remaining_weight_capacity p max_weight) d_zero = true
          /\ d_ltb d_zero weight = true)
      \/ (d_leb max_weight (m_total_weight p) = true
          /\ d_ltb d_zero weight = true) ->
      fst (add_partial_item p id length quantity weight max_items max_weight) <= 0
      /\ snd (add_partial_item p id length quantity weight max_items max_weight)
         = p)
  /\ (let p := mk_pack 1 [mk_item 7 100 1 24.999999999%float] 1
                 24.999999999%float 100 in
      is_full p 20 25%float = true
      /\ fst (add_partial_item p 2 50 3 1.0000000000000003e-09%float 20 25%float)
         = 1).
Proof.
  split; [|split; vm_compute; reflexivity].
  intros p id length quantity weight max_items max_weight H.
  destruct (add_partial_item_cases p id length quantity weight max_items max_weight)
    as [[L E]|[Hpos [G [Hn _]]]]; [auto|].
  exfalso. destruct H as [F|[[F Pw]|[F Pw]]].
  - unfold can_add in Hn. unfold get_remaining_item_capacity in F. lia.
  - pose proof (binary64_nothing_left p id length quantity weight max_items
                  max_weight F Pw). lia.
  - pose proof (binary64_spent_rejected p id length quantity weight max_items
                  max_weight F Pw). lia.
Qed.

Lemma full_pack_rejects_witness :
  fst (add_partial_item (mk_pack 1 [mk_item 7 100 10 2.5%float] 10 25%float 100)
         2 50 3 1%float 20 25%float) <= 0
  /\ snd (add_partial_item (mk_pack 1 [mk_item 7 100 10 2.5%float] 10 25%float 100)
            2 50 3 1%float 20 25%float)
     = mk_pack 1 [mk_item 7 100 10 2.5%float] 10 25%float 100.
Proof.
  apply (proj1 full_pack_rejects
           (mk_pack 1 [mk_item 7 100 10 2.5%float] 10 25%float 100)
           2 50 3 1%float 20 25%float).
  right. left. split; reflexivity.
Defined.

(** ** Items without weight *)

(** X11.  An item whose unit weight is not above 0 (a zero or negative
    weight, NaN in binary64) is limited by count alone: the accepted
    quantity is the least of the room by count and the request, whatever
    the weight of the pack and [max_weight] are, and its record holds the
    weight 0. *)
Theorem weightless_item_ignores_weight_limit {D : Type} {DD : Double D}
    (p : pack D) (id length quantity : Z) (weight : D)
    (max_items : Z) (max_weight : D) :
  d_eqb d_zero d_zero = true ->
  d_ltb d_zero weight = false ->
  0 < quantity -> 0 < max_items -> d_ltb max_weight d_zero = false ->
  let r := add_partial_item p id length quantity weight max_items max_weight in
  fst r = Z.min (get_remaining_item_capacity p max_items) quantity
  /\ (0 < fst r ->
      m_items (snd r) = m_items p ++ [mk_item id (Z.max 1 length) (fst r) d_zero]).
Proof.
  intros Z0 Hw Hq Hm HW. cbv zeta. rewrite add_partial_item_unfold.
  replace (guard quantity max_items max_weight) with false.
  2:{ symmetry. unfold guard. rewrite !orb_false_iff, !Z.leb_gt. auto. }
  cbv zeta.
  assert (Ew : d_max d_zero weight = d_zero) by (unfold d_max; rewrite Hw; reflexivity).
  assert (E : can_add p quantity weight max_items max_weight
              = Z.min (get_remaining_item_capacity p max_items) quantity).
  { unfold can_add, get_remaining_item_capacity. rewrite Ew, Z0. lia. }
  rewrite E.
  destruct (0 <? Z.min (get_remaining_item_capacity p max_items) quantity) eqn:C;
    simpl; (split; [reflexivity|]).
  - intros _. rewrite Ew. reflexivity.
  - apply Z.ltb_ge in C. lia.
Qed.

Lemma weightless_item_ignores_weight_limit_witness :
  fst (add_partial_item (mk_pack 1 [mk_item 7 100 4 10%float] 4 40%float 100)
         2 50 3 nan 10 25%float)
  = Z.min (get_remaining_item_capacity
             (mk_pack 1 [mk_item 7 100 4 10%float] 4 40%float 100) 10) 3.
Proof.
  apply (weightless_item_ignores_weight_limit
           (mk_pack 1 [mk_item 7 100 4 10%float] 4 40%float 100)
           2 50 3 nan 10 25%float); try reflexivity; lia.
Defined.

(** ** What is left of the capacity *)

(** X12.  What is left of the item capacity after [add_partial_item]: on a
    pack within its count, the remaining item capacity goes down by exactly
    the accepted quantity and stays at least 0, whatever the arithmetic of
    [double]. *)
Theorem remaining_capacity_after_accept {D : Type} {DD : Double D}
    (p : pack D) (id length quantity : Z) (weight : D) (max_items : Z)
    (max_weight : D) :
  1 <= max_items <= Int.INT_MAX ->
  within_count max_items p ->
  let r := add_partial_item p id length quantity weight max_items max_weight in
  0 <= fst r
  /\ get_remaining_item_capacity (snd r) max_items
     = get_remaining_item_capacity p max_items - fst r
  /\ 0 <= get_remaining_item_capacity (snd r) max_items.
Proof.
  intros Hm [H0 H1]. cbv zeta.
  assert (R : get_remaining_item_capacity p max_items
              = max_items - m_total_items p).
  { apply sub_in_range. unfold Int.in_range, Int.INT_MIN, Int.INT_MAX in *. lia. }
  rewrite add_partial_item_unfold.
  destruct (guard quantity max_items max_weight) eqn:G; [simpl; lia|].
  apply guard_false in G. destruct G as [Hq _]. cbv zeta.
  pose proof (can_add_le_room p quantity weight max_items max_weight) as Up.
  pose proof (can_add_lower p quantity weight max_items max_weight Hq) as Lo.
  destruct (0 <? can_add p quantity weight max_items max_weight) eqn:C; simpl;
    [|apply Z.ltb_ge in C; lia].
  apply Z.ltb_lt in C. unfold get_remaining_item_capacity in *. simpl.
  rewrite add_in_range
    by (unfold Int.in_range, Int.INT_MIN, Int.INT_MAX in *; lia).
  rewrite (sub_in_range max_items (m_total_items p + _))
    by (unfold Int.in_range, Int.INT_MIN, Int.INT_MAX in *; lia).
  lia.
Qed.

Lemma remaining_capacity_after_accept_witness :
  let p := mk_pack 1 [mk_item 7 100 4 2.5%float] 4 10%float 100 in
  let r := add_partial_item p 2 50 9 4%float 10 25%float in
  0 <= fst r
  /\ get_remaining_item_capacity (snd r) 10
     = get_remaining_item_capacity p 10 - fst r
  /\ 0 <= get_remaining_item_capacity (snd r) 10.
Proof.
  apply (remaining_capacity_after_accept
           (mk_pack 1 [mk_item 7 100 4 2.5%float] 4 10%float 100)
           2 50 9 4%float 10 25%float).
  - unfold Int.INT_MAX. lia.
  - unfold within_count. simpl. lia.
Defined.

(** ** The normalization of the constraints *)

(** X14.  [pack_items] reads its constraints through their floors: calling
    it with [max (1, max_items)] and [max (0.1, max_weight)] gives the same
    result; every [max_items] of at most 1 acts as 1 and every [max_weight]
    that is not above 0.1 (a negative one, NaN) acts as 0.1; and a second
    call on the strategy the first one leaves uses the same worker count. *)
Theorem pack_items_normalizes_constraints {D : Type} {DD : Double D}
    (this : parallel_pack_strategy) (sch : schedule) (items : list (item D))
    (max_items : Z) (max_weight : D) :
  pack_items this sch items (Z.max 1 max_items) (d_max d_tenth max_weight)
  = pack_items this sch items max_items max_weight
  /\ (max_items <= 1 -> d_ltb d_tenth max_weight = false ->
      pack_items this sch items max_items max_weight
      = pack_items this sch items 1 d_tenth)
  /\ (forall (items' : list (item D)) (max_items' : Z) (max_weight' : D),
      pack_items (fst (pack_items this sch items max_items max_weight)) sch
        items' max_items' max_weight'
      = pack_items this sch items' max_items' max_weight').
Proof.
  split; [|split].
  - unfold pack_items. rewrite d_max_idempotent, Z.max_assoc, Z.max_id.
    reflexivity.
  - intros Hm Hw. unfold pack_items.
    replace (Z.max 1 max_items) with (Z.max 1 1) by lia.
    replace (d_max d_tenth max_weight) with (d_max d_tenth d_tenth); [reflexivity|].
    unfold d_max. rewrite Hw. destruct (d_ltb d_tenth d_tenth); reflexivity.
  - intros items' mi' W'.
    assert (E : m_num_threads (fst (pack_items this sch items max_items max_weight))
                = clamp_threads (m_num_threads this)).
    { unfold pack_items. destruct (_ || _); reflexivity. }
    unfold pack_items at 1 3. rewrite E.
    replace (clamp_threads (clamp_threads (m_num_threads this)))
      with (clamp_threads (m_num_threads this)) by (unfold clamp_threads; lia).
    reflexivity.
Qed.

Lemma pack_items_normalizes_constraints_witness :
  pack_items (construct None 8) example_schedule [mk_item 1 100 5 2.5%float]
    (-3) nan
  = pack_items (construct None 8) example_schedule [mk_item 1 100 5 2.5%float]
      1 d_tenth.
Proof.
  apply (proj1 (proj2 (pack_items_normalizes_constraints (construct None 8)
                         example_schedule [mk_item 1 100 5 2.5%float] (-3) nan))).
  - lia.
  - reflexivity.
Defined.

(** ** Items that ask for nothing *)

Section Skips.

Context {D : Type} {DD : Double D}.

Lemma fill_items_skips {S : Type} (next : S -> Z * S) (max_items : Z)
    (max_weight : D) (max_iterations max_safe_reserve : Z)
    (items : list (item D)) :
  forall st,
    fill_items next max_items max_weight max_iterations max_safe_reserve items st
    = fill_items next max_items max_weight max_iterations max_safe_reserve
        (filter asks items) st.
Proof.
  unfold fill_items. induction items as [|i items IH]; intros st; simpl;
    [reflexivity|].
  destruct (asks i) eqn:A; simpl; [apply IH|].
  unfold asks in A. apply Z.ltb_ge in A.
  replace (fill_item next max_items max_weight max_iterations max_safe_reserve
             st i) with st; [apply IH|].
  unfold fill_item.
  replace (get_quantity i <=? 0) with true by (symmetry; apply Z.leb_le; exact A).
  reflexivity.
Qed.

(** X15.  Items whose quantity is not positive are skipped: the fill loop
    gives the same state with and without them; and when no item asks for
    anything (the empty input among them), the sequential branch returns
    one empty pack, numbered 1. *)
Theorem items_without_quantity_are_skipped :
  (forall (S : Type) (next : S -> Z * S) (max_items : Z) (max_weight : D)
          (max_iterations max_safe_reserve : Z) (items : list (item D))
          (st : fill_state D S),
      fill_items next max_items max_weight max_iterations max_safe_reserve
        items st
      = fill_items next max_items max_weight max_iterations max_safe_reserve
          (filter asks items) st)
  /\ (forall (this : parallel_pack_strategy) (sch : schedule)
             (items : list (item D)) (max_items : Z) (max_weight : D),
      Z.of_nat (List.length items) < 5000
      \/ clamp_threads (m_num_threads this) = 1 ->
      (forall i, In i items -> get_quantity i <= 0) ->
      snd (pack_items this sch items max_items max_weight) = [new_pack 1]).
Proof.
  split.
  - intros. apply fill_items_skips.
  - intros this sch items mi W Hsmall Hall.
    rewrite pack_items_sequential by exact Hsmall.
    unfold sequential_fill. rewrite fill_items_skips.
    replace (filter asks items) with (@nil (item D)); [reflexivity|].
    symmetry. clear Hsmall. induction items as [|i items IH]; [reflexivity|].
    simpl. unfold asks at 1.
    replace (0 <? get_quantity i) with false.
    + apply IH. intros j Hj. apply Hall. right. exact Hj.
    + symmetry. apply Z.ltb_ge. apply Hall. left. reflexivity.
Qed.

End Skips.

Lemma items_without_quantity_are_skipped_witness :
  snd (pack_items (construct None 8) example_schedule
         [mk_item 1 100 0 2.5%float; mk_item 2 200 (-3) 4%float] 10 25%float)
  = [new_pack 1].
Proof.
  apply (proj2 items_without_quantity_are_skipped (construct None 8)
           example_schedule
           [mk_item 1 100 0 2.5%float; mk_item 2 200 (-3) 4%float] 10 25%float).
  - left. simpl. lia.
  - intros i [H|[H|[]]]; subst i; simpl; lia.
Defined.

(** ** Where the records come from *)

Section PackwiseAsked.

Context {D : Type} {DD : Double D}.

Variable Q : pack D -> Prop.
Variable ok : item D -> Prop.
Variables (max_items : Z) (max_weight : D).

Hypothesis Q_new_pack : forall n, Q (new_pack n).

Hypothesis Q_accept :
  forall i p q,
    ok i -> Q p -> 0 < q ->
    0 < fst (add_partial_item p (get_id i) (get_length i) q (get_weight i)
               (Z.max 1 max_items) (d_max d_tenth max_weight)) ->
    Q (snd (add_partial_item p (get_id i) (get_length i) q (get_weight i)
              (Z.max 1 max_items) (d_max d_tenth max_weight))).

Lemma fill_items_packwise_asked {S : Type} (next : S -> Z * S)
    (max_iterations max_safe_reserve : Z) (items : list (item D))
    (st : fill_state D S) :
  (forall i, In i items -> 0 < get_quantity i -> ok i) ->
  Forall Q (packs st) ->
  Forall Q
    (packs
       (fill_items next (Z.max 1 max_items) (d_max d_tenth max_weight)
          max_iterations max_safe_reserve items st)).
Proof.
  intros Hok H. rewrite fill_items_skips.
  apply (fill_items_packwise Q ok max_items max_weight Q_new_pack Q_accept);
    [|exact H].
  intros i Hi. apply filter_In in Hi. destruct Hi as [Hi Hq].
  apply Hok; [exact Hi | apply Z.ltb_lt; exact Hq].
Qed.

Lemma pack_items_packwise_asked (this : parallel_pack_strategy) (sch : schedule)
    (items : list (item D)) :
  (forall i, In i items -> 0 < get_quantity i -> ok i) ->
  Forall Q (snd (pack_items this sch items max_items max_weight)).
Proof.
  intros Hok. unfold pack_items.
  destruct ((Z.of_nat (List.length items) <? 5000)
            || (clamp_threads (m_num_threads this) =? 1)); simpl.
  - unfold sequential_fill. apply fill_items_packwise_asked; [exact Hok|].
    unfold packs. simpl. constructor; [apply Q_new_pack | constructor].
  - set (ranges := thread_ranges _ _ _ _ _).
    assert (G : forall order acc, Forall Q acc ->
              Forall Q (fold_left
                          (run_thread sch items ranges (Z.max 1 max_items)
                             (d_max d_tenth max_weight)) order acc)).
    { induction order as [|w order IH]; intros acc Hacc; simpl; [exact Hacc|].
      apply IH. unfold run_thread.
      destruct (nth_error ranges w) as [[a b]|]; [|exact Hacc].
      unfold worker_thread, merge.
      destruct (Z.of_nat (List.length acc) <? _); [|exact Hacc].
      apply Forall_app. split; [exact Hacc|].
      apply Forall_firstn_of. unfold local_packs.
      rewrite d_max_idempotent, Z.max_assoc, Z.max_id.
      apply fill_items_packwise_asked.
      - intros i Hi. apply Hok. unfold slice in Hi. exact (in_chunk _ _ _ _ Hi).
      - unfold packs. simpl. constructor; [apply Q_new_pack | constructor]. }
    apply G. constructor.
Qed.

End PackwiseAsked.

Lemma records_from_items {D : Type} {DD : Double D}
    (this : parallel_pack_strategy) (sch : schedule) (items : list (item D))
    (max_items : Z) (max_weight : D) :
  Forall (fun p => forall r, In r (m_items p) ->
            exists i, In i items /\ 0 < get_quantity i /\ recorded_from i r)
    (snd (pack_items this sch items max_items max_weight)).
Proof.
  apply (pack_items_packwise_asked
           (fun p => forall r, In r (m_items p) ->
              exists i, In i items /\ 0 < get_quantity i /\ recorded_from i r)
           (fun i => In i items /\ 0 < get_quantity i)
           max_items max_weight).
  - intros n r' [].
  - intros i p' q [Hi Hq] Hp' _ Hpos r' Hr'.
    destruct (add_partial_item_cases p' (get_id i) (get_length i) q
                (get_weight i) (Z.max 1 max_items)
                (d_max d_tenth max_weight))
      as [[L _]|[_ [_ [_ X]]]]; [lia|].
    rewrite X in Hr'. simpl in Hr'. apply in_app_or in Hr'.
    destruct Hr' as [Hr'|[Hr'|[]]]; [apply Hp'; exact Hr'|].
    exists i. subst r'. unfold recorded_from. simpl.
    repeat split; try assumption; reflexivity.
  - auto.
Qed.

(** X16.  [pack_items] invents nothing: on every branch and under every
    schedule, each record of each returned pack carries the id of an input
    item of positive quantity, with that item's length raised to at least 1
    and its weight raised to at least 0, and holds a positive quantity. *)
Theorem records_come_from_items {D : Type} {DD : Double D}
    (this : parallel_pack_strategy) (sch : schedule) (items : list (item D))
    (max_items : Z) (max_weight : D) (p : pack D) (r : item D) :
  In p (snd (pack_items this sch items max_items max_weight)) ->
  In r (m_items p) ->
  exists i, In i items /\ 0 < get_quantity i /\ recorded_from i r.
Proof.
  intros Hp Hr.
  pose proof (records_from_items this sch items max_items max_weight) as G.
  rewrite Forall_forall in G. exact (G p Hp r Hr).
Qed.

Lemma records_come_from_items_witness :
  exists i, In i [mk_item 1 100 5 2.5%float; mk_item 2 200 3 4%float]
            /\ 0 < get_quantity i
            /\ recorded_from i (mk_item 2 200 3 4%float).
Proof.
  apply (records_come_from_items (construct None 8) example_schedule
           [mk_item 1 100 5 2.5%float; mk_item 2 200 3 4%float] 10 25%float
           (mk_pack 1 [mk_item 1 100 5 2.5%float; mk_item 2 200 3 4%float] 8
              24.5%float 200)).
  - vm_compute. left. reflexivity.
  - right. left. reflexivity.
Defined.

(** ** The shape of the list of packs *)

Section Shape.

Context {D : Type} {DD : Double D}.

Lemma fill_items_front_not_empty {S : Type} (next : S -> Z * S)
    (max_items : Z) (max_weight : D) (max_iterations max_safe_reserve : Z)
    (items : list (item D)) (st : fill_state D S) :
  Forall (fun p => is_empty p = false) (front st) ->
  Forall (fun p => is_empty p = false)
    (front (fill_items next max_items max_weight max_iterations
              max_safe_reserve items st)).
Proof.
  intros H.
  apply (fill_items_invariant next max_items max_weight max_iterations
           max_safe_reserve
           (fun fr _ _ => Forall (fun p => is_empty p = false) fr)
           (fun _ => True)); auto.
  intros fr p src F _ E. apply Forall_app. split; [exact F|].
  constructor; [exact E | constructor].
Qed.

Lemma fill_items_size {S : Type} (next : S -> Z * S)
    (max_items : Z) (max_weight : D) (max_iterations max_safe_reserve : Z)
    (items : list (item D)) (st : fill_state D S) :
  size st <= max_safe_reserve ->
  size (fill_items next max_items max_weight max_iterations
          max_safe_reserve items st) <= max_safe_reserve.
Proof.
  intros H. unfold size, packs in *.
  apply (fill_items_invariant next max_items max_weight max_iterations
           max_safe_reserve
           (fun fr p _ => Z.of_nat (List.length (fr ++ [p])) <= max_safe_reserve)
           (fun _ => True)); auto.
  - intros i fr p src q _ L _ _. rewrite length_app in *. simpl in *. lia.
  - intros fr p src _ L _. rewrite !length_app in *. simpl in *. lia.
Qed.

Lemma packs_length {S : Type} (st : fill_state D S) :
  (1 <= List.length (packs st))%nat.
Proof. unfold packs. rewrite length_app. simpl. lia. Qed.

Lemma packs_removelast {S : Type} (st : fill_state D S) :
  removelast (packs st) = front st.
Proof. unfold packs. apply removelast_last. Qed.

(** X17.  A new pack is opened only behind a pack that holds something: in
    the list the sequential branch returns, and in the list a worker builds
    for its chunk, every pack but the last holds at least one record. *)
Theorem only_the_last_pack_can_be_empty :
  (forall (this : parallel_pack_strategy) (sch : schedule)
          (items : list (item D)) (max_items : Z) (max_weight : D) (p : pack D),
      Z.of_nat (List.length items) < 5000
      \/ clamp_threads (m_num_threads this) = 1 ->
      In p (removelast (snd (pack_items this sch items max_items max_weight))) ->
      is_empty p = false)
  /\ (forall (fetch : nat -> Z) (items : list (item D)) (start_idx end_idx : nat)
             (max_items : Z) (max_weight : D) (p : pack D),
      In p (removelast (local_packs fetch items start_idx end_idx max_items
                          max_weight)) ->
      is_empty p = false).
Proof.
  split.
  - intros this sch items mi W p Hsmall Hp.
    rewrite pack_items_sequential in Hp by exact Hsmall.
    rewrite packs_removelast in Hp. unfold sequential_fill in Hp.
    pose proof (fill_items_front_not_empty next_local (Z.max 1 mi)
                  (d_max d_tenth W) 1000000
                  (Z.min 100000 (Z.of_nat (List.length items) / 10 + 1000))
                  items (mk_fill_state [] (new_pack 1) 1 0 false)
                  (Forall_nil _)) as F.
    rewrite Forall_forall in F. exact (F p Hp).
  - intros fetch items a b mi W p Hp. unfold local_packs in Hp.
    rewrite packs_removelast in Hp.
    pose proof (fill_items_front_not_empty (next_shared fetch) (Z.max 1 mi)
                  (d_max d_tenth W) 500000
                  (Z.min 20000 (Z.of_nat (b - a) / 10 + 500))
                  (slice items a b)
                  (mk_fill_state [] (new_pack (fetch 0%nat)) 1%nat 0 false)
                  (Forall_nil _)) as F.
    rewrite Forall_forall in F. exact (F p Hp).
Qed.

Lemma merge_length (items_size : Z) (result_packs local : list (pack D)) :
  Z.of_nat (List.length result_packs) <= Z.min 200000 (items_size / 5 + 10000) ->
  Z.of_nat (List.length (merge items_size result_packs local))
    <= Z.min 200000 (items_size / 5 + 10000).
Proof.
  intros H. unfold merge.
  destruct (Z.of_nat (List.length result_packs)
            <? Z.min 200000 (items_size / 5 + 10000)) eqn:E; [|exact H].
  apply Z.ltb_lt in E. rewrite length_app, length_firstn. lia.
Qed.

(** X18.  The pack-count ceilings: [pack_items] never returns more than
    [min (200000, item_count / 5 + 10000)] packs; the sequential branch
    returns at least one pack and at most
    [min (100000, item_count / 10 + 1000)]; a worker builds at least one
    pack and at most [min (20000, chunk_size / 10 + 500)]. *)
Theorem pack_count_ceilings :
  (forall (this : parallel_pack_strategy) (sch : schedule)
          (items : list (item D)) (max_items : Z) (max_weight : D),
      Z.of_nat (List.length (snd (pack_items this sch items max_items max_weight)))
        <= Z.min 200000 (Z.of_nat (List.length items) / 5 + 10000))
  /\ (forall (this : parallel_pack_strategy) (sch : schedule)
             (items : list (item D)) (max_items : Z) (max_weight : D),
      Z.of_nat (List.length items) < 5000
      \/ clamp_threads (m_num_threads this) = 1 ->
      1 <= Z.of_nat
             (List.length (snd (pack_items this sch items max_items max_weight)))
        <= Z.min 100000 (Z.of_nat (List.length items) / 10 + 1000))
  /\ (forall (fetch : nat -> Z) (items : list (item D)) (start_idx end_idx : nat)
             (max_items : Z) (max_weight : D),
      1 <= Z.of_nat
             (List.length (local_packs fetch items start_idx end_idx max_items
                             max_weight))
        <= Z.min 20000 (Z.of_nat (end_idx - start_idx) / 10 + 500)).
Proof.
  assert (Seq : forall (items : list (item D)) mi (W : D),
            1 <= Z.of_nat (List.length (packs (sequential_fill items mi W)))
              <= Z.min 100000 (Z.of_nat (List.length items) / 10 + 1000)).
  { intros items mi W. split.
    - pose proof (packs_length (sequential_fill items mi W)). lia.
    - unfold sequential_fill. apply fill_items_size. unfold size, packs. simpl.
      pose proof (Z.div_pos (Z.of_nat (List.length items)) 10). lia. }
  split; [|split].
  - intros this sch items mi W. unfold pack_items.
    destruct ((Z.of_nat (List.length items) <? 5000)
              || (clamp_threads (m_num_threads this) =? 1)); simpl.
    + pose proof (Seq items (Z.max 1 mi) (d_max d_tenth W)) as [_ H].
      assert (Z.of_nat (List.length items) / 10
              <= Z.of_nat (List.length items) / 5)
        by (apply Z.div_le_compat_l; lia).
      lia.
    + set (ranges := thread_ranges _ _ _ _ _).
      assert (G : forall order acc,
                Z.of_nat (List.length acc)
                  <= Z.min 200000 (Z.of_nat (List.length items) / 5 + 10000) ->
                Z.of_nat (List.length
                            (fold_left
                               (run_thread sch items ranges (Z.max 1 mi)
                                  (d_max d_tenth W)) order acc))
                  <= Z.min 200000 (Z.of_nat (List.length items) / 5 + 10000)).
      { induction order as [|w order IH]; intros acc Hacc; simpl; [exact Hacc|].
        apply IH. unfold run_thread.
        destruct (nth_error ranges w) as [[a b]|]; [|exact Hacc].
        unfold worker_thread. apply merge_length. exact Hacc. }
      apply G. simpl.
      pose proof (Z.div_pos (Z.of_nat (List.length items)) 5). lia.
  - intros this sch items mi W Hsmall.
    rewrite pack_items_sequential by exact Hsmall. apply Seq.
  - intros fetch items a b mi W. split.
    + unfold local_packs. cbv zeta.
      match goal with |- context [packs ?s] => pose proof (packs_length s) end.
      lia.
    + unfold local_packs. apply fill_items_size. unfold size, packs. simpl.
      pose proof (Z.div_pos (Z.of_nat (b - a)) 10). lia.
Qed.

End Shape.

Lemma only_the_last_pack_can_be_empty_witness :
  (Z.of_nat (List.length [mk_item 1 100 25 1%float]) < 5000
   \/ clamp_threads (m_num_threads (construct None 8)) = 1)
  /\ (forall p : pack float,
        In p (removelast
                (snd (pack_items (construct None 8) example_schedule
                        [mk_item 1 100 25 1%float] 10 25%float))) ->
        is_empty p = false).
Proof.
  assert (H : Z.of_nat (List.length [mk_item 1 100 25 1%float]) < 5000
              \/ clamp_threads (m_num_threads (construct None 8)) = 1)
    by (left; simpl; lia).
  split; [exact H|]. intros p.
  exact (proj1 only_the_last_pack_can_be_empty (construct None 8)
           example_schedule [mk_item 1 100 25 1%float] 10 25%float p H).
Defined.

Lemma pack_count_ceilings_witness :
  1 <= Z.of_nat
         (List.length
            (snd (pack_items (construct None 8) example_schedule
                    [mk_item 1 100 25 1%float] 10 25%float)))
    <= Z.min 100000 (Z.of_nat (List.length [mk_item 1 100 25 1%float]) / 10 + 1000).
Proof.
  apply (proj1 (proj2 pack_count_ceilings) (construct None 8) example_schedule
           [mk_item 1 100 25 1%float] 10 25%float).
  left. simpl. lia.
Defined.

(** ** No more than was asked for *)

Lemma sum_over_app (f : nat -> Z) (a b : list nat) :
  sum_over f (a ++ b) = sum_over f a + sum_over f b.
Proof. induction a as [|x a IH]; simpl; [reflexivity | rewrite IH; lia]. Qed.

Lemma sum_over_nonneg (f : nat -> Z) (l : list nat) :
  (forall w, 0 <= f w) -> 0 <= sum_over f l.
Proof.
  intros H. induction l as [|x l IH]; simpl; [lia|]. specialize (H x). lia.
Qed.

Lemma sum_over_incl (f : nat -> Z) :
  (forall w, 0 <= f w) ->
  forall l m, NoDup l -> incl l m -> sum_over f l <= sum_over f m.
Proof.
  intros Hf. induction l as [|a l IH]; intros m N I; simpl.
  - apply sum_over_nonneg. exact Hf.
  - inversion N as [|? ? Ha Nl]; subst.
    destruct (in_split a m) as [m1 [m2 E]]; [apply I; left; reflexivity|].
    subst m. rewrite sum_over_app. simpl.
    assert (I' : incl l (m1 ++ m2)).
    { intros x Hx. assert (Hm : In x (m1 ++ a :: m2)) by (apply I; right; exact Hx).
      apply in_app_or in Hm. apply in_or_app.
      destruct Hm as [Hm|[Hm|Hm]]; [left; exact Hm | | right; exact Hm].
      subst x. contradiction. }
    pose proof (IH (m1 ++ m2) Nl I') as B. rewrite sum_over_app in B. lia.
Qed.

Lemma sum_over_filter (f : nat -> Z) (keep : nat -> bool) (l : list nat) :
  (forall w, keep w = false -> f w = 0) ->
  sum_over f (filter keep l) = sum_over f l.
Proof.
  intros H. induction l as [|x l IH]; simpl; [reflexivity|].
  destruct (keep x) eqn:K; simpl; rewrite IH; [reflexivity|].
  rewrite (H x K). lia.
Qed.

Lemma sum_over_shift (f : nat -> Z) (l : list nat) :
  sum_over f (map Datatypes.S l) = sum_over (fun w => f (Datatypes.S w)) l.
Proof. induction l as [|x l IH]; simpl; [reflexivity | rewrite IH; reflexivity]. Qed.

Lemma sum_over_positions {A : Type} (g : A -> Z) (l : list A) :
  sum_over (fun w => match nth_error l w with Some r => g r | None => 0 end)
    (seq 0 (List.length l))
  = fold_right (fun r acc => g r + acc) 0 l.
Proof.
  induction l as [|r l IH]; simpl; [reflexivity|].
  rewrite <- seq_shift, sum_over_shift. simpl. rewrite IH. reflexivity.
Qed.

Section Requested.

Context {D : Type} {DD : Double D}.

Lemma requested_quantity_app (id : Z) (a b : list (item D)) :
  requested_quantity id (a ++ b)
  = requested_quantity id a + requested_quantity id b.
Proof.
  induction a as [|i a IH]; simpl; [reflexivity|].
  rewrite IH. destruct (get_id i =? id); lia.
Qed.

Lemma requested_quantity_nonneg (id : Z) (a : list (item D)) :
  0 <= requested_quantity id a.
Proof.
  induction a as [|i a IH]; simpl; [lia|]. destruct (get_id i =? id); lia.
Qed.

Lemma requested_quantity_concat (id : Z) (A : Type) (chunk : A -> list (item D))
    (l : list A) :
  requested_quantity id (concat (map chunk l))
  = fold_right (fun r acc => requested_quantity id (chunk r) + acc) 0 l.
Proof.
  induction l as [|r l IH]; simpl; [reflexivity|].
  rewrite requested_quantity_app, IH. reflexivity.
Qed.

Lemma packed_quantity_nonneg (id : Z) (ps : list (pack D)) :
  Forall (fun p => 0 <= quantity_of id (m_items p)) ps ->
  0 <= packed_quantity id ps.
Proof.
  induction 1 as [|p ps Hp _ IH]; simpl; lia.
Qed.

Lemma packed_quantity_firstn (id : Z) (n : nat) (ps : list (pack D)) :
  Forall (fun p => 0 <= quantity_of id (m_items p)) ps ->
  0 <= packed_quantity id (firstn n ps) <= packed_quantity id ps.
Proof.
  intros F. rewrite <- (firstn_skipn n ps) in F. apply Forall_app in F.
  destruct F as [F1 F2].
  pose proof (packed_quantity_nonneg id _ F1).
  pose proof (packed_quantity_nonneg id _ F2).
  rewrite <- (firstn_skipn n ps) at 3. rewrite packed_quantity_app. lia.
Qed.

Lemma packed_quantity_fresh {S : Type} (id n : Z) (src : S) (c : Z)
    (flag : bool) :
  packed_quantity id (packs (mk_fill_state [] (new_pack (D := D) n) src c flag))
  = 0.
Proof. reflexivity. Qed.

Lemma accepted_quantity_of (id : Z) (p : pack D) i len n (w : D) :
  quantity_of id (m_items (accepted p i len n w))
  = quantity_of id (m_items p) + (if i =? id then n else 0).
Proof.
  unfold accepted. simpl. rewrite quantity_of_app. simpl.
  destruct (i =? id); lia.
Qed.

Section BoundedLoop.

Context {S : Type}.
Variable next : S -> Z * S.
Variables (max_items : Z) (max_weight : D).
Variables (max_iterations max_safe_reserve : Z).

Lemma fill_while_bounded (i : item D) (id : Z) :
  forall fuel q st,
    0 <= q <= Int.INT_MAX ->
    packed_quantity id (packs st)
    <= packed_quantity id
         (packs (fill_while next max_items max_weight max_iterations
                   max_safe_reserve fuel i q st))
    <= packed_quantity id (packs st) + (if get_id i =? id then q else 0).
Proof.
  induction fuel as [|fuel IH]; intros q st Hq.
  - simpl. destruct (get_id i =? id); lia.
  - rewrite fill_while_unfold. destruct (q <=? 0) eqn:Q.
    { destruct (get_id i =? id); lia. }
    apply Z.leb_gt in Q. cbv zeta.
    destruct (max_iterations <? Int.add (safety_counter st) 1).
    { rewrite !packed_quantity_packs. cbn [front back].
      destruct (get_id i =? id); lia. }
    pose proof (add_partial_item_cases (back st) (get_id i) (get_length i) q
                  (get_weight i) max_items max_weight) as A.
    destruct (add_partial_item (back st) (get_id i) (get_length i) q
                (get_weight i) max_items max_weight) as [a cp].
    cbv zeta in A. cbn [fst snd] in A.
    destruct (0 <? a) eqn:Pa.
    + apply Z.ltb_lt in Pa.
      destruct A as [[A _]|[_ [_ [Ea Ecp]]]]; [lia|].
      assert (La : a <= q) by (rewrite Ea; apply can_add_le_quantity).
      rewrite sub_in_range
        by (unfold Int.in_range, Int.INT_MIN, Int.INT_MAX in *; lia).
      pose proof (IH (q - a)
                    (mk_fill_state (front st) cp (source st)
                       (Int.add (safety_counter st) 1) (ceiling_hit st))
                    ltac:(lia)) as B.
      assert (Q' : quantity_of id (m_items cp)
                   = quantity_of id (m_items (back st))
                     + (if get_id i =? id then a else 0))
        by (rewrite Ecp; apply accepted_quantity_of).
      rewrite !packed_quantity_packs in *. cbn [front back] in *.
      destruct (get_id i =? id); lia.
    + apply Z.ltb_ge in Pa.
      destruct A as [[_ A]|[A _]]; [subst cp | lia].
      destruct (d_ltb max_weight (get_weight i)).
      { rewrite !packed_quantity_packs. cbn [front back].
        destruct (get_id i =? id); lia. }
      destruct (is_empty (back st)).
      { rewrite !packed_quantity_packs. cbn [front back].
        destruct (get_id i =? id); lia. }
      destruct (max_safe_reserve <=? size st).
      { rewrite !packed_quantity_packs. cbn [front back].
        destruct (get_id i =? id); lia. }
      destruct (next (source st)) as [n src].
      pose proof (IH q
                    (mk_fill_state (front st ++ [back st]) (new_pack n) src
                       (Int.add (safety_counter st) 1) (ceiling_hit st)) Hq) as B.
      rewrite !packed_quantity_packs in *. cbn [front back] in *.
      rewrite packed_quantity_app in B. simpl in B.
      destruct (get_id i =? id); lia.
Qed.

Lemma fill_items_bounded (id : Z) (items : list (item D)) :
  (forall i, In i items -> get_quantity i <= Int.INT_MAX) ->
  forall st,
    packed_quantity id (packs st)
    <= packed_quantity id
         (packs (fill_items next max_items max_weight max_iterations
                   max_safe_reserve items st))
    <= packed_quantity id (packs st) + requested_quantity id items.
Proof.
  unfold fill_items. induction items as [|i items IH]; intros Hq st; simpl;
    [lia|].
  assert (Hi : get_quantity i <= Int.INT_MAX) by (apply Hq; left; reflexivity).
  pose proof (IH (fun j Hj => Hq j (or_intror Hj))
                (fill_item next max_items max_weight max_iterations
                   max_safe_reserve st i)) as B.
  assert (C : packed_quantity id (packs st)
              <= packed_quantity id
                   (packs (fill_item next max_items max_weight max_iterations
                             max_safe_reserve st i))
              <= packed_quantity id (packs st)
                 + (if get_id i =? id then Z.max 0 (get_quantity i) else 0)).
  { unfold fill_item. destruct (get_quantity i <=? 0) eqn:Q.
    - destruct (get_id i =? id); lia.
    - apply Z.leb_gt in Q.
      pose proof (fill_while_bounded i id (iterations_left max_iterations st)
                    (get_quantity i) st ltac:(lia)).
      destruct (get_id i =? id); lia. }
  destruct (get_id i =? id); lia.
Qed.

End BoundedLoop.

Lemma chunks_cover_items (items : list (item D)) (n : nat) :
  (1 <= n)%nat ->
  concat (map (fun r => slice items (fst r) (snd r))
            (thread_ranges (List.length items / n) (List.length items mod n)
               n 0 0))
  = items.
Proof.
  intros Hn. rewrite thread_ranges_concat, chunks_length_closed. simpl.
  pose proof (Nat.mod_upper_bound (List.length items) n ltac:(lia)) as M.
  pose proof (Nat.div_mod_eq (List.length items) n) as E.
  replace (n * (List.length items / n)
           + (Nat.min n (List.length items mod n) - 0))%nat
    with (List.length items) by lia.
  apply firstn_all.
Qed.

Lemma records_not_negative (id : Z) (this : parallel_pack_strategy)
    (sch : schedule) (items : list (item D)) (max_items : Z) (max_weight : D) :
  Forall (fun p => 0 <= quantity_of id (m_items p))
    (snd (pack_items this sch items max_items max_weight)).
Proof.
  apply (pack_items_packwise (fun p => 0 <= quantity_of id (m_items p))
           (fun _ => True)); auto.
  - intros n. simpl. lia.
  - intros i p q _ H _ Hpos.
    destruct (add_partial_item_cases p (get_id i) (get_length i) q
                (get_weight i) (Z.max 1 max_items) (d_max d_tenth max_weight))
      as [[L _]|[_ [_ [_ X]]]]; [lia|].
    rewrite X, accepted_quantity_of. destruct (get_id i =? id); lia.
Qed.

(** X19.  [pack_items] never packs more than was asked for: in every
    arithmetic, on every branch and under every schedule in which each
    worker merges at most once, the quantity the output holds under an id
    is at least 0 and at most the sum of the positive quantities the input
    asks for under that id. *)
Theorem never_more_than_requested (this : parallel_pack_strategy) (sch : schedule)
    (items : list (item D)) (max_items : Z) (max_weight : D) (id : Z) :
  (forall i, In i items -> get_quantity i <= Int.INT_MAX) ->
  NoDup (merge_order sch) ->
  0 <= packed_quantity id (snd (pack_items this sch items max_items max_weight))
    <= requested_quantity id items.
Proof.
  intros Hq Hnd. split.
  { apply packed_quantity_nonneg. apply records_not_negative. }
  unfold pack_items.
  destruct ((Z.of_nat (List.length items) <? 5000)
            || (clamp_threads (m_num_threads this) =? 1)); simpl.
  - unfold sequential_fill.
    pose proof (fill_items_bounded next_local (Z.max 1 max_items)
                  (d_max d_tenth max_weight) 1000000
                  (Z.min 100000 (Z.of_nat (List.length items) / 10 + 1000))
                  id items Hq (mk_fill_state [] (new_pack 1) 1 0 false)) as B.
    rewrite packed_quantity_fresh in B. lia.
  - set (n := Z.to_nat (clamp_threads (m_num_threads this))).
    set (ranges := thread_ranges _ _ _ _ _).
    set (f := fun w => match nth_error ranges w with
                       | Some r => requested_quantity id
                                     (slice items (fst r) (snd r))
                       | None => 0
                       end).
    assert (Hf : forall w, 0 <= f w).
    { intros w. unfold f. destruct (nth_error ranges w);
        [apply requested_quantity_nonneg | lia]. }
    assert (G : forall order acc,
              packed_quantity id
                (fold_left (run_thread sch items ranges (Z.max 1 max_items)
                              (d_max d_tenth max_weight)) order acc)
              <= packed_quantity id acc + sum_over f order).
    { induction order as [|w order IH]; intros acc; simpl; [lia|].
      eapply Z.le_trans; [apply IH|].
      assert (packed_quantity id
                (run_thread sch items ranges (Z.max 1 max_items)
                   (d_max d_tenth max_weight) acc w)
              <= packed_quantity id acc + f w); [|lia].
      unfold run_thread, f.
      destruct (nth_error ranges w) as [[a b]|]; [|lia].
      unfold worker_thread, merge.
      destruct (Z.of_nat (List.length acc) <? _); [|simpl;
        pose proof (requested_quantity_nonneg id (slice items a b)); lia].
      rewrite packed_quantity_app.
      set (local := local_packs _ _ _ _ _ _).
      assert (L : packed_quantity id local
                  <= requested_quantity id (slice items a b)).
      { unfold local, local_packs.
        pose proof (fill_items_bounded (next_shared (fetch_add sch w))
                      (Z.max 1 (Z.max 1 max_items))
                      (d_max d_tenth (d_max d_tenth max_weight)) 500000
                      (Z.min 20000 (Z.of_nat (b - a) / 10 + 500)) id
                      (slice items a b)
                      (fun j Hj => Hq j (in_chunk _ _ _ _ Hj))
                      (mk_fill_state [] (new_pack (fetch_add sch w 0%nat))
                         1%nat 0 false)) as B.
        rewrite packed_quantity_fresh in B. lia. }
      assert (P : Forall (fun p => 0 <= quantity_of id (m_items p)) local).
      { unfold local.
        apply (local_packs_packwise (fun p => 0 <= quantity_of id (m_items p))
                 (fun _ => True)); auto.
        - intros k. simpl. lia.
        - intros i p q _ H _ Hpos.
          destruct (add_partial_item_cases p (get_id i) (get_length i) q
                      (get_weight i) (Z.max 1 max_items)
                      (d_max d_tenth max_weight))
            as [[L' _]|[_ [_ [_ X]]]]; [lia|].
          rewrite X, accepted_quantity_of. destruct (get_id i =? id); lia. }
      pose proof (packed_quantity_firstn id
                    (Z.to_nat (Z.min (Z.of_nat (List.length local))
                                 (Z.min 200000
                                    (Z.of_nat (List.length items) / 5 + 10000)
                                  - Z.of_nat (List.length acc)))) local P).
      simpl fst. simpl snd. lia. }
    eapply Z.le_trans; [apply G|]. simpl.
    assert (Hn : (1 <= n)%nat).
    { unfold n. pose proof (clamp_threads_range (m_num_threads this)). lia. }
    assert (Len : List.length ranges = n) by apply thread_ranges_length.
    rewrite <- (sum_over_filter f (fun w => (w <? n)%nat)).
    2:{ intros w K. apply Nat.ltb_ge in K. unfold f.
        replace (nth_error ranges w) with (@None (nat * nat)); [reflexivity|].
        symmetry. apply nth_error_None. lia. }
    eapply Z.le_trans.
    { apply (sum_over_incl f Hf _ (seq 0 n)).
      - apply NoDup_filter. exact Hnd.
      - intros w Hw. apply filter_In in Hw. destruct Hw as [_ Hw].
        apply Nat.ltb_lt in Hw. apply in_seq. lia. }
    rewrite <- Len. unfold f.
    rewrite (sum_over_positions
               (fun r => requested_quantity id (slice items (fst r) (snd r)))).
    rewrite <- requested_quantity_concat.
    unfold ranges. fold n. rewrite chunks_cover_items by exact Hn. lia.
Qed.

End Requested.

Lemma never_more_than_requested_witness :
  (forall i, In i [mk_item 1 100 5 2.5%float; mk_item 2 200 3 4%float] ->
             get_quantity i <= Int.INT_MAX)
  /\ NoDup (merge_order example_schedule)
  /\ 0 <= packed_quantity 1
            (snd (pack_items (construct None 8) example_schedule
                    [mk_item 1 100 5 2.5%float; mk_item 2 200 3 4%float] 10
                    25%float))
       <= requested_quantity 1
            [mk_item 1 100 5 2.5%float; mk_item 2 200 3 4%float].
Proof.
  assert (H1 : forall i, In i [mk_item 1 100 5 2.5%float; mk_item 2 200 3 4%float] ->
                         get_quantity i <= Int.INT_MAX).
  { intros i [H|[H|[]]]; subst i; unfold Int.INT_MAX; simpl; lia. }
  assert (H2 : NoDup (merge_order example_schedule)).
  { exact (seq_NoDup 32 0). }
  split; [exact H1|]. split; [exact H2|].
  exact (never_more_than_requested (construct None 8) example_schedule
           [mk_item 1 100 5 2.5%float; mk_item 2 200 3 4%float] 10 25%float 1
           H1 H2).
Defined.

(** ** Too heavy items, on every branch *)

(** X20.  Too heavy items are dropped on every branch: on binary64, when
    every input item of positive quantity that carries an id is heavier
    than the normalized [max_weight], no pack [pack_items] returns, from
    the sequential branch or from a worker, holds a record with that
    id. *)
Theorem too_heavy_item_dropped_everywhere (this : parallel_pack_strategy)
    (sch : schedule) (items : list (item float)) (max_items : Z)
    (max_weight : float) (id : Z) :
  (forall i, In i items -> 0 < get_quantity i -> get_id i = id ->
             d_ltb (d_max d_tenth max_weight) (get_weight i) = true) ->
  forall p r,
    In p (snd (pack_items this sch items max_items max_weight)) ->
    In r (m_items p) ->
    get_id r <> id.
Proof.
  intros Heavy p r Hp Hr.
  assert (F : Forall (fun p : pack float =>
                        d_ltb (m_total_weight p) d_zero = false
                        /\ forall r, In r (m_items p) -> get_id r <> id)
                (snd (pack_items this sch items max_items max_weight))).
  { apply pack_items_packwise_asked
      with (ok := fun i : item float =>
                    get_id i = id ->
                    d_ltb (d_max d_tenth max_weight) (get_weight i) = true).
    - intros n. split; [reflexivity | intros r' []].
    - intros i p' q Hi H Hq Hpos.
      exact (no_heavy_record_accepted id _ i p' q _ Hi H Hpos).
    - exact Heavy. }
  rewrite Forall_forall in F. exact (proj2 (F p Hp) r Hr).
Qed.

Lemma too_heavy_item_dropped_everywhere_witness :
  (forall i, In i [mk_item 1 100 5 50%float; mk_item 2 200 3 4%float] ->
             0 < get_quantity i -> get_id i = 1 ->
             d_ltb (d_max d_tenth 25%float) (get_weight i) = true)
  /\ (forall p r,
        In p (snd (pack_items (construct None 8) example_schedule
                     [mk_item 1 100 5 50%float; mk_item 2 200 3 4%float] 10
                     25%float)) ->
        In r (m_items p) ->
        get_id r <> 1).
Proof.
  assert (H : forall i,
            In i [mk_item 1 100 5 50%float; mk_item 2 200 3 4%float] ->
            0 < get_quantity i -> get_id i = 1 ->
            d_ltb (d_max d_tenth 25%float) (get_weight i) = true).
  { intros i [Hi|[Hi|[]]] _ E; subst i; [reflexivity | discriminate E]. }
  split; [exact H|].
  exact (too_heavy_item_dropped_everywhere (construct None 8) example_schedule
           [mk_item 1 100 5 50%float; mk_item 2 200 3 4%float] 10 25%float 1 H).
Defined.

(** ** The pack numbers of the chunked branch *)

Lemma NoDup_map_injective {A B : Type} (f : A -> B) (l : list A) :
  (forall x y, f x = f y -> x = y) -> NoDup l -> NoDup (map f l).
Proof.
  intros Inj. induction 1 as [|a l Ha _ IH]; simpl; constructor; [|exact IH].
  intros C. apply in_map_iff in C. destruct C as [b [E Hb]].
  apply Inj in E. subst b. contradiction.
Qed.

Lemma firstn_seq (k start len : nat) :
  firstn k (seq start len) = seq start (Nat.min k len).
Proof.
  revert start len. induction k as [|k IH]; intros start len; [reflexivity|].
  destruct len as [|len]; [reflexivity|]. simpl. rewrite IH. reflexivity.
Qed.

Section Numbers.

Context {D : Type} {DD : Double D}.

Lemma local_packs_numbers (fetch : nat -> Z) (items : list (item D))
    (start_idx end_idx : nat) (max_items : Z) (max_weight : D) :
  map m_pack_number
    (local_packs fetch items start_idx end_idx max_items max_weight)
  = map fetch
      (seq 0 (List.length
                (local_packs fetch items start_idx end_idx max_items
                   max_weight))).
Proof.
  unfold local_packs. cbv zeta. unfold packs.
  apply (fill_items_invariant (next_shared fetch) (Z.max 1 max_items)
           (d_max d_tenth max_weight) 500000
           (Z.min 20000 (Z.of_nat (end_idx - start_idx) / 10 + 500))
           (fun fr p src =>
              map m_pack_number (fr ++ [p])
              = map fetch (seq 0 (List.length (fr ++ [p])))
              /\ src = List.length (fr ++ [p]))
           (fun _ => True)); auto.
  - intros i fr p src q _ [H1 H2] _ _.
    rewrite !length_app in *. rewrite map_app in H1. rewrite map_app.
    simpl in *. rewrite add_partial_item_pack_number. auto.
  - intros fr p src [H1 H2] _ _. unfold next_shared. simpl. subst src.
    rewrite (length_app (fr ++ [p])). simpl List.length.
    rewrite Nat.add_1_r, seq_S, map_app, H1, map_app. simpl.
    split; reflexivity.
Qed.

(** X21.  Pack numbers are pairwise distinct on every branch: when the
    counter is atomic (no value handed out twice) and each worker merges at
    most once, no two packs [pack_items] returns carry the same number. *)
Theorem pack_numbers_distinct (this : parallel_pack_strategy) (sch : schedule)
    (items : list (item D)) (max_items : Z) (max_weight : D) :
  atomic sch ->
  NoDup (merge_order sch) ->
  NoDup (map m_pack_number
           (snd (pack_items this sch items max_items max_weight))).
Proof.
  intros Hat Hnd. unfold pack_items.
  destruct ((Z.of_nat (List.length items) <? 5000)
            || (clamp_threads (m_num_threads this) =? 1)); simpl.
  - destruct (sequential_fill_numbers items (Z.max 1 max_items)
                (d_max d_tenth max_weight)) as [H _].
    rewrite H. apply numbers_from_one_NoDup.
  - set (ranges := thread_ranges _ _ _ _ _).
    assert (G : forall order acc,
              NoDup order -> incl order (merge_order sch) ->
              NoDup (map m_pack_number acc) ->
              (forall x, In x (map m_pack_number acc) ->
                         exists w k, In w (merge_order sch) /\ ~ In w order
                                     /\ x = fetch_add sch w k) ->
              NoDup (map m_pack_number
                       (fold_left
                          (run_thread sch items ranges (Z.max 1 max_items)
                             (d_max d_tenth max_weight)) order acc))).
    { induction order as [|w order IH]; intros acc No Inc Na Ha; simpl;
        [exact Na|].
      inversion No as [|? ? Hw No']; subst.
      assert (Inc' : incl order (merge_order sch))
        by (intros x Hx; apply Inc; right; exact Hx).
      assert (Wm : In w (merge_order sch)) by (apply Inc; left; reflexivity).
      assert (Keep : forall x, In x (map m_pack_number acc) ->
                exists w' k, In w' (merge_order sch) /\ ~ In w' order
                             /\ x = fetch_add sch w' k).
      { intros x Hx. destruct (Ha x Hx) as [w' [k [M [N E]]]].
        exists w', k. repeat split; auto. intros C. apply N. right. exact C. }
      unfold run_thread.
      destruct (nth_error ranges w) as [[a b]|]; [|apply IH; assumption].
      unfold worker_thread, merge.
      destruct (Z.of_nat (List.length acc) <? _); [|apply IH; assumption].
      set (local := local_packs _ _ _ _ _ _).
      set (k := Z.to_nat _).
      assert (E : map m_pack_number (firstn k local)
                  = map (fetch_add sch w)
                      (seq 0 (Nat.min k (List.length local)))).
      { rewrite <- firstn_map. unfold local. rewrite local_packs_numbers.
        rewrite firstn_map, firstn_seq. reflexivity. }
      apply IH; [exact No' | exact Inc' | |].
      + rewrite map_app, E. apply NoDup_app; [exact Na | |].
        * apply NoDup_map_injective; [|apply seq_NoDup].
          intros x y Exy. exact (proj2 (Hat w x w y Wm Wm Exy)).
        * intros x Hx C. destruct (Ha x Hx) as [w' [k' [M [N Ex]]]].
          apply in_map_iff in C. destruct C as [k'' [Ek _]].
          rewrite Ex in Ek. apply Hat in Ek; [|exact Wm | exact M].
          destruct Ek as [Ew _]. apply N. left. exact Ew.
      + intros x Hx. rewrite map_app in Hx. apply in_app_or in Hx.
        destruct Hx as [Hx|Hx]; [apply Keep; exact Hx|].
        rewrite E in Hx. apply in_map_iff in Hx. destruct Hx as [k' [Ek _]].
        exists w, k'. repeat split; auto. }
    apply G; [exact Hnd | apply incl_refl | constructor | intros x []].
Qed.

End Numbers.

Lemma round_robin_atomic : atomic round_robin.
Proof.
  intros w k w' k' Hw Hw' E.
  change (In w (seq 0 32)) in Hw. change (In w' (seq 0 32)) in Hw'.
  apply in_seq in Hw. apply in_seq in Hw'.
  change (Z.of_nat (32 * k + w + 1) = Z.of_nat (32 * k' + w' + 1)) in E. lia.
Qed.

Lemma pack_numbers_distinct_witness :
  atomic round_robin
  /\ NoDup (merge_order round_robin)
  /\ NoDup (map m_pack_number
              (snd (pack_items (construct None 8) round_robin
                      (repeat (mk_item 1 100 5 2.5%float) 5000) 10 25%float))).
Proof.
  split; [exact round_robin_atomic|].
  split; [exact (seq_NoDup 32 0)|].
  exact (pack_numbers_distinct (construct None 8) round_robin
           (repeat (mk_item 1 100 5 2.5%float) 5000) 10 25%float
           round_robin_atomic (seq_NoDup 32 0)).
Defined.

(** ** The pack number plays no part *)

Section Renumbering.

Context {D : Type} {DD : Double D}.

Lemma add_partial_item_renumbered (p : pack D) (pack_number : Z)
    (id length quantity : Z) (weight : D) (max_items : Z) (max_weight : D) :
  add_partial_item (set_pack_number p pack_number) id length quantity weight
    max_items max_weight
  = (fst (add_partial_item p id length quantity weight max_items max_weight),
     set_pack_number
       (snd (add_partial_item p id length quantity weight max_items max_weight))
       pack_number).
Proof.
  rewrite !add_partial_item_unfold.
  destruct (guard quantity max_items max_weight); [reflexivity|]. cbv zeta.
  change (can_add (set_pack_number p pack_number) quantity weight max_items
            max_weight)
    with (can_add p quantity weight max_items max_weight).
  destruct (0 <? can_add p quantity weight max_items max_weight); reflexivity.
Qed.

(** X22.  The pack number plays no part in what a pack accepts:
    [add_partial_item] on a renumbered pack returns the same quantity and
    the same pack, renumbered; [is_empty] and [is_full] do not see the
    number; and setting the old number again restores the pack. *)
Theorem set_pack_number_commutes (p : pack D) (pack_number : Z)
    (id length quantity : Z) (weight : D) (max_items : Z) (max_weight : D) :
  add_partial_item (set_pack_number p pack_number) id length quantity weight
    max_items max_weight
  = (fst (add_partial_item p id length quantity weight max_items max_weight),
     set_pack_number
       (snd (add_partial_item p id length quantity weight max_items max_weight))
       pack_number)
  /\ is_empty (set_pack_number p pack_number) = is_empty p
  /\ is_full (set_pack_number p pack_number) max_items max_weight
     = is_full p max_items max_weight
  /\ set_pack_number (set_pack_number p pack_number) (m_pack_number p) = p.
Proof.
  split; [apply add_partial_item_renumbered|].
  split; [reflexivity|]. split; [reflexivity|]. destruct p; reflexivity.
Qed.

Lemma add_partial_item_unnumbered (p p' : pack D) id len q w mi (W : D) :
  unnumbered p = unnumbered p' ->
  fst (add_partial_item p id len q w mi W)
  = fst (add_partial_item p' id len q w mi W)
  /\ unnumbered (snd (add_partial_item p id len q w mi W))
     = unnumbered (snd (add_partial_item p' id len q w mi W)).
Proof.
  intros E. unfold unnumbered in *.
  assert (A : add_partial_item (set_pack_number p 0) id len q w mi W
              = add_partial_item (set_pack_number p' 0) id len q w mi W)
    by (rewrite E; reflexivity).
  rewrite !add_partial_item_renumbered in A.
  pose proof (f_equal fst A) as A1. pose proof (f_equal snd A) as A2.
  cbn [fst snd] in A1, A2. split; assumption.
Qed.

Lemma unnumbered_is_empty (p p' : pack D) :
  unnumbered p = unnumbered p' -> is_empty p = is_empty p'.
Proof.
  intros E. apply (f_equal is_empty) in E. exact E.
Qed.

Section Loops.

Context {S S' : Type}.
Variable next : S -> Z * S.
Variable next' : S' -> Z * S'.
Variables (max_items : Z) (max_weight : D).
Variables (max_iterations max_safe_reserve : Z).

Lemma fill_while_similar (i : item D) :
  forall fuel q (st : fill_state D S) (st' : fill_state D S'),
    similar st st' ->
    similar
      (fill_while next max_items max_weight max_iterations max_safe_reserve
         fuel i q st)
      (fill_while next' max_items max_weight max_iterations max_safe_reserve
         fuel i q st').
Proof.
  induction fuel as [|fuel IH]; intros q st st' H; [exact H|].
  rewrite !fill_while_unfold. destruct (q <=? 0); [exact H|]. cbv zeta.
  destruct H as [Hf [Hb [Hc Hh]]]. rewrite <- Hc.
  destruct (max_iterations <? Int.add (safety_counter st) 1).
  { repeat split; assumption. }
  destruct (add_partial_item_unnumbered (back st) (back st') (get_id i)
              (get_length i) q (get_weight i) max_items max_weight Hb)
    as [E1 E2].
  destruct (add_partial_item (back st) (get_id i) (get_length i) q
              (get_weight i) max_items max_weight) as [a cp].
  destruct (add_partial_item (back st') (get_id i) (get_length i) q
              (get_weight i) max_items max_weight) as [a' cp'].
  simpl in E1, E2. subst a'.
  destruct (0 <? a).
  { apply IH. repeat split; assumption. }
  destruct (d_ltb max_weight (get_weight i)).
  { repeat split; assumption. }
  rewrite <- (unnumbered_is_empty cp cp' E2).
  destruct (is_empty cp).
  { repeat split; assumption. }
  assert (Es : size st = size st').
  { unfold size, packs. rewrite !length_app. simpl.
    apply (f_equal (@List.length (pack D))) in Hf.
    rewrite !length_map in Hf. lia. }
  rewrite <- Es.
  destruct (max_safe_reserve <=? size st).
  { repeat split; assumption. }
  destruct (next (source st)) as [n src].
  destruct (next' (source st')) as [n' src'].
  apply IH. repeat split; try assumption. cbn [front].
  rewrite !map_app. simpl. rewrite Hf, E2. reflexivity.
Qed.

Lemma fill_items_similar (items : list (item D)) :
  forall (st : fill_state D S) (st' : fill_state D S'),
    similar st st' ->
    similar
      (fill_items next max_items max_weight max_iterations max_safe_reserve
         items st)
      (fill_items next' max_items max_weight max_iterations max_safe_reserve
         items st').
Proof.
  unfold fill_items. induction items as [|i items IH]; intros st st' H; simpl;
    [exact H|].
  apply IH. unfold fill_item. destruct (get_quantity i <=? 0); [exact H|].
  assert (E : iterations_left max_iterations st
              = iterations_left max_iterations st').
  { unfold iterations_left. destruct H as [_ [_ [Hc _]]]. rewrite Hc.
    reflexivity. }
  rewrite E. apply fill_while_similar. exact H.
Qed.

End Loops.

Lemma similar_packs {S S' : Type} (st : fill_state D S) (st' : fill_state D S') :
  similar st st' -> map unnumbered (packs st) = map unnumbered (packs st').
Proof.
  intros [Hf [Hb _]]. unfold packs. rewrite !map_app. simpl.
  rewrite Hf, Hb. reflexivity.
Qed.

Lemma local_packs_unnumbered (fetch fetch' : nat -> Z) (items : list (item D))
    (start_idx end_idx : nat) (max_items : Z) (max_weight : D) :
  map unnumbered (local_packs fetch items start_idx end_idx max_items max_weight)
  = map unnumbered
      (local_packs fetch' items start_idx end_idx max_items max_weight).
Proof.
  unfold local_packs. cbv zeta. apply similar_packs. apply fill_items_similar.
  repeat split; reflexivity.
Qed.

(** X23.  The counter decides the pack numbers and nothing else: two
    schedules with the same merge order give the same list of packs up to
    the pack numbers; and the packs of a worker are, up to their numbers,
    those of the sequential loop run on its chunk with the worker's
    ceilings. *)
Theorem contents_do_not_depend_on_the_counter :
  (forall (this : parallel_pack_strategy) (sch sch' : schedule)
          (items : list (item D)) (max_items : Z) (max_weight : D),
      merge_order sch = merge_order sch' ->
      map unnumbered (snd (pack_items this sch items max_items max_weight))
      = map unnumbered (snd (pack_items this sch' items max_items max_weight)))
  /\ (forall (fetch : nat -> Z) (items : list (item D)) (start_idx end_idx : nat)
             (max_items : Z) (max_weight : D),
      map unnumbered
        (local_packs fetch items start_idx end_idx max_items max_weight)
      = map unnumbered
          (packs
             (fill_items next_local (Z.max 1 max_items)
                (d_max d_tenth max_weight) 500000
                (Z.min 20000 (Z.of_nat (end_idx - start_idx) / 10 + 500))
                (slice items start_idx end_idx)
                (mk_fill_state [] (new_pack 1) 1 0 false)))).
Proof.
  split.
  - intros this sch sch' items mi W Em. unfold pack_items.
    destruct ((Z.of_nat (List.length items) <? 5000)
              || (clamp_threads (m_num_threads this) =? 1)); simpl;
      [reflexivity|].
    set (ranges := thread_ranges _ _ _ _ _). rewrite <- Em.
    assert (G : forall order acc acc',
              map unnumbered acc = map unnumbered acc' ->
              map unnumbered
                (fold_left (run_thread sch items ranges (Z.max 1 mi)
                              (d_max d_tenth W)) order acc)
              = map unnumbered
                  (fold_left (run_thread sch' items ranges (Z.max 1 mi)
                                (d_max d_tenth W)) order acc')).
    { induction order as [|w order IH]; intros acc acc' E; simpl; [exact E|].
      apply IH. unfold run_thread.
      destruct (nth_error ranges w) as [[a b]|]; [|exact E].
      unfold worker_thread, merge.
      assert (El : List.length acc = List.length acc').
      { apply (f_equal (@List.length (pack D))) in E.
        rewrite !length_map in E. exact E. }
      pose proof (local_packs_unnumbered (fetch_add sch w) (fetch_add sch' w)
                    items a b (Z.max 1 mi) (d_max d_tenth W)) as L.
      assert (Ell : List.length
                      (local_packs (fetch_add sch w) items a b (Z.max 1 mi)
                         (d_max d_tenth W))
                    = List.length
                        (local_packs (fetch_add sch' w) items a b (Z.max 1 mi)
                           (d_max d_tenth W))).
      { apply (f_equal (@List.length (pack D))) in L.
        rewrite !length_map in L. exact L. }
      rewrite <- El, <- Ell.
      destruct (Z.of_nat (List.length acc) <? _); [|exact E].
      rewrite !map_app, <- !firstn_map, E, L. reflexivity. }
    apply G. reflexivity.
  - intros fetch items a b mi W. unfold local_packs. cbv zeta.
    apply similar_packs. apply fill_items_similar. repeat split; reflexivity.
Qed.

End Renumbering.

Lemma contents_do_not_depend_on_the_counter_witness :
  merge_order example_schedule = merge_order round_robin
  /\ map unnumbered
       (snd (pack_items (construct None 8) example_schedule
               (repeat (mk_item 1 100 5 2.5%float) 5000) 10 25%float))
     = map unnumbered
         (snd (pack_items (construct None 8) round_robin
                 (repeat (mk_item 1 100 5 2.5%float) 5000) 10 25%float)).
Proof.
  split; [reflexivity|].
  exact (proj1 contents_do_not_depend_on_the_counter (construct None 8)
           example_schedule round_robin
           (repeat (mk_item 1 100 5 2.5%float) 5000) 10 25%float eq_refl).
Defined.

(** ** The number of workers in the two implementations *)

(** X24.  The worker count of the C++ strategy and of its C# port: both
    default to 4; the C# count is within [1, 32] from construction on; for
    a thread count of at least 0 (0 selecting the processor count) the two
    implementations use the same number of workers; for a negative thread
    count the C++ strategy, which stores it as [unsigned], uses 32 workers
    and the C# port uses 1. *)
Theorem thread_counts_of_the_two_implementations :
  (forall processors : Z,
      clamp_threads (m_num_threads (construct None processors)) = 4
      /\ CSharp._numThreads (CSharp.construct None processors) = 4)
  /\ (forall thread_count processors : Z,
      Int.in_range thread_count ->
      1 <= CSharp._numThreads (CSharp.construct (Some thread_count) processors)
        <= 32
      /\ (0 <= thread_count ->
          clamp_threads (m_num_threads (construct (Some thread_count) processors))
          = CSharp._numThreads (CSharp.construct (Some thread_count) processors))
      /\ (thread_count < 0 ->
          clamp_threads (m_num_threads (construct (Some thread_count) processors))
          = 32
          /\ CSharp._numThreads (CSharp.construct (Some thread_count) processors)
             = 1)).
Proof.
  split.
  - intros hw. split; reflexivity.
  - intros n hw R. unfold Int.in_range, Int.INT_MIN, Int.INT_MAX in R.
    unfold construct, CSharp.construct, CSharp.Math_Clamp, clamp_threads,
      Int.to_unsigned.
    cbn [m_num_threads CSharp._numThreads].
    split; [|split].
    + destruct (n =? 0); cbn [CSharp._numThreads];
        repeat match goal with
               | |- context [?a <? ?b] => destruct (Z.ltb_spec a b)
               end; lia.
    + intros Hn. rewrite Z.mod_small by lia.
      destruct (n =? 0); cbn [m_num_threads CSharp._numThreads];
        repeat match goal with
               | |- context [?a <? ?b] => destruct (Z.ltb_spec a b)
               end; lia.
    + intros Hn.
      assert (E : n mod 4294967296 = n + 4294967296).
      { symmetry. apply (Z.mod_unique_pos _ _ (-1)); lia. }
      rewrite E.
      replace (n + 4294967296 =? 0) with false by (symmetry; apply Z.eqb_neq; lia).
      replace (n =? 0) with false by (symmetry; apply Z.eqb_neq; lia).
      cbn [m_num_threads CSharp._numThreads].
      replace (n <? 1) with true by (symmetry; apply Z.ltb_lt; lia).
      split; lia.
Qed.

Lemma thread_counts_of_the_two_implementations_witness :
  Int.in_range (-1)
  /\ clamp_threads (m_num_threads (construct (Some (-1)) 8)) = 32
  /\ CSharp._numThreads (CSharp.construct (Some (-1)) 8) = 1.
Proof.
  assert (R : Int.in_range (-1))
    by (unfold Int.in_range, Int.INT_MIN, Int.INT_MAX; lia).
  split; [exact R|].
  apply (proj2 thread_counts_of_the_two_implementations (-1) 8 R). lia.
Defined.

(** ** Conservation in the chunked branch *)

Lemma local_packs_state {D : Type} {DD : Double D} (fetch : nat -> Z)
    (items : list (item D)) (start_idx end_idx : nat) (max_items : Z)
    (max_weight : D) :
  local_packs fetch items start_idx end_idx max_items max_weight
  = packs (local_state fetch items start_idx end_idx max_items max_weight).
Proof. reflexivity. Qed.

Lemma requested_is_quantity_of {D : Type} (id : Z) (items : list (item D)) :
  (forall i, In i items -> 0 < get_quantity i) ->
  requested_quantity id items = quantity_of id items.
Proof.
  induction items as [|i items IH]; intros H; simpl; [reflexivity|].
  rewrite IH by (intros j Hj; apply H; right; exact Hj).
  assert (0 < get_quantity i) by (apply H; left; reflexivity).
  destruct (get_id i =? id); lia.
Qed.

Lemma sum_over_ext (f g : nat -> Z) (l : list nat) :
  (forall w, f w = g w) -> sum_over f l = sum_over g l.
Proof.
  intros H. induction l as [|w l IH]; [reflexivity|].
  unfold sum_over in *. simpl. rewrite IH, H. reflexivity.
Qed.

Section Merged.

Context {D : Type} {DD : Double D}.
Variables (sch : schedule) (items : list (item D)).
Variable ranges : list (nat * nat).
Variables (max_items : Z) (max_weight : D).

Lemma run_thread_grows (acc : list (pack D)) (w : nat) :
  (List.length acc
   <= List.length (run_thread sch items ranges max_items max_weight acc w))%nat.
Proof.
  unfold run_thread. destruct (nth_error ranges w) as [[a b]|]; [|lia].
  unfold worker_thread, merge.
  destruct (Z.of_nat (List.length acc) <? _); [|lia].
  rewrite length_app. lia.
Qed.

Lemma run_threads_grow (order : list nat) :
  forall acc,
    (List.length acc
     <= List.length
          (fold_left (run_thread sch items ranges max_items max_weight)
             order acc))%nat.
Proof.
  induction order as [|w order IH]; intros acc; simpl; [lia|].
  pose proof (IH (run_thread sch items ranges max_items max_weight acc w)).
  pose proof (run_thread_grows acc w). lia.
Qed.

(** Below the ceiling of the merge, a worker's packs are appended whole. *)
Lemma run_thread_whole (acc : list (pack D)) (w : nat) :
  Z.of_nat (List.length
              (run_thread sch items ranges max_items max_weight acc w))
    < Z.min 200000 (Z.of_nat (List.length items) / 5 + 10000) ->
  run_thread sch items ranges max_items max_weight acc w
  = acc ++ match nth_error ranges w with
           | Some r =>
             local_packs (fetch_add sch w) items (fst r) (snd r) max_items
               max_weight
           | None => []
           end.
Proof.
  unfold run_thread. destruct (nth_error ranges w) as [[a b]|];
    [|intros _; rewrite app_nil_r; reflexivity].
  unfold worker_thread, merge. cbn [fst snd].
  set (cap := Z.min 200000 _). set (local := local_packs _ _ _ _ _ _).
  destruct (Z.of_nat (List.length acc) <? cap) eqn:E.
  - apply Z.ltb_lt in E. rewrite length_app, length_firstn. intros H.
    rewrite firstn_all2; [reflexivity|]. lia.
  - apply Z.ltb_ge in E. intros H. lia.
Qed.

Lemma run_threads_whole (id : Z) (order : list nat) :
  forall acc,
    Z.of_nat (List.length
                (fold_left (run_thread sch items ranges max_items max_weight)
                   order acc))
      < Z.min 200000 (Z.of_nat (List.length items) / 5 + 10000) ->
    packed_quantity id
      (fold_left (run_thread sch items ranges max_items max_weight) order acc)
    = packed_quantity id acc
      + sum_over
          (fun w => match nth_error ranges w with
                    | Some r =>
                      packed_quantity id
                        (local_packs (fetch_add sch w) items (fst r) (snd r)
                           max_items max_weight)
                    | None => 0
                    end) order.
Proof.
  induction order as [|w order IH]; intros acc H; simpl in *; [lia|].
  rewrite IH by exact H.
  pose proof (run_threads_grow order
                (run_thread sch items ranges max_items max_weight acc w)) as G.
  rewrite run_thread_whole by lia.
  rewrite packed_quantity_app.
  destruct (nth_error ranges w); simpl; lia.
Qed.

End Merged.

(** X25.  Conservation in the chunked branch: on binary64, when every item
    has a positive quantity, a unit weight that does not exceed the
    normalized [max_weight] and, where the weight is positive, a quotient
    [max_weight / weight] whose integral part is at most [INT_MAX], every
    worker merges once, no worker hits a ceiling of its loop and the result
    stays below the ceiling of the merge, the quantity the output of
    [pack_items] holds under an id is the quantity the input asks for under
    that id. *)
Theorem conservation_in_the_chunked_branch (this : parallel_pack_strategy)
    (sch : schedule) (items : list (item float)) (max_items : Z)
    (max_weight : float) :
  let n := Z.to_nat (clamp_threads (m_num_threads this)) in
  let ranges :=
    thread_ranges (List.length items / n) (List.length items mod n) n 0 0 in
  Int.in_range max_items ->
  (forall i, In i items -> packable (d_max d_tenth max_weight) i) ->
  NoDup (merge_order sch) ->
  (forall w, (w < n)%nat -> In w (merge_order sch)) ->
  (forall w r,
      nth_error ranges w = Some r ->
      ceiling_hit (local_state (fetch_add sch w) items (fst r) (snd r)
                     max_items max_weight) = false) ->
  5000 <= Z.of_nat (List.length items) ->
  clamp_threads (m_num_threads this) <> 1 ->
  Z.of_nat (List.length (snd (pack_items this sch items max_items max_weight)))
    < Z.min 200000 (Z.of_nat (List.length items) / 5 + 10000) ->
  forall id,
    packed_quantity id (snd (pack_items this sch items max_items max_weight))
    = quantity_of id items.
Proof.
  intros n ranges Hr Hok Hnd Hall Hflag Hbig Hn1 Hcap id.
  assert (Hn : (1 <= n)%nat).
  { unfold n. pose proof (clamp_threads_range (m_num_threads this)). lia. }
  assert (Len : List.length ranges = n) by apply thread_ranges_length.
  unfold pack_items in *.
  replace ((Z.of_nat (List.length items) <? 5000)
           || (clamp_threads (m_num_threads this) =? 1)) with false in *.
  2:{ symmetry. apply orb_false_iff. split;
        [apply Z.ltb_ge; lia | apply Z.eqb_neq; exact Hn1]. }
  cbn [snd] in *. fold n in Hcap |- *. fold ranges in Hcap |- *.
  rewrite (run_threads_whole sch items ranges (Z.max 1 max_items)
             (d_max d_tenth max_weight) id) by exact Hcap.
  simpl packed_quantity.
  set (f := fun w => match nth_error ranges w with
                     | Some r => requested_quantity id
                                   (slice items (fst r) (snd r))
                     | None => 0
                     end).
  assert (Hf : forall w, 0 <= f w).
  { intros w. unfold f. destruct (nth_error ranges w);
      [apply requested_quantity_nonneg | lia]. }
  assert (Hpos : forall i, In i items -> 0 < get_quantity i).
  { intros i Hi. destruct (Hok i Hi) as [H _]. lia. }
  assert (E : forall w,
            match nth_error ranges w with
            | Some r =>
              packed_quantity id
                (local_packs (fetch_add sch w) items (fst r) (snd r)
                   (Z.max 1 max_items) (d_max d_tenth max_weight))
            | None => 0
            end = f w).
  { intros w. unfold f. destruct (nth_error ranges w) as [r|] eqn:N;
      [|reflexivity].
    pose proof (Hflag w r N) as Fl.
    rewrite local_packs_state. unfold local_state in *.
    rewrite d_max_idempotent, Z.max_assoc, Z.max_id.
    rewrite (fill_items_conserve (next_shared (fetch_add sch w))
               (Z.max 1 max_items) (d_max d_tenth max_weight) 500000 _
               (packable (d_max d_tenth max_weight))); auto.
    - rewrite packed_quantity_fresh.
      rewrite requested_is_quantity_of; [lia|].
      intros i Hi. apply Hpos. exact (in_chunk _ _ _ _ Hi).
    - unfold Int.INT_MAX. lia.
    - intros i [H _]. exact H.
    - intros i [_ [H _]]. exact H.
    - intros i number q Hi Q0. apply packable_progress; assumption.
    - intros i Hi. apply Hok. exact (in_chunk _ _ _ _ Hi).
    - unfold packs. simpl. constructor; [|constructor]. intros _. reflexivity. }
  assert (Es : forall l,
            sum_over
              (fun w => match nth_error ranges w with
                        | Some r =>
                          packed_quantity id
                            (local_packs (fetch_add sch w) items (fst r) (snd r)
                               (Z.max 1 max_items) (d_max d_tenth max_weight))
                        | None => 0
                        end) l
            = sum_over f l).
  { intros l. apply sum_over_ext. exact E. }
  rewrite Es.
  rewrite <- (sum_over_filter f (fun w => (w <? n)%nat)).
  2:{ intros w K. apply Nat.ltb_ge in K. unfold f.
      replace (nth_error ranges w) with (@None (nat * nat)); [reflexivity|].
      symmetry. apply nth_error_None. lia. }
  assert (Eq : sum_over f (filter (fun w => (w <? n)%nat) (merge_order sch))
               = sum_over f (seq 0 n)).
  { apply Z.le_antisymm.
    - apply (sum_over_incl f Hf).
      + apply NoDup_filter. exact Hnd.
      + intros w Hw. apply filter_In in Hw. destruct Hw as [_ Hw].
        apply Nat.ltb_lt in Hw. apply in_seq. lia.
    - apply (sum_over_incl f Hf).
      + apply seq_NoDup.
      + intros w Hw. apply in_seq in Hw. apply filter_In. split.
        * apply Hall. lia.
        * apply Nat.ltb_lt. lia. }
  rewrite Eq, <- Len. unfold f.
  rewrite (sum_over_positions
             (fun r => requested_quantity id (slice items (fst r) (snd r)))).
  rewrite <- requested_quantity_concat.
  unfold ranges. rewrite chunks_cover_items by exact Hn.
  rewrite requested_is_quantity_of by exact Hpos. lia.
Qed.

Lemma many_items_packable :
  forall i, In i many_items -> packable (d_max d_tenth 25%float) i.
Proof.
  intros i Hi. apply repeat_spec in Hi. subst i. unfold packable.
  cbn [get_quantity get_weight].
  split; [unfold Int.INT_MAX; lia|]. split; [reflexivity|]. intros _.
  exists 25. split; [vm_compute; reflexivity | unfold Int.INT_MAX; lia].
Qed.

Lemma conservation_in_the_chunked_branch_witness :
  (forall i, In i many_items -> packable (d_max d_tenth 25%float) i)
  /\ packed_quantity 1
       (snd (pack_items (construct None 8) round_robin many_items 10 25%float))
     = quantity_of 1 many_items.
Proof.
  split; [exact many_items_packable|].
  apply (conservation_in_the_chunked_branch (construct None 8) round_robin
           many_items 10 25%float).
  - vm_compute. split; discriminate.
  - exact many_items_packable.
  - exact (seq_NoDup 32 0).
  - intros w Hw. change (In w (seq 0 32)). apply in_seq.
    change (w < 4)%nat in Hw. lia.
  - intros w r H.
    destruct w as [|[|[|[|w]]]]; vm_compute in H;
      [| | | | destruct w; discriminate H];
      injection H as H; subst r; lazy; reflexivity.
  - vm_compute. discriminate.
  - vm_compute. discriminate.
  - lazy. reflexivity.
Defined.

(** ** The order of the records *)

Section Order.

Context {D : Type} {DD : Double D}.

Lemma records_app (a b : list (pack D)) : records (a ++ b) = records a ++ records b.
Proof. unfold records. rewrite map_app, concat_app. reflexivity. Qed.

Lemma records_packs {S : Type} (st : fill_state D S) :
  records (packs st) = records (front st) ++ m_items (back st).
Proof.
  unfold packs. rewrite records_app. unfold records at 2. simpl.
  rewrite app_nil_r. reflexivity.
Qed.

Lemma follows_one (i : item D) (new : list (item D)) :
  Forall (recorded_from i) new -> follows [i] new.
Proof.
  induction 1 as [|r new Hr _ IH].
  - apply follows_skip. apply follows_nil.
  - apply follows_take; assumption.
Qed.

Lemma follows_app_one (items rs : list (item D)) (i : item D)
    (new : list (item D)) :
  follows items rs ->
  Forall (recorded_from i) new ->
  follows (items ++ [i]) (rs ++ new).
Proof.
  intros F N. induction F as [|j items rs F IH|j items r rs Hr F IH]; simpl.
  - apply follows_one. exact N.
  - apply follows_skip. exact IH.
  - apply follows_take; [exact Hr | exact IH].
Qed.

Section OrderedLoop.

Context {S : Type}.
Variable next : S -> Z * S.
Variables (max_items : Z) (max_weight : D).
Variables (max_iterations max_safe_reserve : Z).

Lemma fill_while_records (i : item D) :
  forall fuel q st,
    exists new,
      records (packs (fill_while next max_items max_weight max_iterations
                        max_safe_reserve fuel i q st))
      = records (packs st) ++ new
      /\ Forall (recorded_from i) new.
Proof.
  induction fuel as [|fuel IH]; intros q st.
  - exists []. rewrite app_nil_r. split; [reflexivity | constructor].
  - rewrite fill_while_unfold.
    assert (Same : forall (b : pack D) (src : S) c flag,
              b = back st ->
              exists new,
                records (packs (mk_fill_state (front st) b src c flag))
                = records (packs st) ++ new
                /\ Forall (recorded_from i) new).
    { intros b src c flag E. subst b. exists [].
      rewrite app_nil_r, !records_packs. split; [reflexivity | constructor]. }
    destruct (q <=? 0).
    { exists []. rewrite app_nil_r. split; [reflexivity | constructor]. }
    cbv zeta.
    destruct (max_iterations <? Int.add (safety_counter st) 1);
      [apply Same; reflexivity|].
    pose proof (add_partial_item_cases (back st) (get_id i) (get_length i) q
                  (get_weight i) max_items max_weight) as A.
    destruct (add_partial_item (back st) (get_id i) (get_length i) q
                (get_weight i) max_items max_weight) as [a cp].
    cbv zeta in A. cbn [fst snd] in A.
    destruct (0 <? a) eqn:Pa.
    + apply Z.ltb_lt in Pa.
      destruct A as [[A _]|[_ [_ [_ Ecp]]]]; [lia|].
      destruct (IH (Int.sub q a)
                  (mk_fill_state (front st) cp (source st)
                     (Int.add (safety_counter st) 1) (ceiling_hit st)))
        as [new [E F]].
      exists (mk_item (get_id i) (Z.max 1 (get_length i)) a
                (d_max d_zero (get_weight i)) :: new).
      split.
      * rewrite E, !records_packs. cbn [front back]. rewrite Ecp. simpl.
        rewrite <- !app_assoc. reflexivity.
      * constructor; [|exact F]. unfold recorded_from. simpl.
        repeat split; try reflexivity. exact Pa.
    + apply Z.ltb_ge in Pa.
      destruct A as [[_ A]|[A _]]; [subst cp | lia].
      destruct (d_ltb max_weight (get_weight i)); [apply Same; reflexivity|].
      destruct (is_empty (back st)); [apply Same; reflexivity|].
      destruct (max_safe_reserve <=? size st); [apply Same; reflexivity|].
      destruct (next (source st)) as [n src].
      destruct (IH q
                  (mk_fill_state (front st ++ [back st]) (new_pack n) src
                     (Int.add (safety_counter st) 1) (ceiling_hit st)))
        as [new [E F]].
      exists new. split; [|exact F].
      rewrite E, !records_packs. cbn [front back]. fold (packs st).
      rewrite records_packs. simpl. rewrite app_nil_r. reflexivity.
Qed.

Lemma fill_items_records (items : list (item D)) :
  forall done st,
    follows done (records (packs st)) ->
    follows (done ++ items)
      (records (packs (fill_items next max_items max_weight max_iterations
                         max_safe_reserve items st))).
Proof.
  unfold fill_items. induction items as [|i items IH]; intros done st F; simpl.
  - rewrite app_nil_r. exact F.
  - replace (done ++ i :: items) with ((done ++ [i]) ++ items)
      by (rewrite <- app_assoc; reflexivity).
    apply IH. unfold fill_item. destruct (get_quantity i <=? 0).
    + rewrite <- (app_nil_r (records (packs st))).
      apply follows_app_one; [exact F | constructor].
    + destruct (fill_while_records i (iterations_left max_iterations st)
                  (get_quantity i) st) as [new [E N]].
      rewrite E. apply follows_app_one; assumption.
Qed.

End OrderedLoop.

(** X26.  The records follow the input order: read pack by pack, the records
    the sequential branch returns are made from the items in input order,
    each item giving zero or more consecutive records with its id, its
    length raised to at least 1 and its weight raised to at least 0; the
    same holds of the packs a worker builds and the items of its chunk. *)
Theorem records_follow_the_input_order :
  (forall (this : parallel_pack_strategy) (sch : schedule)
          (items : list (item D)) (max_items : Z) (max_weight : D),
      Z.of_nat (List.length items) < 5000
      \/ clamp_threads (m_num_threads this) = 1 ->
      follows items
        (records (snd (pack_items this sch items max_items max_weight))))
  /\ (forall (fetch : nat -> Z) (items : list (item D)) (start_idx end_idx : nat)
             (max_items : Z) (max_weight : D),
      follows (slice items start_idx end_idx)
        (records (local_packs fetch items start_idx end_idx max_items
                    max_weight))).
Proof.
  split.
  - intros this sch items mi W Hsmall.
    rewrite pack_items_sequential by exact Hsmall. unfold sequential_fill.
    apply (fill_items_records next_local (Z.max 1 mi) (d_max d_tenth W) 1000000
             _ items []).
    apply follows_nil.
  - intros fetch items a b mi W. unfold local_packs. cbv zeta.
    apply (fill_items_records (next_shared fetch) (Z.max 1 mi)
             (d_max d_tenth W) 500000 _ (slice items a b) []).
    apply follows_nil.
Qed.

End Order.

Lemma records_follow_the_input_order_witness :
  (Z.of_nat (List.length [mk_item 1 100 15 1%float; mk_item 2 200 3 4%float])
     < 5000
   \/ clamp_threads (m_num_threads (construct None 8)) = 1)
  /\ follows [mk_item 1 100 15 1%float; mk_item 2 200 3 4%float]
       (records
          (snd (pack_items (construct None 8) example_schedule
                  [mk_item 1 100 15 1%float; mk_item 2 200 3 4%float] 10
                  25%float))).
Proof.
  assert (H : Z.of_nat (List.length
                          [mk_item 1 100 15 1%float; mk_item 2 200 3 4%float])
                < 5000
              \/ clamp_threads (m_num_threads (construct None 8)) = 1)
    by (left; simpl; lia).
  split; [exact H|].
  exact (proj1 records_follow_the_input_order (construct None 8)
           example_schedule
           [mk_item 1 100 15 1%float; mk_item 2 200 3 4%float] 10 25%float H).
Defined.

(** ** A pack is closed only when the next item does not fit *)

Section Rejection.

Context {D : Type} {DD : Double D}.

(** Whether a pack rejects an item depends neither on the quantity asked
    for nor on the id and the length. *)
Lemma rejection_independent (p : pack D) id len q id' len' q' (w : D) mi (W : D) :
  0 < q -> 0 < q' ->
  fst (add_partial_item p id len q w mi W) <= 0 ->
  fst (add_partial_item p id' len' q' (d_max d_zero w) mi W) <= 0.
Proof.
  intros Hq Hq'. rewrite !add_partial_item_unfold.
  assert (G : guard q' mi W = guard q mi W).
  { unfold guard. replace (q <=? 0) with false by (symmetry; apply Z.leb_gt; lia).
    replace (q' <=? 0) with false by (symmetry; apply Z.leb_gt; lia).
    reflexivity. }
  rewrite G. destruct (guard q mi W); [simpl; lia|]. cbv zeta.
  assert (C : can_add p q w mi W <= 0 ->
              can_add p q' (d_max d_zero w) mi W <= 0).
  { unfold can_add. rewrite d_max_idempotent.
    destruct (d_eqb (d_max d_zero w) d_zero); lia. }
  destruct (0 <? can_add p q w mi W) eqn:E1;
    destruct (0 <? can_add p q' (d_max d_zero w) mi W) eqn:E2; simpl;
    intros H; try (apply C; exact H).
Qed.

Lemma greedy_new_pack (mi : Z) (W : D) (ps : list (pack D)) (n : Z) :
  greedy mi W ps -> greedy mi W (ps ++ [new_pack n]).
Proof.
  intros G before p p' after r rs E Hr.
  destruct after as [|x after' _] using rev_ind.
  - change (ps ++ [new_pack n] = before ++ [p] ++ [p']) in E.
    rewrite app_assoc in E. apply app_inj_tail in E. destruct E as [_ E].
    subst p'. discriminate Hr.
  - change (ps ++ [new_pack n] = before ++ (p :: p' :: after') ++ [x]) in E.
    rewrite app_assoc in E. apply app_inj_tail in E. destruct E as [E _].
    exact (G before p p' after' r rs E Hr).
Qed.

(** The current pack changes, its first record does not (or it had none
    and its predecessor has no room for the new one). *)
Lemma greedy_back (mi : Z) (W : D) (fr : list (pack D)) (b b' : pack D) :
  greedy mi W (fr ++ [b]) ->
  (forall r rs, m_items b' = r :: rs ->
     (exists rs', m_items b = r :: rs')
     \/ (forall fr' p, fr = fr' ++ [p] -> no_room mi W p r)) ->
  greedy mi W (fr ++ [b']).
Proof.
  intros G First before p p' after r rs E Hr.
  destruct after as [|x after' _] using rev_ind.
  - change (fr ++ [b'] = before ++ [p] ++ [p']) in E.
    rewrite app_assoc in E. apply app_inj_tail in E. destruct E as [E1 E2].
    subst p'. destruct (First r rs Hr) as [[rs' Hb]|P].
    + apply (G before p b [] r rs'); [|exact Hb].
      rewrite E1, <- app_assoc. reflexivity.
    + apply (P before p). exact E1.
  - change (fr ++ [b'] = before ++ (p :: p' :: after') ++ [x]) in E.
    rewrite app_assoc in E. apply app_inj_tail in E. destruct E as [E _].
    apply (G before p p' (after' ++ [b]) r rs); [|exact Hr].
    rewrite E, <- app_assoc. reflexivity.
Qed.

End Rejection.

Section GreedyLoop.

Context {D : Type} {DD : Double D} {S : Type}.
Variable next : S -> Z * S.
Variables (max_items : Z) (max_weight : D).
Variables (max_iterations max_safe_reserve : Z).
Variable ok : item D -> Prop.

Hypothesis ceiling_small : max_iterations < Int.INT_MAX.

Hypothesis ok_quantity : forall i, ok i -> 0 < get_quantity i <= Int.INT_MAX.

Hypothesis ok_light : forall i, ok i -> d_ltb max_weight (get_weight i) = false.

Hypothesis ok_progress :
  forall i number q,
    ok i -> 0 < q ->
    0 < fst (add_partial_item (new_pack number) (get_id i) (get_length i) q
               (get_weight i) max_items max_weight).

(** Between two items: the list is greedy, and the current pack is empty
    only when it is the first one. *)
#[local] Abbreviation settled st :=
  (greedy max_items max_weight (packs st)
   /\ Forall untouched (packs st)
   /\ (m_items (back st) = [] -> front st = [])).

(** Inside the loop of item [i]: an empty current pack behind another pack
    was opened because that pack has no room for [i]. *)
#[local] Abbreviation filling i q st :=
  (greedy max_items max_weight (packs st)
   /\ Forall untouched (packs st)
   /\ (m_items (back st) = [] ->
       front st = []
       \/ (0 < q
           /\ forall fr p,
                front st = fr ++ [p] ->
                fst (add_partial_item p (get_id i) (Z.max 1 (get_length i)) 1
                       (d_max d_zero (get_weight i)) max_items max_weight)
                <= 0))).

Lemma fill_while_greedy (i : item D) :
  ok i ->
  forall fuel q st,
    0 <= q <= Int.INT_MAX ->
    needed max_iterations st <= Z.of_nat fuel ->
    filling i q st ->
    ceiling_hit (fill_while next max_items max_weight max_iterations
                   max_safe_reserve fuel i q st) = false ->
    settled (fill_while next max_items max_weight max_iterations
               max_safe_reserve fuel i q st).
Proof.
  intros Hi. induction fuel as [|fuel IH]; intros q st Hq Hfuel J.
  - unfold needed in Hfuel. exfalso.
    destruct (max_iterations <? Int.add (safety_counter st) 1) eqn:E;
      [simpl in Hfuel; lia|].
    apply Z.ltb_ge in E. simpl in Hfuel. lia.
  - rewrite fill_while_unfold. destruct J as [G [U P]].
    destruct (q <=? 0) eqn:Q.
    { apply Z.leb_le in Q. intros _. repeat split; [exact G | exact U|].
      intros Em. destruct (P Em) as [F|[F _]]; [exact F | lia]. }
    apply Z.leb_gt in Q. cbv zeta.
    destruct (max_iterations <? Int.add (safety_counter st) 1) eqn:C;
      [simpl; discriminate|].
    assert (Hfuel' : forall (fr : list (pack D)) (b : pack D) (src : S) flag,
               needed max_iterations
                 (mk_fill_state fr b src (Int.add (safety_counter st) 1) flag)
               <= Z.of_nat fuel).
    { intros fr b src flag.
      apply (needed_after_step max_iterations fuel st); assumption. }
    pose proof (add_partial_item_cases (back st) (get_id i) (get_length i) q
                  (get_weight i) max_items max_weight) as A.
    destruct (add_partial_item (back st) (get_id i) (get_length i) q
                (get_weight i) max_items max_weight) as [a cp] eqn:EA.
    cbv zeta in A. cbn [fst snd] in A.
    unfold packs in U. apply Forall_app in U. destruct U as [Ufr Ub].
    destruct (0 <? a) eqn:Pa.
    + apply Z.ltb_lt in Pa.
      destruct A as [[A _]|[_ [_ [Ea Ecp]]]]; [lia|].
      assert (La : a <= q) by (rewrite Ea; unfold can_add; lia).
      rewrite sub_in_range
        by (unfold Int.in_range, Int.INT_MIN, Int.INT_MAX in *; lia).
      apply IH; [lia | apply Hfuel' |].
      assert (Ei : m_items cp
                   = m_items (back st)
                     ++ [mk_item (get_id i) (Z.max 1 (get_length i)) a
                           (d_max d_zero (get_weight i))])
        by (rewrite Ecp; reflexivity).
      repeat split.
      * unfold packs. cbn [front back].
        apply (greedy_back max_items max_weight (front st) (back st) cp);
          [exact G|].
        intros r rs Hr. rewrite Ei in Hr.
        destruct (m_items (back st)) as [|r0 rs0] eqn:Eb.
        -- right. simpl in Hr. injection Hr as Hr _. subst r.
           intros fr' p Ef. unfold no_room. cbn [get_id get_length get_weight].
           destruct (P eq_refl) as [F|[_ F]].
           ++ rewrite F in Ef. destruct fr'; discriminate Ef.
           ++ exact (F fr' p Ef).
        -- left. simpl in Hr. injection Hr as Hr _. subst r.
           exists rs0. reflexivity.
      * unfold packs. cbn [front back]. apply Forall_app. split; [exact Ufr|].
        constructor; [|constructor]. intros X. rewrite Ei in X.
        destruct (m_items (back st)); discriminate X.
      * cbn [front back]. intros X. rewrite Ei in X.
        destruct (m_items (back st)); discriminate X.
    + apply Z.ltb_ge in Pa.
      destruct A as [[_ A]|[A _]]; [subst cp | lia].
      rewrite (ok_light i Hi).
      destruct (is_empty (back st)) eqn:Em.
      { exfalso. apply is_empty_spec in Em.
        inversion Ub as [|? ? Ub' _]; subst.
        pose proof (ok_progress i (m_pack_number (back st)) q Hi Q) as Pr.
        rewrite <- (Ub' Em) in Pr. rewrite EA in Pr. simpl in Pr. lia. }
      destruct (max_safe_reserve <=? size st); [simpl; discriminate|].
      destruct (next (source st)) as [n src].
      apply IH; [exact Hq | apply Hfuel' |].
      repeat split.
      * unfold packs. cbn [front back]. apply greedy_new_pack. exact G.
      * unfold packs. cbn [front back]. apply Forall_app. split.
        -- apply Forall_app. split; assumption.
        -- constructor; [|constructor]. intros _. reflexivity.
      * cbn [front back]. intros _. right. split; [exact Q|].
        intros fr p Ef. apply app_inj_tail in Ef. destruct Ef as [_ Ef].
        subst p.
        apply (rejection_independent (back st) (get_id i) (get_length i) q
                 (get_id i) (Z.max 1 (get_length i)) 1 (get_weight i)
                 max_items max_weight); [exact Q | lia |].
        rewrite EA. exact Pa.
Qed.

Lemma fill_items_greedy (items : list (item D)) :
  (forall i, In i items -> ok i) ->
  forall st,
    settled st ->
    ceiling_hit (fill_items next max_items max_weight max_iterations
                   max_safe_reserve items st) = false ->
    settled (fill_items next max_items max_weight max_iterations
               max_safe_reserve items st).
Proof.
  unfold fill_items.
  induction items as [|i items IH]; intros Hok st K Hflag; simpl in *;
    [exact K|].
  assert (Hi : ok i) by (apply Hok; left; reflexivity).
  pose proof (ok_quantity i Hi) as Hq.
  assert (F1 : ceiling_hit (fill_item next max_items max_weight max_iterations
                              max_safe_reserve st i) = false).
  { destruct (ceiling_hit (fill_item next max_items max_weight max_iterations
                             max_safe_reserve st i)) eqn:E; [|reflexivity].
    pose proof (ceiling_hit_stays_items next max_items max_weight
                  max_iterations max_safe_reserve items _ E) as X.
    unfold fill_items in X. congruence. }
  apply IH; [intros j Hj; apply Hok; right; exact Hj | | exact Hflag].
  unfold fill_item in *.
  replace (get_quantity i <=? 0) with false in *
    by (symmetry; apply Z.leb_gt; lia).
  apply fill_while_greedy; [exact Hi | lia | | | exact F1].
  - unfold needed, iterations_left.
    destruct (max_iterations <? Int.add (safety_counter st) 1) eqn:E; lia.
  - destruct K as [G [U P]]. repeat split; [exact G | exact U|].
    intros Em. left. exact (P Em).
Qed.

End GreedyLoop.

(** X27.  A pack is closed only when the next item does not fit: in the
    output of the sequential branch on binary64, for items of positive
    quantity, a unit weight that does not exceed the normalized
    [max_weight] and, where the weight is positive, a quotient
    [max_weight / weight] whose integral part is at most [INT_MAX], and
    when no ceiling is hit, every pack that is followed by another one
    accepts not one more unit of the first record of its successor. *)
Theorem pack_closed_when_nothing_fits (this : parallel_pack_strategy)
    (sch : schedule) (items : list (item float)) (max_items : Z)
    (max_weight : float) :
  Z.of_nat (List.length items) < 5000 \/ clamp_threads (m_num_threads this) = 1 ->
  Int.in_range max_items ->
  (forall i, In i items -> packable (d_max d_tenth max_weight) i) ->
  ceiling_hit (sequential_fill items (Z.max 1 max_items)
                 (d_max d_tenth max_weight)) = false ->
  forall before p p' after r rs,
    snd (pack_items this sch items max_items max_weight)
    = before ++ p :: p' :: after ->
    m_items p' = r :: rs ->
    no_room (Z.max 1 max_items) (d_max d_tenth max_weight) p r.
Proof.
  intros Hsmall Hr Hok Hflag before p p' after r rs E Er.
  rewrite pack_items_sequential in E by exact Hsmall.
  unfold sequential_fill in *.
  destruct (fill_items_greedy next_local (Z.max 1 max_items)
              (d_max d_tenth max_weight) 1000000
              (Z.min 100000 (Z.of_nat (List.length items) / 10 + 1000))
              (packable (d_max d_tenth max_weight))) with
    (items := items) (st := mk_fill_state (D := float) [] (new_pack 1) 1 0 false)
    as [G _].
  - unfold Int.INT_MAX. lia.
  - intros i [H _]. exact H.
  - intros i [_ [H _]]. exact H.
  - intros i number q Hi Q0. apply packable_progress; assumption.
  - exact Hok.
  - repeat split.
    + intros b q q' a r' rs' X. destruct b as [|? [|? ?]]; discriminate X.
    + unfold packs. simpl. constructor; [|constructor]. intros _. reflexivity.
  - exact Hflag.
  - exact (G before p p' after r rs E Er).
Qed.

Lemma pack_closed_when_nothing_fits_witness :
  (forall i, In i two_items -> packable (d_max d_tenth 25%float) i)
  /\ (forall before p p' after r rs,
        snd (pack_items (construct None 8) example_schedule two_items 3 25%float)
        = before ++ p :: p' :: after ->
        m_items p' = r :: rs ->
        no_room (Z.max 1 3) (d_max d_tenth 25%float) p r).
Proof.
  split; [exact two_items_packable|].
  apply (pack_closed_when_nothing_fits (construct None 8) example_schedule
           two_items 3 25%float).
  - left. vm_compute. reflexivity.
  - vm_compute. split; discriminate.
  - exact two_items_packable.
  - vm_compute. reflexivity.
Defined.

(** ** The loops of the C# port *)

Section Port.

Context {D : Type} {DD : Double D}.

Section AnyPack.

Context {P : Type} {PP : CSharp.Pack (D := D) P}.

Lemma while_loop_count {S : Type} (next : S -> Z * S) (maxItems : Z)
    (maxWeight : D) (maxIterations maxSafeReserve : Z) (item : item D) :
  forall fuel q (st : CSharp.state S),
    CSharp.Count S st <= maxSafeReserve ->
    CSharp.Count S
      (CSharp.while_loop S next maxItems maxWeight maxIterations maxSafeReserve
         fuel item q st)
    <= maxSafeReserve.
Proof.
  induction fuel as [|fuel IH]; intros q st H; simpl; [exact H|].
  destruct (q <=? 0); [exact H|].
  destruct (maxIterations <? Int.add (CSharp.safetyCounter S st) 1); [exact H|].
  destruct (CSharp.AddPartialItem _ _ _ _ _ _ _) as [a pack].
  assert (Same : forall c,
            CSharp.Count S (CSharp.mk_state S (CSharp.before S st) pack
                          (CSharp.packNumbers S st) c) <= maxSafeReserve).
  { intros c. unfold CSharp.Count in *. simpl. rewrite length_app in *.
    simpl in *. exact H. }
  destruct (0 <? a); [apply IH; apply Same|].
  destruct (d_ltb maxWeight (get_weight item)); [apply Same|].
  destruct (CSharp.IsEmpty pack); [apply Same|].
  destruct (maxSafeReserve <=? CSharp.Count S st) eqn:R; [apply Same|].
  apply Z.leb_gt in R. destruct (next (CSharp.packNumbers S st)) as [n numbers].
  apply IH. unfold CSharp.Count in *. simpl. rewrite !length_app in *.
  simpl in *. lia.
Qed.

(** The fuel of [foreach_item] is enough: the counter ends the loop
    before the fuel does. *)
Lemma while_loop_fuel_enough {S : Type} (next : S -> Z * S) (maxItems : Z)
    (maxWeight : D) (maxIterations maxSafeReserve : Z) (item : item D) :
  maxIterations < Int.INT_MAX ->
  forall fuel extra q (st : CSharp.state S),
    (if maxIterations <? Int.add (CSharp.safetyCounter S st) 1 then 1
     else maxIterations - Int.add (CSharp.safetyCounter S st) 1 + 2)
      <= Z.of_nat fuel ->
    CSharp.while_loop S next maxItems maxWeight maxIterations maxSafeReserve
      (fuel + extra) item q st
    = CSharp.while_loop S next maxItems maxWeight maxIterations maxSafeReserve
        fuel item q st.
Proof.
  intros Hc. induction fuel as [|fuel IH]; intros extra q st Hfuel.
  - exfalso.
    destruct (maxIterations <? Int.add (CSharp.safetyCounter S st) 1) eqn:E;
      [simpl in Hfuel; lia|].
    apply Z.ltb_ge in E. simpl in Hfuel. lia.
  - simpl. destruct (q <=? 0); [reflexivity|].
    destruct (maxIterations <? Int.add (CSharp.safetyCounter S st) 1) eqn:C;
      [reflexivity|].
    apply Z.ltb_ge in C.
    assert (Next : forall b (pk : P) src,
              (if maxIterations
                  <? Int.add
                       (CSharp.safetyCounter S
                          (CSharp.mk_state S b pk src
                             (Int.add (CSharp.safetyCounter S st) 1))) 1
               then 1
               else maxIterations
                    - Int.add
                        (CSharp.safetyCounter S
                           (CSharp.mk_state S b pk src
                              (Int.add (CSharp.safetyCounter S st) 1))) 1 + 2)
              <= Z.of_nat fuel).
    { intros b pk src. cbn [CSharp.safetyCounter].
      pose proof (wrap_range (CSharp.safetyCounter S st + 1)) as R.
      fold (Int.add (CSharp.safetyCounter S st) 1) in R.
      rewrite (add_in_range (Int.add (CSharp.safetyCounter S st) 1) 1)
        by (unfold Int.in_range, Int.INT_MIN, Int.INT_MAX in *; lia).
      destruct (maxIterations <? Int.add (CSharp.safetyCounter S st) 1 + 1);
        lia. }
    destruct (CSharp.AddPartialItem _ _ _ _ _ _ _) as [a pack].
    destruct (0 <? a); [apply IH; apply Next|].
    destruct (d_ltb maxWeight (get_weight item)); [reflexivity|].
    destruct (CSharp.IsEmpty pack); [reflexivity|].
    destruct (maxSafeReserve <=? CSharp.Count S st); [reflexivity|].
    destruct (next (CSharp.packNumbers S st)) as [n numbers].
    apply IH. apply Next.
Qed.

Lemma foreach_count {S : Type} (next : S -> Z * S) (maxItems : Z)
    (maxWeight : D) (maxIterations maxSafeReserve : Z) (items : list (item D)) :
  forall st : CSharp.state S,
    CSharp.Count S st <= maxSafeReserve ->
    CSharp.Count S
      (fold_left
         (CSharp.foreach_item S next maxItems maxWeight maxIterations
            maxSafeReserve) items st)
    <= maxSafeReserve.
Proof.
  induction items as [|i items IH]; intros st H; simpl; [exact H|].
  apply IH. unfold CSharp.foreach_item. destruct (get_quantity i <=? 0); [exact H|].
  apply while_loop_count. exact H.
Qed.

Lemma add_packs_all (maxTotalPacks : Z) (local : list P) :
  forall packsToAdd resultPacks,
    0 <= packsToAdd ->
    packsToAdd + Z.of_nat (List.length local) <= maxTotalPacks ->
    maxTotalPacks <= Int.INT_MAX ->
    CSharp.add_packs maxTotalPacks local packsToAdd resultPacks
    = resultPacks ++ local.
Proof.
  induction local as [|pack rest IH]; intros k bag H0 H Hmax; simpl.
  - rewrite app_nil_r. reflexivity.
  - simpl List.length in H.
    replace (maxTotalPacks <=? k) with false by (symmetry; apply Z.leb_gt; lia).
    rewrite add_in_range
      by (unfold Int.in_range, Int.INT_MIN, Int.INT_MAX in *; lia).
    rewrite IH by lia. rewrite <- app_assoc. reflexivity.
Qed.

(** X28.  The C# worker adds every pack it builds: whatever the class [Pack]
    does, [WorkerThread] builds at least one pack and at most
    [min (20000, chunk_size / 10 + 500)], and its limit
    [min (200000, item_count / 5 + 10000)], which counts the packs of this
    worker alone, is never reached: the bag receives all of them.  (The C++
    worker stops at that limit counted over all workers.) *)
Theorem csharp_worker_adds_every_pack (fetch : nat -> Z)
    (items : list (item D)) (startIdx endIdx : nat) (maxItems : Z)
    (maxWeight : D) (resultPacks : list P) :
  (startIdx <= endIdx <= List.length items)%nat ->
  1 <= Z.of_nat
         (List.length
            (CSharp.localPacks fetch items startIdx endIdx maxItems maxWeight))
    <= Z.min 20000 (Z.of_nat (endIdx - startIdx) / 10 + 500)
  /\ CSharp.WorkerThread fetch items startIdx endIdx maxItems maxWeight resultPacks
     = resultPacks
       ++ CSharp.localPacks fetch items startIdx endIdx maxItems maxWeight.
Proof.
  intros Hidx.
  assert (Eq : Z.quot (Z.of_nat endIdx - Z.of_nat startIdx) 10
               = Z.of_nat (endIdx - startIdx) / 10).
  { rewrite Z.quot_div_nonneg by lia. f_equal. lia. }
  assert (B : 1 <= Z.of_nat
                     (List.length
                        (CSharp.localPacks fetch items startIdx endIdx maxItems
                           maxWeight))
              <= Z.min 20000 (Z.of_nat (endIdx - startIdx) / 10 + 500)).
  { unfold CSharp.localPacks. cbv zeta. rewrite Eq. split.
    - rewrite length_app. simpl. lia.
    - apply (foreach_count (next_shared fetch)). unfold CSharp.Count. simpl.
      pose proof (Z.div_pos (Z.of_nat (endIdx - startIdx)) 10). lia. }
  split; [exact B|].
  unfold CSharp.WorkerThread. cbv zeta.
  rewrite Z.quot_div_nonneg by lia.
  assert (Z.of_nat (endIdx - startIdx) / 10
          <= Z.of_nat (List.length items) / 10)
    by (apply Z.div_le_mono; lia).
  assert (Z.of_nat (List.length items) / 10
          <= Z.of_nat (List.length items) / 5)
    by (apply Z.div_le_compat_l; lia).
  apply add_packs_all; [lia | lia | unfold Int.INT_MAX; lia].
Qed.

End AnyPack.

(** The state of the C# loop that corresponds to a state of the loop of
    the engine. *)
#[local] Abbreviation ported S st :=
  (CSharp.mk_state (P := pack D) S (front st) (back st) (source st)
     (safety_counter st)).

Lemma while_loop_ported {S : Type} (next : S -> Z * S) (max_items : Z)
    (max_weight : D) (max_iterations max_safe_reserve : Z) (i : item D) :
  forall fuel q (st : fill_state D S),
    CSharp.while_loop S next max_items max_weight max_iterations max_safe_reserve
      fuel i q (ported S st)
    = ported S (fill_while next max_items max_weight max_iterations
                  max_safe_reserve fuel i q st).
Proof.
  induction fuel as [|fuel IH]; intros q st; [reflexivity|].
  rewrite fill_while_unfold. simpl CSharp.while_loop.
  destruct (q <=? 0); [reflexivity|]. cbv zeta.
  destruct (max_iterations <? Int.add (safety_counter st) 1); [reflexivity|].
  destruct (add_partial_item (back st) (get_id i) (get_length i) q
              (get_weight i) max_items max_weight) as [a cp].
  destruct (0 <? a); [apply (IH _ (mk_fill_state _ _ _ _ _))|].
  destruct (d_ltb max_weight (get_weight i)); [reflexivity|].
  change (CSharp.IsEmpty cp) with (is_empty cp).
  destruct (is_empty cp); [reflexivity|].
  change (CSharp.Count S (ported S st)) with (size st).
  destruct (max_safe_reserve <=? size st); [reflexivity|].
  destruct (next (source st)) as [n src].
  apply (IH _ (mk_fill_state _ _ _ _ _)).
Qed.

Lemma foreach_ported {S : Type} (next : S -> Z * S) (max_items : Z)
    (max_weight : D) (max_iterations max_safe_reserve : Z)
    (items : list (item D)) :
  forall st : fill_state D S,
    fold_left
      (CSharp.foreach_item S next max_items max_weight max_iterations
         max_safe_reserve) items (ported S st)
    = ported S (fill_items next max_items max_weight max_iterations
                  max_safe_reserve items st).
Proof.
  unfold fill_items. induction items as [|i items IH]; intros st; simpl;
    [reflexivity|].
  rewrite <- IH. f_equal. unfold CSharp.foreach_item, fill_item.
  cbn [CSharp.safetyCounter].
  destruct (get_quantity i <=? 0); [reflexivity|].
  apply while_loop_ported.
Qed.

(** X29.  The sequential path of the C# port is the sequential branch of the
    C++ strategy: for a class [Pack] that behaves as the C++ pack does, and
    a [max_weight] for which [Math.Max] and [std::max] give the same floor
    (they differ for NaN), [PackItemsSequential] returns the list of packs
    the sequential branch of [pack_items] returns. *)
Theorem csharp_sequential_agrees (this : parallel_pack_strategy)
    (sch : schedule) (items : list (item D)) (max_items : Z) (max_weight : D) :
  CSharp.Math_Max d_tenth max_weight = d_max d_tenth max_weight ->
  CSharp.PackItemsSequential (P := pack D) items max_items max_weight
  = packs (sequential_fill items (Z.max 1 max_items) (d_max d_tenth max_weight))
  /\ (Z.of_nat (List.length items) < 5000
      \/ clamp_threads (m_num_threads this) = 1 ->
      CSharp.PackItemsSequential (P := pack D) items max_items max_weight
      = snd (pack_items this sch items max_items max_weight)).
Proof.
  intros Hmax.
  assert (E : CSharp.PackItemsSequential (P := pack D) items max_items max_weight
              = packs (sequential_fill items (Z.max 1 max_items)
                         (d_max d_tenth max_weight))).
  { unfold CSharp.PackItemsSequential, sequential_fill. cbv zeta.
    rewrite Hmax, Z.quot_div_nonneg by lia.
    change (CSharp.mk_state Z [] (CSharp.new_Pack 1) 1 0)
      with (ported Z (mk_fill_state (D := D) [] (new_pack 1) 1 0 false)).
    rewrite (foreach_ported next_local (Z.max 1 max_items)
               (d_max d_tenth max_weight) 1000000 _ items
               (mk_fill_state [] (new_pack 1) 1 0 false)).
    reflexivity. }
  split; [exact E|].
  intros Hsmall. rewrite pack_items_sequential by exact Hsmall. exact E.
Qed.


End Port.



(** On binary64 they differ for NaN: [Math.Max] returns it, [std::max]
    returns 0.1. *)
Lemma floors_differ_on_nan :
  PrimFloat.is_nan (CSharp.Math_Max d_tenth nan) = true
  /\ d_max d_tenth nan = d_tenth.
Proof. split; reflexivity. Qed.

Lemma csharp_worker_adds_every_pack_witness :
  (0 <= 2 <= List.length [mk_item 1 100 5 2.5%float; mk_item 2 200 3 4%float])%nat
  /\ CSharp.WorkerThread (P := pack float) (fetch_add round_robin 0)
       [mk_item 1 100 5 2.5%float; mk_item 2 200 3 4%float] 0 2 10 25%float []
     = [] ++ CSharp.localPacks (fetch_add round_robin 0)
               [mk_item 1 100 5 2.5%float; mk_item 2 200 3 4%float] 0 2 10
               25%float.
Proof.
  assert (H : (0 <= 2 <= List.length
                             [mk_item 1 100 5 2.5%float;
                              mk_item 2 200 3 4%float])%nat)
    by (simpl; lia).
  split; [exact H|].
  exact (proj2 (csharp_worker_adds_every_pack (fetch_add round_robin 0)
                  [mk_item 1 100 5 2.5%float; mk_item 2 200 3 4%float] 0 2 10
                  25%float [] H)).
Defined.

Lemma csharp_sequential_agrees_witness :
  CSharp.Math_Max d_tenth 25%float = d_max d_tenth 25%float
  /\ CSharp.PackItemsSequential (P := pack float)
       [mk_item 1 100 5 2.5%float; mk_item 2 200 3 4%float] 10 25%float
     = packs (sequential_fill
                [mk_item 1 100 5 2.5%float; mk_item 2 200 3 4%float]
                (Z.max 1 10) (d_max d_tenth 25%float)).
Proof.
  assert (H : CSharp.Math_Max d_tenth 25%float = d_max d_tenth 25%float)
    by reflexivity.
  split; [exact H|].
  exact (proj1 (csharp_sequential_agrees (construct None 8) example_schedule
                  [mk_item 1 100 5 2.5%float; mk_item 2 200 3 4%float] 10
                  25%float H)).
Defined.

(** ** The scenarios of the specification *)

(** The scenarios of section 8 of the specification, on binary64. *)
Lemma specification_scenarios :
  snd (pack_items (construct None 8) example_schedule
         [mk_item 1 100 5 2.5%float; mk_item 2 200 3 4%float] 10 25%float)
  = [mk_pack 1 [mk_item 1 100 5 2.5%float; mk_item 2 200 3 4%float] 8
       24.5%float 200]
  /\ map (fun p => (m_pack_number p, m_total_items p))
       (snd (pack_items (construct None 8) example_schedule
               [mk_item 1 100 100 1%float] 10 1000%float))
     = [(1, 10); (2, 10); (3, 10); (4, 10); (5, 10);
        (6, 10); (7, 10); (8, 10); (9, 10); (10, 10)].
Proof. split; vm_compute; reflexivity. Qed.
